(** * evio: event loop dispatcher and cross-thread stream buffer

    A shallow embedding of the parts of evio that the specification
    talks about, and the properties proved of them.

    - [Decoder]: [InputDecoder::end_of_msg_finder] (InputDecoder.h).
    - [EventLoop]: the wake-up handler, the closure queued for an epoll
      event, the dispatch step and [start_if] / [stop_if]
      (EventLoopThread.cxx).
    - [Buf]: the producer and consumer halves of [StreamBuf]
      (StreamBuf.cxx).

    Integers of the source are [Z]; a conversion to [size_t] is written
    out as a reduction modulo 2^64.  Pointers are addresses in [Z], with
    [0] for [nullptr]. *)

From Stdlib Require Import ZArith List Bool Ascii Lia.
Import ListNotations.
Open Scope Z_scope.

(* ================================================================== *)
(** * InputDecoder *)

Module Decoder.

(** The newline character ['\n']. *)
Definition newline : ascii := "010"%char.

(** [std::memchr(s, c, n)]: the offset of the first occurrence of [c]
    among the first [n] bytes at [s], or [None] for a null result.  The
    array is the list [s]; bytes beyond it are not read. *)
Fixpoint memchr (s : list ascii) (c : ascii) (n : nat) : option Z :=
  match n, s with
  | O, _ => None
  | S _, [] => None
  | S n', x :: s' =>
      if Ascii.eqb x c then Some 0 else option_map Z.succ (memchr s' c n')
  end.

(** [InputDecoder::end_of_msg_finder(new_data, rlen)]:
    [newline ? newline - new_data + 1 : 0]. *)
Definition end_of_msg_finder (new_data : list ascii) (rlen : Z) : Z :=
  match memchr new_data newline (Z.to_nat rlen) with
  | Some off => off + 1
  | None => 0
  end.

(** The byte at index [i] of the array. *)
Definition at_index (s : list ascii) (i : Z) : option ascii :=
  if i <? 0 then None else nth_error s (Z.to_nat i).

Lemma memchr_found (s : list ascii) (c : ascii) :
  forall (n : nat) (i : Z),
    0 <= i < Z.of_nat n ->
    at_index s i = Some c ->
    (forall j, 0 <= j < i -> at_index s j <> Some c) ->
    memchr s c n = Some i.
Proof.
  induction s as [|x s IH]; intros n i Hi Hat Hfirst.
  - unfold at_index in Hat. destruct (i <? 0); [discriminate|].
    destruct (Z.to_nat i); discriminate.
  - destruct n as [|n]; [lia|]. simpl.
    destruct (Z.eq_dec i 0) as [->|Hne].
    + unfold at_index in Hat. simpl in Hat. injection Hat as ->.
      rewrite Ascii.eqb_refl. reflexivity.
    + assert (H0 : at_index (x :: s) 0 <> Some c) by (apply Hfirst; lia).
      unfold at_index in H0. simpl in H0.
      destruct (Ascii.eqb x c) eqn:E.
      * apply Ascii.eqb_eq in E. subst. congruence.
      * rewrite (IH n (i - 1)).
        -- simpl. f_equal. lia.
        -- lia.
        -- unfold at_index in *.
           destruct (i <? 0) eqn:Ei; [lia|].
           destruct (i - 1 <? 0) eqn:Ei1; [lia|].
           replace (Z.to_nat i) with (S (Z.to_nat (i - 1))) in Hat by lia.
           exact Hat.
        -- intros j Hj Hc. apply (Hfirst (j + 1)); [lia|].
           unfold at_index in *.
           destruct (j <? 0) eqn:Ej; [lia|].
           destruct (j + 1 <? 0) eqn:Ej1; [lia|].
           replace (Z.to_nat (j + 1)) with (S (Z.to_nat j)) by lia.
           exact Hc.
Qed.

Lemma memchr_absent (s : list ascii) (c : ascii) :
  forall (n : nat),
    (forall j, 0 <= j < Z.of_nat n -> at_index s j <> Some c) ->
    memchr s c n = None.
Proof.
  induction s as [|x s IH]; intros n Hnone.
  - destruct n; reflexivity.
  - destruct n as [|n]; [reflexivity|]. simpl.
    assert (H0 : at_index (x :: s) 0 <> Some c) by (apply Hnone; lia).
    unfold at_index in H0. simpl in H0.
    destruct (Ascii.eqb x c) eqn:E.
    + apply Ascii.eqb_eq in E. subst. congruence.
    + rewrite IH; [reflexivity|].
      intros j Hj Hc. apply (Hnone (j + 1)); [lia|].
      unfold at_index in *.
      destruct (j <? 0) eqn:Ej; [lia|].
      destruct (j + 1 <? 0) eqn:Ej1; [lia|].
      replace (Z.to_nat (j + 1)) with (S (Z.to_nat j)) by lia.
      exact Hc.
Qed.

(** C9.  For a byte array [new_data] of [rlen] bytes,
    [end_of_msg_finder] returns [i + 1] where [i] is the index of the
    first newline among the first [rlen] bytes, and [0] when none of
    those bytes is a newline. *)
Theorem end_of_msg_finder_first_newline :
  forall (new_data : list ascii) (rlen : Z),
    (forall i,
        0 <= i < rlen ->
        at_index new_data i = Some newline ->
        (forall j, 0 <= j < i -> at_index new_data j <> Some newline) ->
        end_of_msg_finder new_data rlen = i + 1)
    /\
    ((forall j, 0 <= j < rlen -> at_index new_data j <> Some newline) ->
     end_of_msg_finder new_data rlen = 0).
Proof.
  intros new_data rlen. unfold end_of_msg_finder. split.
  - intros i Hi Hat Hfirst.
    rewrite (memchr_found new_data newline (Z.to_nat rlen) i);
      [reflexivity | lia | exact Hat | exact Hfirst].
  - intros Hnone.
    rewrite memchr_absent; [reflexivity|].
    intros j Hj. apply Hnone. lia.
Qed.

(** Scenario 2 of the specification: thirty 'A's, a newline and "tail". *)
Example end_of_msg_finder_scenario :
  let msg := (repeat "A"%char 30 ++ [newline] ++ ["t"; "a"; "i"; "l"])%char in
  end_of_msg_finder msg 35 = 31 /\
  end_of_msg_finder (skipn 31 msg) 4 = 0.
Proof. split; reflexivity. Qed.

End Decoder.

(* ================================================================== *)
(** * EventLoopThread *)

Module EventLoop.

(** ** The wake-up signal handler *)

(** [enum terminate_type]; [not_yet] is the zero value that
    [bump_terminate] tests. *)
Inductive terminate_type : Type := not_yet | cleanly | forced.

Definition terminate_eqb (a b : terminate_type) : bool :=
  match a, b with
  | not_yet, not_yet | cleanly, cleanly | forced, forced => true
  | _, _ => false
  end.

Lemma terminate_eqb_eq (a b : terminate_type) :
  terminate_eqb a b = true <-> a = b.
Proof. destruct a, b; simpl; split; intro H; congruence. Qed.

(** The members of [EventLoopThread] that the dispatcher's control flow
    reads and writes. *)
Record EventLoopThread : Type := mkEventLoopThread {
  m_epoll_fd : Z;
  m_terminate : terminate_type;
  m_active : Z;                 (* std::atomic<int> *)
  m_stop_running : bool;        (* std::atomic<bool> *)
  m_running : bool
}.

Definition store_stop_running (v : bool) (self : EventLoopThread) :=
  {| m_epoll_fd := m_epoll_fd self;
     m_terminate := m_terminate self;
     m_active := m_active self;
     m_stop_running := v;
     m_running := m_running self |}.

(** [EventLoopThread::s_wakeup_handler(int)] on the singleton [self]. *)
Definition s_wakeup_handler (self : EventLoopThread) : EventLoopThread :=
  if terminate_eqb (m_terminate self) forced
     || (terminate_eqb (m_terminate self) cleanly && (m_active self =? 0))
  then store_stop_running true self
  else self.

(** The condition under which the specification says the loop stops. *)
Definition must_stop (self : EventLoopThread) : Prop :=
  m_terminate self = forced \/
  (m_terminate self = cleanly /\ m_active self = 0).

(** C6.  The wake-up handler stores [true] into [m_stop_running], and
    changes nothing else, when [m_terminate] is [forced] or when it is
    [cleanly] with [m_active] equal to 0; in every other state it
    returns the dispatcher state as it was. *)
Theorem s_wakeup_handler_stops_iff :
  forall self : EventLoopThread,
    (must_stop self ->
       s_wakeup_handler self = store_stop_running true self /\
       m_stop_running (s_wakeup_handler self) = true) /\
    (~ must_stop self -> s_wakeup_handler self = self) /\
    (s_wakeup_handler self <> self -> must_stop self).
Proof.
  intros self. unfold s_wakeup_handler, must_stop.
  destruct (terminate_eqb (m_terminate self) forced) eqn:Ef; simpl.
  - apply terminate_eqb_eq in Ef. repeat split; auto. intros H. tauto.
  - destruct (terminate_eqb (m_terminate self) cleanly) eqn:Ec; simpl.
    + apply terminate_eqb_eq in Ec.
      destruct (m_active self =? 0) eqn:Ea.
      * apply Z.eqb_eq in Ea. repeat split; auto. intros H. tauto.
      * apply Z.eqb_neq in Ea. split; [|split].
        -- intros [H | [_ H]]; [congruence | contradiction].
        -- reflexivity.
        -- intros H. congruence.
    + split; [|split].
      * intros [H | [H _]].
        -- apply terminate_eqb_eq in H. congruence.
        -- apply terminate_eqb_eq in H. congruence.
      * reflexivity.
      * intros H. congruence.
Qed.

Example s_wakeup_handler_cleanly_busy :
  let self := mkEventLoopThread 5 cleanly 2 false true in
  s_wakeup_handler self = self.
Proof. reflexivity. Qed.

Example s_wakeup_handler_forced_busy :
  m_stop_running
    (s_wakeup_handler (mkEventLoopThread 5 forced 2 false true)) = true.
Proof. reflexivity. Qed.

(** ** The closure queued for an epoll event *)

(** Event bits of <sys/epoll.h>. *)
Definition EPOLLIN : Z := 1.
Definition EPOLLOUT : Z := 4.
Definition EPOLLERR : Z := 8.
Definition EPOLLHUP : Z := 16.

(** [(events & bit)] taken as a condition. *)
Definition has (events bit : Z) : bool := negb (Z.land events bit =? 0).

(** What a closure does to its device, in program order. *)
Inductive call : Type :=
| hup_event
| exceptional_event
| read_event
| write_event
| device_close                                        (* device->close() *)
| clear_being_processed_by_thread_pool (event : Z)
| allow_deletion
| DoutFatal.                                          (* ends the process *)

(** The lambda that [EventLoopThread::main] moves into the thread pool
    queue, as the sequence of calls it makes for the captured [events]. *)
Definition closure (events : Z) : list call :=
  if has events (Z.lnot (Z.lor EPOLLIN EPOLLOUT)) then
    if has events EPOLLHUP then
      [hup_event; device_close;
       clear_being_processed_by_thread_pool EPOLLHUP; allow_deletion]
    else if has events EPOLLERR then
      [exceptional_event;
       clear_being_processed_by_thread_pool EPOLLERR; allow_deletion]
    else [DoutFatal]
  else
    (if has events EPOLLIN
     then [read_event; clear_being_processed_by_thread_pool EPOLLIN]
     else []) ++
    (if has events EPOLLOUT
     then [write_event; clear_being_processed_by_thread_pool EPOLLOUT]
     else []) ++
    [allow_deletion].

(** [c1] is called, and [c2] is called later, in the trace [t]. *)
Definition called_then (c1 c2 : call) (t : list call) : Prop :=
  exists t1 t2 t3, t = t1 ++ c1 :: t2 ++ c2 :: t3.

Lemma has_testbit (events k : Z) :
  0 <= k -> has events (2 ^ k) = Z.testbit events k.
Proof.
  intros Hk. unfold has. destruct (Z.testbit events k) eqn:E.
  - apply negb_true_iff, Z.eqb_neq. intros H0.
    assert (H : Z.testbit (Z.land events (2 ^ k)) k = false)
      by (rewrite H0; apply Z.bits_0).
    rewrite Z.land_spec, E, Z.pow2_bits_true in H by lia. discriminate.
  - apply negb_false_iff, Z.eqb_eq. apply Z.bits_inj'. intros n Hn.
    rewrite Z.land_spec, Z.bits_0, Z.pow2_bits_eqb by lia.
    destruct (Z.eqb_spec k n) as [->|Hne].
    + rewrite E. reflexivity.
    + apply andb_false_r.
Qed.

Lemma has_of_testbit (events mask k : Z) :
  Z.testbit events k = true -> Z.testbit mask k = true ->
  has events mask = true.
Proof.
  intros He Hm. unfold has. apply negb_true_iff, Z.eqb_neq. intros H0.
  assert (H : Z.testbit (Z.land events mask) k = false)
    by (rewrite H0; apply Z.bits_0).
  rewrite Z.land_spec, He, Hm in H. discriminate.
Qed.

Lemma has_hup_not_in_out (events : Z) :
  has events EPOLLHUP = true ->
  has events (Z.lnot (Z.lor EPOLLIN EPOLLOUT)) = true.
Proof.
  intros H. change EPOLLHUP with (2 ^ 4) in H.
  rewrite has_testbit in H by lia.
  apply (has_of_testbit events _ 4 H). reflexivity.
Qed.

Lemma has_err_not_in_out (events : Z) :
  has events EPOLLERR = true ->
  has events (Z.lnot (Z.lor EPOLLIN EPOLLOUT)) = true.
Proof.
  intros H. change EPOLLERR with (2 ^ 3) in H.
  rewrite has_testbit in H by lia.
  apply (has_of_testbit events _ 3 H). reflexivity.
Qed.

(** C5, as the code has it.  A closure whose events hold the hang-up
    bit calls [hup_event] and then closes the device.  A closure whose
    events hold the error bit and not the hang-up bit calls
    [exceptional_event], clears the ERR bit and allows deletion: it
    does not close the device. *)
Theorem closure_hup_closes_err_does_not :
  forall events : Z,
    (has events EPOLLHUP = true ->
       closure events =
         [hup_event; device_close;
          clear_being_processed_by_thread_pool EPOLLHUP; allow_deletion] /\
       called_then hup_event device_close (closure events)) /\
    (has events EPOLLHUP = false -> has events EPOLLERR = true ->
       closure events =
         [exceptional_event;
          clear_being_processed_by_thread_pool EPOLLERR; allow_deletion] /\
       ~ In device_close (closure events)).
Proof.
  intros events. split.
  - intros Hhup. unfold closure.
    rewrite (has_hup_not_in_out events Hhup), Hhup. split; [reflexivity|].
    exists [], [], [clear_being_processed_by_thread_pool EPOLLHUP;
                    allow_deletion]. reflexivity.
  - intros Hhup Herr. unfold closure.
    rewrite (has_err_not_in_out events Herr), Hhup, Herr.
    split; [reflexivity|].
    simpl. intros [H | [H | [H | []]]]; discriminate.
Qed.

(** C5, as the specification states it, fails for an error event: the
    closure for [EPOLLERR] invokes [exceptional_event] and never calls
    [device->close()]. *)
Lemma closure_err_event_not_closed :
  has EPOLLERR EPOLLERR = true /\
  In exceptional_event (closure EPOLLERR) /\
  ~ called_then exceptional_event device_close (closure EPOLLERR).
Proof.
  split; [reflexivity|]. split; [simpl; auto|].
  intros (t1 & t2 & t3 & H).
  assert (Hin : In device_close (closure EPOLLERR)).
  { rewrite H. apply in_or_app. right. right.
    apply in_or_app. right. left. reflexivity. }
  simpl in Hin.
  destruct Hin as [Hc | [Hc | [Hc | []]]]; discriminate.
Qed.

(** ** The dispatch step *)

(** Modelled from the spec: [FileDescriptor::test_and_set_being_processed_by_thread_pool]
    and [FileDescriptor::clear_being_processed_by_thread_pool], declared
    in FileDescriptor.h, which is not among the sources.  The first
    atomically sets the bits of [events] in [being_processed_by_pool]
    and returns the bits that were set before; the second atomically
    clears the bit of [event]. *)
Definition test_and_set_being_processed_by_thread_pool
    (events : Z) (being_processed : Z) : Z * Z :=
  (being_processed, Z.lor being_processed events).

Definition clear_bit_being_processed (event : Z) (being_processed : Z) : Z :=
  Z.land being_processed (Z.lnot event).

(** One device as the dispatcher and the workers see it: its
    [m_being_processed_by_thread_pool] and, for every closure of this
    device that was queued and has not returned, the calls it still has
    to make (the first of them is the one a worker is in, once a worker
    has taken the closure). *)
Record pool : Type := mkPool {
  being_processed : Z;
  in_flight : list (list call)
}.

(** The body of [while (nfds > 0)] in [EventLoopThread::main] for one
    returned event of the device.  Waiting for room in the queue delays
    [move_in] and does not change what is moved in. *)
Definition dispatch (events : Z) (s : pool) : pool :=
  let '(already_being_processed_by_thread_pool, bp) :=
    test_and_set_being_processed_by_thread_pool events (being_processed s) in
  let events := Z.land events (Z.lnot already_being_processed_by_thread_pool) in
  if events =? 0 then mkPool bp (in_flight s)
  else mkPool bp (in_flight s ++ [closure events]).

(** The effect of one call of a closure on the bit mask. *)
Definition perform (c : call) (bp : Z) : Z :=
  match c with
  | clear_being_processed_by_thread_pool event =>
      clear_bit_being_processed event bp
  | _ => bp
  end.

Fixpoint set_nth {A : Type} (i : nat) (x : A) (l : list A) {struct l}
  : list A :=
  match l, i with
  | [], _ => []
  | _ :: l', O => x :: l'
  | y :: l', S i' => y :: set_nth i' x l'
  end.

(** The worker running closure [i] completes the call it is in. *)
Definition worker_step (i : nat) (s : pool) : option pool :=
  match nth_error (in_flight s) i with
  | Some (c :: rest) =>
      Some (mkPool (perform c (being_processed s))
                   (set_nth i rest (in_flight s)))
  | _ => None
  end.

(** Any interleaving of the dispatcher and the workers. *)
Inductive step : pool -> pool -> Prop :=
| step_dispatch (events : Z) (s : pool) :
    0 <= events -> step s (dispatch events s)
| step_worker (i : nat) (s s' : pool) :
    worker_step i s = Some s' -> step s s'.

Inductive reachable : pool -> Prop :=
| reachable_init : reachable (mkPool 0 [])
| reachable_step (s s' : pool) : reachable s -> step s s' -> reachable s'.

(** The closure [c] has still to clear the bit [b]. *)
Definition owns (b : Z) (c : list call) : Prop :=
  In (clear_being_processed_by_thread_pool b) c.

(** The event handlers and the bit under which each runs. *)
Definition handler_bit (h : call) : option Z :=
  match h with
  | read_event => Some EPOLLIN
  | write_event => Some EPOLLOUT
  | hup_event => Some EPOLLHUP
  | exceptional_event => Some EPOLLERR
  | _ => None
  end.

(** Every handler call is followed by the clearing of its bit, and no
    bit is cleared twice. *)
Fixpoint ordered (c : list call) : Prop :=
  match c with
  | [] => True
  | x :: rest =>
      match x with
      | clear_being_processed_by_thread_pool b => ~ owns b rest
      | _ => match handler_bit x with
             | Some b => owns b rest
             | None => True
             end
      end /\ ordered rest
  end.

Lemma ordered_closure (events : Z) : ordered (closure events).
Proof.
  unfold closure, owns.
  destruct (has events (Z.lnot (Z.lor EPOLLIN EPOLLOUT)));
    destruct (has events EPOLLHUP); destruct (has events EPOLLERR);
    destruct (has events EPOLLIN); destruct (has events EPOLLOUT);
    simpl; unfold owns; simpl; intuition (try discriminate; auto).
Qed.

Lemma ordered_handler (c : list call) (h : call) (b : Z) :
  ordered c -> handler_bit h = Some b -> In h c -> owns b c.
Proof.
  induction c as [|x rest IH]; intros Hord Hh Hin; [destruct Hin|].
  destruct Hord as [Hx Hrest]. destruct Hin as [-> | Hin].
  - right. destruct h; simpl in Hh, Hx; try discriminate;
      injection Hh as <-; exact Hx.
  - right. apply IH; assumption.
Qed.

Lemma owns_closure (events b : Z) :
  owns b (closure events) ->
  exists k, 0 <= k /\ b = 2 ^ k /\ Z.testbit events k = true.
Proof.
  unfold closure, owns.
  destruct (has events (Z.lnot (Z.lor EPOLLIN EPOLLOUT))).
  - destruct (has events EPOLLHUP) eqn:Eh.
    + simpl. intros [H | [H | [H | [H | []]]]]; try discriminate.
      injection H as <-. exists 4. change EPOLLHUP with (2 ^ 4) in Eh.
      rewrite has_testbit in Eh by lia. repeat split; [lia | exact Eh].
    + destruct (has events EPOLLERR) eqn:Ee.
      * simpl. intros [H | [H | [H | []]]]; try discriminate.
        injection H as <-. exists 3. change EPOLLERR with (2 ^ 3) in Ee.
        rewrite has_testbit in Ee by lia. repeat split; [lia | exact Ee].
      * simpl. intros [H | []]. discriminate.
  - intros H. apply in_app_or in H. destruct H as [H | H].
    + destruct (has events EPOLLIN) eqn:Ei; [|destruct H].
      simpl in H. destruct H as [H | [H | []]]; try discriminate.
      injection H as <-. exists 0. change EPOLLIN with (2 ^ 0) in Ei.
      rewrite has_testbit in Ei by lia. repeat split; [lia | exact Ei].
    + apply in_app_or in H. destruct H as [H | H].
      * destruct (has events EPOLLOUT) eqn:Eo; [|destruct H].
        simpl in H. destruct H as [H | [H | []]]; try discriminate.
        injection H as <-. exists 2. change EPOLLOUT with (2 ^ 2) in Eo.
        rewrite has_testbit in Eo by lia. repeat split; [lia | exact Eo].
      * simpl in H. destruct H as [H | []]. discriminate.
Qed.

Lemma nth_error_set_nth {A : Type} (l : list A) :
  forall (i j : nat) (x y : A),
    nth_error (set_nth i x l) j = Some y ->
    (j = i /\ y = x) \/ (j <> i /\ nth_error l j = Some y).
Proof.
  induction l as [|a l IH]; intros i j x y H.
  - destruct j; discriminate.
  - destruct i as [|i]; destruct j as [|j]; simpl in H.
    + injection H as <-. left. split; reflexivity.
    + right. split; [discriminate | exact H].
    + right. split; [discriminate | exact H].
    + destruct (IH i j x y H) as [[-> ->] | [Hne Hnth]].
      * left. split; reflexivity.
      * right. split; [congruence | exact Hnth].
Qed.

(** What every reachable state satisfies: closures are in program
    order; a bit that a closure has still to clear is set on the device;
    and no bit is owned by two closures. *)
Record dispatch_inv (s : pool) : Prop := mkDispatchInv {
  inv_ordered : forall c, In c (in_flight s) -> ordered c;
  inv_bit_set : forall i c b,
      nth_error (in_flight s) i = Some c -> owns b c ->
      exists k, 0 <= k /\ b = 2 ^ k /\
                Z.testbit (being_processed s) k = true;
  inv_exclusive : forall i j ci cj b,
      i <> j ->
      nth_error (in_flight s) i = Some ci ->
      nth_error (in_flight s) j = Some cj ->
      owns b ci -> owns b cj -> False
}.

Lemma dispatch_inv_init : dispatch_inv (mkPool 0 []).
Proof.
  constructor; simpl.
  - intros c [].
  - intros i c b H. destruct i; discriminate.
  - intros i j ci cj b _ H. destruct i; discriminate.
Qed.

Lemma nth_error_snoc {A : Type} (l : list A) (x y : A) (i : nat) :
  nth_error (l ++ [x]) i = Some y ->
  (nth_error l i = Some y /\ (i < length l)%nat) \/
  (i = length l /\ y = x).
Proof.
  intros H. destruct (Nat.lt_ge_cases i (length l)) as [Hlt | Hge].
  - left. rewrite nth_error_app1 in H by exact Hlt. split; assumption.
  - right. rewrite nth_error_app2 in H by exact Hge.
    destruct (i - length l)%nat as [|n] eqn:E; simpl in H.
    + injection H as <-. split; [lia | reflexivity].
    + destruct n; discriminate.
Qed.

Lemma dispatch_inv_dispatch (events : Z) (s : pool) :
  0 <= events -> dispatch_inv s -> dispatch_inv (dispatch events s).
Proof.
  intros Hev [Hord Hset Hexcl]. unfold dispatch. simpl.
  assert (Hold : forall i c b,
             nth_error (in_flight s) i = Some c -> owns b c ->
             exists k, 0 <= k /\ b = 2 ^ k /\
               Z.testbit (Z.lor (being_processed s) events) k = true).
  { intros i c b Hn Ho. destruct (Hset i c b Hn Ho) as (k & Hk & Hb & Ht).
    exists k. repeat split; try assumption.
    rewrite Z.lor_spec, Ht. reflexivity. }
  assert (Hnew : forall b,
             owns b (closure (Z.land events (Z.lnot (being_processed s)))) ->
             exists k, 0 <= k /\ b = 2 ^ k /\
               Z.testbit events k = true /\
               Z.testbit (being_processed s) k = false).
  { intros b Ho. destruct (owns_closure _ _ Ho) as (k & Hk & Hb & Ht).
    rewrite Z.land_spec, Z.lnot_spec in Ht by exact Hk.
    apply andb_true_iff in Ht. destruct Ht as [Ht1 Ht2].
    apply negb_true_iff in Ht2. exists k. repeat split; assumption. }
  destruct (Z.land events (Z.lnot (being_processed s)) =? 0).
  - constructor; simpl; [exact Hord | exact Hold | exact Hexcl].
  - constructor; simpl.
    + intros c Hin. apply in_app_or in Hin. destruct Hin as [Hin | [<- | []]].
      * apply Hord. exact Hin.
      * apply ordered_closure.
    + intros i c b Hn Ho. apply nth_error_snoc in Hn.
      destruct Hn as [[Hn _] | [_ ->]].
      * exact (Hold i c b Hn Ho).
      * destruct (Hnew b Ho) as (k & Hk & Hb & Ht & _).
        exists k. repeat split; try assumption.
        rewrite Z.lor_spec, Ht. apply orb_true_r.
    + intros i j ci cj b Hij Hi Hj Hoi Hoj.
      apply nth_error_snoc in Hi. apply nth_error_snoc in Hj.
      destruct Hi as [[Hi _] | [Hil ->]]; destruct Hj as [[Hj Hjl] | [Hjl ->]].
      * exact (Hexcl i j ci cj b Hij Hi Hj Hoi Hoj).
      * destruct (Hnew b Hoj) as (k & Hk & Hb & _ & Hf).
        destruct (Hset i ci b Hi Hoi) as (k' & Hk' & Hb' & Ht).
        assert (k = k') by (apply (Z.pow_inj_r 2); lia). subst k'.
        congruence.
      * destruct (Hnew b Hoi) as (k & Hk & Hb & _ & Hf).
        destruct (Hset j cj b Hj Hoj) as (k' & Hk' & Hb' & Ht).
        assert (k = k') by (apply (Z.pow_inj_r 2); lia). subst k'.
        congruence.
      * lia.
Qed.

Lemma dispatch_inv_worker (i : nat) (s s' : pool) :
  worker_step i s = Some s' -> dispatch_inv s -> dispatch_inv s'.
Proof.
  unfold worker_step. intros Hstep [Hord Hset Hexcl].
  destruct (nth_error (in_flight s) i) as [[|x rest]|] eqn:Hi;
    try discriminate.
  injection Hstep as <-.
  assert (Hxr : ordered (x :: rest))
    by (apply Hord; eapply nth_error_In; exact Hi).
  assert (Hsub : forall b, owns b rest -> owns b (x :: rest))
    by (intros b Hb; right; exact Hb).
  assert (Hbit : forall j c b,
             nth_error (set_nth i rest (in_flight s)) j = Some c ->
             owns b c ->
             exists k, 0 <= k /\ b = 2 ^ k /\
               Z.testbit (being_processed s) k = true /\
               x <> clear_being_processed_by_thread_pool b).
  { intros j c b Hj Ho. apply nth_error_set_nth in Hj.
    destruct Hj as [[-> ->] | [Hne Hj]].
    - destruct (Hset i (x :: rest) b Hi (Hsub b Ho)) as (k & Hk & Hb & Ht).
      exists k. repeat split; try assumption.
      intros ->. destruct Hxr as [Hno _]. exact (Hno Ho).
    - destruct (Hset j c b Hj Ho) as (k & Hk & Hb & Ht).
      exists k. repeat split; try assumption.
      intros Hx. apply (Hexcl i j (x :: rest) c b); auto.
      left. exact Hx. }
  constructor; simpl.
  - intros c Hin. apply In_nth_error in Hin. destruct Hin as [j Hj].
    apply nth_error_set_nth in Hj. destruct Hj as [[_ ->] | [_ Hj]].
    + apply Hxr.
    + apply Hord. eapply nth_error_In. exact Hj.
  - intros j c b Hj Ho.
    destruct (Hbit j c b Hj Ho) as (k & Hk & Hb & Ht & Hx).
    exists k. repeat split; try assumption.
    destruct x; simpl; try exact Ht.
    unfold clear_bit_being_processed.
    assert (Hown : owns event (clear_being_processed_by_thread_pool event
                                 :: rest)) by (left; reflexivity).
    destruct (Hset i _ event Hi Hown) as (ke & Hke & Hbe & _).
    rewrite Z.land_spec, Z.lnot_spec, Ht by exact Hk. simpl.
    apply negb_true_iff. rewrite Hbe, Z.pow2_bits_eqb by exact Hke.
    apply Z.eqb_neq. intros ->. apply Hx. congruence.
  - intros j1 j2 c1 c2 b Hne H1 H2 Ho1 Ho2.
    apply nth_error_set_nth in H1. apply nth_error_set_nth in H2.
    destruct H1 as [[-> ->] | [Hn1 H1]]; destruct H2 as [[-> ->] | [Hn2 H2]].
    + congruence.
    + exact (Hexcl i j2 (x :: rest) c2 b Hne Hi H2 (Hsub b Ho1) Ho2).
    + exact (Hexcl j1 i c1 (x :: rest) b Hne H1 Hi Ho1 (Hsub b Ho2)).
    + exact (Hexcl j1 j2 c1 c2 b Hne H1 H2 Ho1 Ho2).
Qed.

Lemma reachable_dispatch_inv (s : pool) : reachable s -> dispatch_inv s.
Proof.
  induction 1 as [|s s' _ IH Hstep].
  - apply dispatch_inv_init.
  - destruct Hstep as [events s Hev | i s s' Hw].
    + apply dispatch_inv_dispatch; assumption.
    + eapply dispatch_inv_worker; eassumption.
Qed.

(** C7.  In every state reachable by dispatch steps and worker steps:
    a dispatch sets the event's bits on the device and queues a closure
    for exactly the bits that were not set before (none when there is no
    such bit); and no two closures in flight both have the same handler
    ([read_event], [write_event], [hup_event], [exceptional_event]) to
    run or running. *)
Theorem dispatch_one_worker_per_direction :
  forall s : pool,
    reachable s ->
    (forall events, 0 <= events ->
       let fresh := Z.land events (Z.lnot (being_processed s)) in
       Z.land fresh (being_processed s) = 0 /\
       being_processed (dispatch events s) =
         Z.lor (being_processed s) events /\
       in_flight (dispatch events s) =
         in_flight s ++ (if fresh =? 0 then [] else [closure fresh])) /\
    (forall i j ci cj h b,
       i <> j ->
       nth_error (in_flight s) i = Some ci ->
       nth_error (in_flight s) j = Some cj ->
       handler_bit h = Some b ->
       In h ci -> In h cj -> False).
Proof.
  intros s Hreach. split.
  - intros events Hev fresh. split; [|split].
    + subst fresh. rewrite <- Z.land_assoc.
      rewrite (Z.land_comm (Z.lnot _)), Z.land_lnot_diag. apply Z.land_0_r.
    + unfold dispatch. simpl.
      destruct (Z.land events (Z.lnot (being_processed s)) =? 0); reflexivity.
    + unfold dispatch. simpl. subst fresh.
      destruct (Z.land events (Z.lnot (being_processed s)) =? 0); simpl.
      * rewrite app_nil_r. reflexivity.
      * reflexivity.
  - intros i j ci cj h b Hij Hi Hj Hh Hci Hcj.
    destruct (reachable_dispatch_inv s Hreach) as [Hord _ Hexcl].
    apply (Hexcl i j ci cj b Hij Hi Hj).
    + apply (ordered_handler ci h b); [|assumption..].
      apply Hord. eapply nth_error_In. exact Hi.
    + apply (ordered_handler cj h b); [|assumption..].
      apply Hord. eapply nth_error_In. exact Hj.
Qed.

(** A run: readable; readable and writable while the first closure is
    queued; the first worker finishes [read_event]. *)
Definition sample_pool : pool :=
  mkPool (Z.lor EPOLLIN EPOLLOUT)
    [[clear_being_processed_by_thread_pool EPOLLIN; allow_deletion];
     [write_event; clear_being_processed_by_thread_pool EPOLLOUT;
      allow_deletion]].

Lemma sample_pool_reachable : reachable sample_pool.
Proof.
  apply (reachable_step
           (dispatch (Z.lor EPOLLIN EPOLLOUT)
              (dispatch EPOLLIN (mkPool 0 [])))).
  - apply reachable_step with (s := dispatch EPOLLIN (mkPool 0 [])).
    + apply reachable_step with (s := mkPool 0 []).
      * apply reachable_init.
      * apply step_dispatch. discriminate.
    + apply step_dispatch. discriminate.
  - apply (step_worker 0). reflexivity.
Defined.

Lemma dispatch_one_worker_per_direction_witness :
  reachable sample_pool /\
  in_flight (dispatch EPOLLIN sample_pool) = in_flight sample_pool /\
  (forall i j ci cj h b,
     i <> j ->
     nth_error (in_flight sample_pool) i = Some ci ->
     nth_error (in_flight sample_pool) j = Some cj ->
     handler_bit h = Some b ->
     In h ci -> In h cj -> False).
Proof.
  split; [exact sample_pool_reachable|].
  destruct (dispatch_one_worker_per_direction sample_pool
              sample_pool_reachable) as [Hd Hx].
  split; [|exact Hx].
  destruct (Hd EPOLLIN ltac:(discriminate)) as (_ & _ & Hq).
  rewrite Hq. reflexivity.
Defined.

(** ** Conditional start and stop *)

(** Modelled from the spec: [utils::FuzzyBool] and
    [utils::FuzzyCondition] (utils/FuzzyBool.h is not among the
    sources).  A fuzzy boolean is one of the four values that
    StreamBuf.h returns; a condition is a cached value together with the
    function that computes it, and [recomputed] is what that function
    returns when [start_if] or [stop_if] calls it under the state lock. *)
Inductive FuzzyBool : Type :=
| fuzzy_True | fuzzy_WasTrue | fuzzy_WasFalse | fuzzy_False.

Definition is_false (v : FuzzyBool) : bool :=
  match v with fuzzy_False => true | _ => false end.
Definition is_transitory_false (v : FuzzyBool) : bool :=
  match v with fuzzy_WasFalse => true | _ => false end.
Definition is_transitory_true (v : FuzzyBool) : bool :=
  match v with fuzzy_WasTrue => true | _ => false end.
Definition is_momentary_false (v : FuzzyBool) : bool :=
  match v with fuzzy_False | fuzzy_WasFalse => true | _ => false end.

Record FuzzyCondition : Type := mkFuzzyCondition {
  cached : FuzzyBool;
  recomputed : FuzzyBool
}.

(** Modelled from the spec: [FileDescriptorFlags] (FileDescriptorFlags.h
    is not among the sources), a bit set with one field per flag.  The
    [test_and_*] members change a bit and tell whether they changed it. *)
Record FileDescriptorFlags : Type := mkFlags {
  r_open : bool; w_open : bool;
  r_active : bool; w_active : bool;
  r_added : bool; w_added : bool;
  r_disabled : bool; w_disabled : bool;
  r_inferior : bool; w_inferior : bool;
  is_regular_file : bool;
  is_same : bool;
  is_dead : bool
}.

(** The two values of [mask_t active_flag]. *)
Inductive active_flag_t : Type := FDS_R_ACTIVE | FDS_W_ACTIVE.

Definition is_active (af : active_flag_t) (f : FileDescriptorFlags) : bool :=
  match af with FDS_R_ACTIVE => r_active f | FDS_W_ACTIVE => w_active f end.

Definition put_active (af : active_flag_t) (v : bool)
    (f : FileDescriptorFlags) : FileDescriptorFlags :=
  match af with
  | FDS_R_ACTIVE =>
      mkFlags (r_open f) (w_open f) v (w_active f) (r_added f) (w_added f)
        (r_disabled f) (w_disabled f) (r_inferior f) (w_inferior f)
        (is_regular_file f) (is_same f) (is_dead f)
  | FDS_W_ACTIVE =>
      mkFlags (r_open f) (w_open f) (r_active f) v (r_added f) (w_added f)
        (r_disabled f) (w_disabled f) (r_inferior f) (w_inferior f)
        (is_regular_file f) (is_same f) (is_dead f)
  end.

Definition is_added_for (af : active_flag_t) (f : FileDescriptorFlags) : bool :=
  match af with FDS_R_ACTIVE => r_added f | FDS_W_ACTIVE => w_added f end.

Definition put_added (af : active_flag_t) (v : bool)
    (f : FileDescriptorFlags) : FileDescriptorFlags :=
  match af with
  | FDS_R_ACTIVE =>
      mkFlags (r_open f) (w_open f) (r_active f) (w_active f) v (w_added f)
        (r_disabled f) (w_disabled f) (r_inferior f) (w_inferior f)
        (is_regular_file f) (is_same f) (is_dead f)
  | FDS_W_ACTIVE =>
      mkFlags (r_open f) (w_open f) (r_active f) (w_active f) (r_added f) v
        (r_disabled f) (w_disabled f) (r_inferior f) (w_inferior f)
        (is_regular_file f) (is_same f) (is_dead f)
  end.

Definition test_disabled (af : active_flag_t) (f : FileDescriptorFlags) : bool :=
  match af with FDS_R_ACTIVE => r_disabled f | FDS_W_ACTIVE => w_disabled f end.

Definition test_inferior (af : active_flag_t) (f : FileDescriptorFlags) : bool :=
  match af with FDS_R_ACTIVE => r_inferior f | FDS_W_ACTIVE => w_inferior f end.

Definition set_active := fun af => put_active af true.
Definition clear_active := fun af => put_active af false.

(** [true] when the flag was clear and is now set. *)
Definition test_and_set_active (af : active_flag_t) (f : FileDescriptorFlags)
  : bool * FileDescriptorFlags :=
  (negb (is_active af f), set_active af f).

(** [true] when the flag was set and is now clear. *)
Definition test_and_clear_active (af : active_flag_t) (f : FileDescriptorFlags)
  : bool * FileDescriptorFlags :=
  (is_active af f, clear_active af f).

Definition test_and_set_added (af : active_flag_t) (f : FileDescriptorFlags)
  : bool * FileDescriptorFlags :=
  (negb (is_added_for af f), put_added af true f).

Definition active_to_events (af : active_flag_t) : Z :=
  match af with FDS_R_ACTIVE => EPOLLIN | FDS_W_ACTIVE => EPOLLOUT end.

(** What [start_if] and [stop_if] do outside the flags and [m_active]. *)
Inductive effect : Type :=
| inhibit_deletion
| start_watching (events : Z) (needs_adding : bool)
| stop_watching (events : Z) (needs_removal : bool)
| handle_regular_file (af : active_flag_t)
| wake_up.

(** The state the two functions work on: the locked device state
    [state_w->m_flags], the event loop, and the calls made so far. *)
Record system : Type := mkSystem {
  m_flags : FileDescriptorFlags;
  loop : EventLoopThread;
  effects : list effect
}.

Definition with_flags (f : FileDescriptorFlags) (sys : system) : system :=
  mkSystem f (loop sys) (effects sys).

Definition emit (e : effect) (sys : system) : system :=
  mkSystem (m_flags sys) (loop sys) (effects sys ++ [e]).

Definition add_active (d : Z) (sys : system) : system :=
  mkSystem (m_flags sys)
    (mkEventLoopThread (m_epoll_fd (loop sys)) (m_terminate (loop sys))
       (m_active (loop sys) + d) (m_stop_running (loop sys))
       (m_running (loop sys)))
    (effects sys).

(** [EventLoopThread::bump_terminate]. *)
Definition bump_terminate (sys : system) : system :=
  match m_terminate (loop sys) with
  | not_yet => sys
  | _ => emit wake_up sys
  end.

(** A call either returns or stops at a failed [ASSERT]. *)
Inductive outcome (A : Type) : Type :=
| returns (a : A)
| assert_failed.
Arguments returns {A} a.
Arguments assert_failed {A}.

(** [EventLoopThread::start_if]. *)
Definition start_if (condition : FuzzyCondition) (active_flag : active_flag_t)
    (sys : system) : outcome (bool * system) :=
  if is_false (cached condition) then returns (false, sys)
  else if test_disabled active_flag (m_flags sys) then returns (true, sys)
  else if is_transitory_false (cached condition) then assert_failed
  else
    let '(newly_active, f1) := test_and_set_active active_flag (m_flags sys) in
    let sys1 := with_flags f1 sys in
    if negb newly_active then returns (true, sys1)
    else if is_transitory_true (cached condition)
            && is_momentary_false (recomputed condition)
    then returns (false, with_flags (clear_active active_flag f1) sys1)
    else
      let '(needs_adding, f2) := test_and_set_added active_flag f1 in
      let sys2 := with_flags f2 sys1 in
      let sys3 := if negb (test_inferior active_flag f2)
                  then add_active 1 sys2 else sys2 in
      if negb (is_regular_file f2) then
        let sys4 := if needs_adding then emit inhibit_deletion sys3
                    else sys3 in
        returns (true,
                 emit (start_watching (active_to_events active_flag)
                         needs_adding) sys4)
      else returns (true, emit (handle_regular_file active_flag) sys3).

(** [EventLoopThread::stop_if]. *)
Definition stop_if (condition : FuzzyCondition) (active_flag : active_flag_t)
    (sys : system) : outcome (bool * system) :=
  if is_false (cached condition) then returns (false, sys)
  else if is_transitory_false (cached condition) then assert_failed
  else
    let '(was_active, f1) := test_and_clear_active active_flag (m_flags sys) in
    let sys1 := with_flags f1 sys in
    if negb was_active then returns (true, sys1)
    else if is_transitory_true (cached condition)
            && is_momentary_false (recomputed condition)
    then returns (false, with_flags (set_active active_flag f1) sys1)
    else
      let sys2 := if negb (is_regular_file f1)
                  then emit (stop_watching (active_to_events active_flag)
                               false) sys1
                  else sys1 in
      if negb (test_inferior active_flag f1) then
        let sys3 := add_active (-1) sys2 in
        returns (true,
                 if m_active (loop sys3) =? 0 then bump_terminate sys3
                 else sys3)
      else returns (true, sys2).

Lemma put_active_same (af : active_flag_t) (f : FileDescriptorFlags) :
  put_active af (is_active af f) f = f.
Proof. destruct af, f; reflexivity. Qed.

Lemma put_active_twice (af : active_flag_t) (u v : bool)
    (f : FileDescriptorFlags) :
  put_active af v (put_active af u f) = put_active af v f.
Proof. destruct af; reflexivity. Qed.

Lemma is_active_put (af : active_flag_t) (v : bool)
    (f : FileDescriptorFlags) :
  is_active af (put_active af v f) = v.
Proof. destruct af; reflexivity. Qed.

Lemma with_flags_same (sys : system) : with_flags (m_flags sys) sys = sys.
Proof. destruct sys; reflexivity. Qed.

Lemma start_if_false_unchanged (condition : FuzzyCondition)
    (af : active_flag_t) (sys sys' : system) :
  start_if condition af sys = returns (false, sys') -> sys' = sys.
Proof.
  unfold start_if, test_and_set_active, test_and_set_added, set_active,
    clear_active.
  destruct (is_false (cached condition)); [intros H; congruence|].
  destruct (test_disabled af (m_flags sys)); [discriminate|].
  destruct (is_transitory_false (cached condition)); [discriminate|].
  destruct (is_active af (m_flags sys)) eqn:Ea; simpl; [discriminate|].
  destruct (is_transitory_true (cached condition)
            && is_momentary_false (recomputed condition)).
  - intros H. injection H as <-.
    rewrite put_active_twice, <- Ea, put_active_same.
    unfold with_flags. simpl. destruct sys; reflexivity.
  - destruct (is_regular_file _); simpl; discriminate.
Qed.

Lemma stop_if_false_unchanged (condition : FuzzyCondition)
    (af : active_flag_t) (sys sys' : system) :
  stop_if condition af sys = returns (false, sys') -> sys' = sys.
Proof.
  unfold stop_if, test_and_clear_active, set_active, clear_active.
  destruct (is_false (cached condition)); [intros H; congruence|].
  destruct (is_transitory_false (cached condition)); [discriminate|].
  destruct (is_active af (m_flags sys)) eqn:Ea; simpl; [|discriminate].
  destruct (is_transitory_true (cached condition)
            && is_momentary_false (recomputed condition)).
  - intros H. injection H as <-.
    rewrite put_active_twice, <- Ea, put_active_same.
    unfold with_flags. simpl. destruct sys; reflexivity.
  - destruct (test_inferior af _); simpl; discriminate.
Qed.

(** C10.  When [start_if] has set the active flag and its re-test of a
    transitory-true condition under the state lock is momentary-false,
    it clears the flag again and returns [false] with the state it was
    called in; when [stop_if] has cleared the active flag and its
    re-test is momentary-false, it sets the flag again and returns
    [false] with the state it was called in.  Neither function ever
    returns [false] with a changed state. *)
Theorem conditional_start_stop_failure_is_atomic :
  forall (condition : FuzzyCondition) (af : active_flag_t) (sys : system),
    (cached condition = fuzzy_WasTrue ->
     is_momentary_false (recomputed condition) = true ->
     test_disabled af (m_flags sys) = false ->
     is_active af (m_flags sys) = false ->
       let '(newly_active, f1) := test_and_set_active af (m_flags sys) in
       newly_active = true /\ is_active af f1 = true /\
       clear_active af f1 = m_flags sys /\
       start_if condition af sys = returns (false, sys)) /\
    (cached condition = fuzzy_WasTrue ->
     is_momentary_false (recomputed condition) = true ->
     is_active af (m_flags sys) = true ->
       let '(was_active, f1) := test_and_clear_active af (m_flags sys) in
       was_active = true /\ is_active af f1 = false /\
       set_active af f1 = m_flags sys /\
       stop_if condition af sys = returns (false, sys)) /\
    (forall sys', start_if condition af sys = returns (false, sys') ->
                  sys' = sys) /\
    (forall sys', stop_if condition af sys = returns (false, sys') ->
                  sys' = sys).
Proof.
  intros condition af sys. split; [|split; [|split]].
  - intros Hc Hm Hd Ha. unfold test_and_set_active, set_active, clear_active.
    rewrite Ha. simpl.
    assert (Hback : put_active af false (put_active af true (m_flags sys))
                    = m_flags sys)
      by (rewrite put_active_twice, <- Ha; apply put_active_same).
    repeat split.
    + apply is_active_put.
    + exact Hback.
    + unfold start_if, test_and_set_active, set_active, clear_active.
      rewrite Hc, Hd, Ha, Hm. simpl. rewrite Hback.
      unfold with_flags. simpl. destruct sys; reflexivity.
  - intros Hc Hm Ha. unfold test_and_clear_active, set_active, clear_active.
    rewrite Ha.
    assert (Hback : put_active af true (put_active af false (m_flags sys))
                    = m_flags sys)
      by (rewrite put_active_twice, <- Ha; apply put_active_same).
    repeat split.
    + apply is_active_put.
    + exact Hback.
    + unfold stop_if, test_and_clear_active, set_active, clear_active.
      rewrite Hc, Ha, Hm. simpl. rewrite Hback.
      unfold with_flags. simpl. destruct sys; reflexivity.
  - intros sys'. apply start_if_false_unchanged.
  - intros sys'. apply stop_if_false_unchanged.
Qed.

(** An input device, open and added, not active; and the same device
    active. *)
Definition idle_flags : FileDescriptorFlags :=
  mkFlags true false false false true false false false false false
    false false false.

Definition idle_system : system :=
  mkSystem idle_flags (mkEventLoopThread 5 not_yet 0 false true) [].

Definition busy_system : system :=
  mkSystem (set_active FDS_R_ACTIVE idle_flags)
    (mkEventLoopThread 5 not_yet 1 false true) [].

Lemma conditional_start_stop_failure_is_atomic_witness :
  start_if (mkFuzzyCondition fuzzy_WasTrue fuzzy_WasFalse) FDS_R_ACTIVE
    idle_system = returns (false, idle_system) /\
  stop_if (mkFuzzyCondition fuzzy_WasTrue fuzzy_False) FDS_R_ACTIVE
    busy_system = returns (false, busy_system).
Proof.
  split.
  - apply (conditional_start_stop_failure_is_atomic
             (mkFuzzyCondition fuzzy_WasTrue fuzzy_WasFalse) FDS_R_ACTIVE
             idle_system); reflexivity.
  - apply (conditional_start_stop_failure_is_atomic
             (mkFuzzyCondition fuzzy_WasTrue fuzzy_False) FDS_R_ACTIVE
             busy_system); reflexivity.
Defined.

(** With the re-test still true, [start_if] goes on to register the
    device. *)
Example start_if_starts :
  start_if (mkFuzzyCondition fuzzy_WasTrue fuzzy_True) FDS_R_ACTIVE
    idle_system =
  returns (true,
           mkSystem (set_active FDS_R_ACTIVE idle_flags)
             (mkEventLoopThread 5 not_yet 1 false true)
             [start_watching EPOLLIN false]).
Proof. reflexivity. Qed.

(** ** Unconditional start, stop and removal *)

(** Modelled from the spec, as the other members of
    [FileDescriptorFlags]: [test_and_clear_added] clears the added bit
    of the direction and tells whether it was set; [is_added] tells
    whether a direction is still added. *)
Definition test_and_clear_added (af : active_flag_t) (f : FileDescriptorFlags)
  : bool * FileDescriptorFlags :=
  (is_added_for af f, put_added af false f).

Definition is_added (f : FileDescriptorFlags) : bool :=
  r_added f || w_added f.

(** [--m_active] and the [bump_terminate] that follows when it reaches
    zero. *)
Definition decrement_active (sys : system) : system :=
  let sys := add_active (-1) sys in
  if m_active (loop sys) =? 0 then bump_terminate sys else sys.

(** [EventLoopThread::start]. *)
Definition start (active_flag : active_flag_t) (sys : system) : system :=
  if test_disabled active_flag (m_flags sys) then sys
  else
    let '(newly_active, f1) := test_and_set_active active_flag (m_flags sys) in
    let sys1 := with_flags f1 sys in
    if negb newly_active then sys1
    else
      let '(needs_adding, f2) := test_and_set_added active_flag f1 in
      let sys2 := with_flags f2 sys1 in
      let sys3 := if negb (test_inferior active_flag f2)
                  then add_active 1 sys2 else sys2 in
      if negb (is_regular_file f2) then
        let sys4 := if needs_adding then emit inhibit_deletion sys3
                    else sys3 in
        emit (start_watching (active_to_events active_flag) needs_adding)
          sys4
      else emit (handle_regular_file active_flag) sys3.

(** [EventLoopThread::stop]. *)
Definition stop (active_flag : active_flag_t) (sys : system) : system :=
  let '(was_active, f1) := test_and_clear_active active_flag (m_flags sys) in
  let sys1 := with_flags f1 sys in
  if negb was_active then sys1
  else
    let sys2 := if negb (is_regular_file f1)
                then emit (stop_watching (active_to_events active_flag)
                             false) sys1
                else sys1 in
    if negb (test_inferior active_flag f1) then decrement_active sys2
    else sys2.

(** [EventLoopThread::remove]: what it adds to [need_allow_deletion],
    and the state. *)
Definition remove (active_flag : active_flag_t) (sys : system)
  : Z * system :=
  let '(was_added, f1) := test_and_clear_added active_flag (m_flags sys) in
  let needs_removal := was_added && negb (is_added f1) in
  let '(cleared_active, f2) := test_and_clear_active active_flag f1 in
  let sys1 := with_flags f2 sys in
  let '(need_allow_deletion, sys2) :=
    if (cleared_active || needs_removal) && negb (is_regular_file f2)
    then
      (if needs_removal then 1 else 0,
       emit (stop_watching (active_to_events active_flag) needs_removal)
         sys1)
    else (0, sys1) in
  (need_allow_deletion,
   if cleared_active && negb (test_inferior active_flag f2)
   then decrement_active sys2 else sys2).




(** The calls that start and stop the directions of a device. *)
Inductive device_call : Type :=
| call_start (af : active_flag_t)
| call_stop (af : active_flag_t)
| call_remove (af : active_flag_t)
| call_start_if (condition : FuzzyCondition) (af : active_flag_t)
| call_stop_if (condition : FuzzyCondition) (af : active_flag_t).

Definition apply_call (c : device_call) (sys : system) : outcome system :=
  match c with
  | call_start af => returns (start af sys)
  | call_stop af => returns (stop af sys)
  | call_remove af => returns (snd (remove af sys))
  | call_start_if condition af =>
      match start_if condition af sys with
      | returns (_, sys') => returns sys'
      | assert_failed => assert_failed
      end
  | call_stop_if condition af =>
      match stop_if condition af sys with
      | returns (_, sys') => returns sys'
      | assert_failed => assert_failed
      end
  end.

Fixpoint apply_calls (l : list device_call) (sys : system)
  : outcome system :=
  match l with
  | [] => returns sys
  | c :: l' =>
      match apply_call c sys with
      | returns sys' => apply_calls l' sys'
      | assert_failed => assert_failed
      end
  end.

(** The directions of the device that [m_active] counts: active and not
    inferior. *)
Definition counts (af : active_flag_t) (f : FileDescriptorFlags) : Z :=
  if is_active af f && negb (test_inferior af f) then 1 else 0.

Definition counted (f : FileDescriptorFlags) : Z :=
  counts FDS_R_ACTIVE f + counts FDS_W_ACTIVE f.

Lemma counted_put_active (af : active_flag_t) (v : bool)
    (f : FileDescriptorFlags) :
  counted (put_active af v f) =
  counted f - counts af f + (if v && negb (test_inferior af f) then 1 else 0).
Proof.
  destruct f as [ro wo ra wa rd wd rdis wdis ri wi reg same dead].
  unfold counted, counts.
  destruct af, ra, wa, ri, wi, v; reflexivity.
Qed.

Lemma counted_put_added (af : active_flag_t) (v : bool)
    (f : FileDescriptorFlags) :
  counted (put_added af v f) = counted f.
Proof. destruct af; reflexivity. Qed.

Lemma test_inferior_put_active (af af' : active_flag_t) (v : bool)
    (f : FileDescriptorFlags) :
  test_inferior af (put_active af' v f) = test_inferior af f.
Proof. destruct af, af'; reflexivity. Qed.

Lemma test_inferior_put_added (af af' : active_flag_t) (v : bool)
    (f : FileDescriptorFlags) :
  test_inferior af (put_added af' v f) = test_inferior af f.
Proof. destruct af, af'; reflexivity. Qed.

Lemma is_regular_file_put_active (af : active_flag_t) (v : bool)
    (f : FileDescriptorFlags) :
  is_regular_file (put_active af v f) = is_regular_file f.
Proof. destruct af; reflexivity. Qed.

Lemma is_active_put_added (af af' : active_flag_t) (v : bool)
    (f : FileDescriptorFlags) :
  is_active af (put_added af' v f) = is_active af f.
Proof. destruct af, af'; reflexivity. Qed.

(** What is left of [m_active] when the directions it counts are taken
    off. *)
Definition surplus (sys : system) : Z :=
  m_active (loop sys) - counted (m_flags sys).

Lemma surplus_emit (e : effect) (sys : system) :
  surplus (emit e sys) = surplus sys.
Proof. reflexivity. Qed.

Lemma surplus_bump_terminate (sys : system) :
  surplus (bump_terminate sys) = surplus sys.
Proof. unfold bump_terminate. destruct (m_terminate (loop sys)); reflexivity. Qed.

Lemma surplus_decrement_active (sys : system) :
  surplus (decrement_active sys) = surplus sys - 1.
Proof.
  unfold decrement_active.
  destruct (m_active (loop (add_active (-1) sys)) =? 0);
    rewrite ?surplus_bump_terminate; unfold surplus; simpl; lia.
Qed.

Lemma surplus_start (af : active_flag_t) (sys : system) :
  surplus (start af sys) = surplus sys.
Proof.
  unfold start, test_and_set_active, test_and_set_added, set_active.
  destruct (test_disabled af (m_flags sys)); [reflexivity|].
  destruct (is_active af (m_flags sys)) eqn:Ea; simpl.
  - unfold surplus. simpl. rewrite counted_put_active.
    unfold counts. rewrite Ea. simpl. lia.
  - rewrite test_inferior_put_added, test_inferior_put_active.
    assert (Hc : counted (put_added af true (put_active af true (m_flags sys)))
                 = counted (m_flags sys)
                   + (if negb (test_inferior af (m_flags sys))
                      then 1 else 0)).
    { rewrite counted_put_added, counted_put_active. unfold counts.
      rewrite Ea. simpl. lia. }
    destruct (negb (test_inferior af (m_flags sys)));
      destruct (negb (is_added_for af _));
      destruct (negb (is_regular_file _));
      rewrite ?surplus_emit; unfold surplus; simpl; rewrite Hc; lia.
Qed.

Lemma surplus_stop (af : active_flag_t) (sys : system) :
  surplus (stop af sys) = surplus sys.
Proof.
  unfold stop, test_and_clear_active, clear_active.
  assert (Hc : counted (put_active af false (m_flags sys))
               = counted (m_flags sys) - counts af (m_flags sys))
    by (rewrite counted_put_active; simpl; lia).
  unfold counts in Hc.
  rewrite test_inferior_put_active.
  destruct (is_active af (m_flags sys)) eqn:Ea; simpl.
  - destruct (negb (test_inferior af (m_flags sys))) eqn:Ei;
      destruct (negb (is_regular_file _));
      rewrite ?surplus_decrement_active, ?surplus_emit;
      unfold surplus; simpl; rewrite Hc; simpl; lia.
  - unfold surplus. simpl. rewrite Hc. simpl. lia.
Qed.

Lemma surplus_remove (af : active_flag_t) (sys : system) :
  surplus (snd (remove af sys)) = surplus sys.
Proof.
  unfold remove, test_and_clear_added, test_and_clear_active, clear_active.
  rewrite is_active_put_added, test_inferior_put_active,
    test_inferior_put_added.
  assert (Hc : counted (put_active af false
                          (put_added af false (m_flags sys)))
               = counted (m_flags sys) - counts af (m_flags sys)).
  { rewrite counted_put_active, counted_put_added. unfold counts.
    rewrite is_active_put_added, test_inferior_put_added. simpl. lia. }
  unfold counts in Hc.
  destruct (is_active af (m_flags sys)) eqn:Ea;
    destruct (negb (test_inferior af (m_flags sys))) eqn:Ei;
    destruct (is_added_for af (m_flags sys)
              && negb (is_added (put_added af false (m_flags sys))));
    destruct (negb (is_regular_file _));
    simpl;
    rewrite ?surplus_decrement_active, ?surplus_emit;
    unfold surplus; simpl; rewrite Hc; simpl; lia.
Qed.

Lemma surplus_start_if (condition : FuzzyCondition) (af : active_flag_t)
    (sys sys' : system) (b : bool) :
  start_if condition af sys = returns (b, sys') -> surplus sys' = surplus sys.
Proof.
  unfold start_if, test_and_set_active, test_and_set_added, set_active,
    clear_active.
  destruct (is_false (cached condition)); [intros H; congruence|].
  destruct (test_disabled af (m_flags sys)); [intros H; congruence|].
  destruct (is_transitory_false (cached condition)); [discriminate|].
  destruct (is_active af (m_flags sys)) eqn:Ea; simpl.
  - intros H. injection H as _ <-. unfold surplus. simpl.
    rewrite counted_put_active. unfold counts. rewrite Ea. simpl. lia.
  - destruct (is_transitory_true (cached condition)
              && is_momentary_false (recomputed condition)).
    + intros H. injection H as _ <-. unfold surplus. simpl.
      rewrite put_active_twice, counted_put_active. unfold counts.
      rewrite Ea. simpl. lia.
    + rewrite test_inferior_put_added, test_inferior_put_active.
      assert (Hc : counted (put_added af true
                              (put_active af true (m_flags sys)))
                   = counted (m_flags sys)
                     + (if negb (test_inferior af (m_flags sys))
                        then 1 else 0)).
      { rewrite counted_put_added, counted_put_active. unfold counts.
        rewrite Ea. simpl. lia. }
      destruct (negb (test_inferior af (m_flags sys)));
        destruct (negb (is_added_for af _));
        destruct (negb (is_regular_file _));
        intros H; injection H as _ <-;
        rewrite ?surplus_emit; unfold surplus; simpl; rewrite Hc; lia.
Qed.

Lemma surplus_stop_if (condition : FuzzyCondition) (af : active_flag_t)
    (sys sys' : system) (b : bool) :
  stop_if condition af sys = returns (b, sys') -> surplus sys' = surplus sys.
Proof.
  intros H.
  destruct b; [|apply stop_if_false_unchanged in H; congruence].
  revert H.
  unfold stop_if, test_and_clear_active, set_active, clear_active.
  destruct (is_false (cached condition)); [discriminate|].
  destruct (is_transitory_false (cached condition)); [discriminate|].
  assert (Hc : counted (put_active af false (m_flags sys))
               = counted (m_flags sys) - counts af (m_flags sys))
    by (rewrite counted_put_active; simpl; lia).
  unfold counts in Hc.
  rewrite test_inferior_put_active.
  destruct (is_active af (m_flags sys)) eqn:Ea; simpl.
  - destruct (is_transitory_true (cached condition)
              && is_momentary_false (recomputed condition));
      [discriminate|].
    rewrite is_regular_file_put_active.
    destruct (negb (test_inferior af (m_flags sys))) eqn:Ei;
      destruct (negb (is_regular_file (m_flags sys)));
      intros H; injection H as <-;
      try match goal with
          | |- context [Z.eqb ?a ?b] => destruct (Z.eqb a b)
          end;
      rewrite ?surplus_bump_terminate;
      unfold surplus; simpl; rewrite Hc; simpl; lia.
  - intros H. injection H as <-. unfold surplus. simpl. rewrite Hc.
    simpl. lia.
Qed.

Lemma surplus_apply_call (c : device_call) (sys sys' : system) :
  apply_call c sys = returns sys' -> surplus sys' = surplus sys.
Proof.
  destruct c as [af | af | af | condition af | condition af]; simpl.
  - intros H. injection H as <-. apply surplus_start.
  - intros H. injection H as <-. apply surplus_stop.
  - intros H. injection H as <-. apply surplus_remove.
  - destruct (start_if condition af sys) as [[b s]|] eqn:E; [|discriminate].
    intros H. injection H as <-. exact (surplus_start_if _ _ _ _ _ E).
  - destruct (stop_if condition af sys) as [[b s]|] eqn:E; [|discriminate].
    intros H. injection H as <-. exact (surplus_stop_if _ _ _ _ _ E).
Qed.

(** [m_active] follows the active flags.  Whatever calls of [start],
    [stop], [remove], [start_if] and [stop_if] are made on a device,
    [m_active] changes by exactly the change in the number of its
    directions that are active and not inferior; so a loop whose
    [m_active] counts those directions before the calls counts them
    after. *)
Theorem m_active_counts_active_directions :
  forall (l : list device_call) (sys sys' : system),
    apply_calls l sys = returns sys' ->
    m_active (loop sys') - counted (m_flags sys') =
      m_active (loop sys) - counted (m_flags sys) /\
    (m_active (loop sys) = counted (m_flags sys) ->
     m_active (loop sys') = counted (m_flags sys') /\
     (m_active (loop sys') = 0 <->
      counts FDS_R_ACTIVE (m_flags sys') = 0 /\
      counts FDS_W_ACTIVE (m_flags sys') = 0)).
Proof.
  intros l sys sys' Hrun.
  assert (Hs : surplus sys' = surplus sys).
  { revert sys Hrun. induction l as [|c l IH]; intros sys Hrun; simpl in Hrun.
    - injection Hrun as <-. reflexivity.
    - destruct (apply_call c sys) as [sys1|] eqn:Ec; [|discriminate].
      rewrite (IH _ Hrun). exact (surplus_apply_call _ _ _ Ec). }
  unfold surplus in Hs. split; [exact Hs|].
  intros H0. split; [lia|].
  assert (Hr : 0 <= counts FDS_R_ACTIVE (m_flags sys') <= 1)
    by (unfold counts; destruct (_ && _); lia).
  assert (Hw : 0 <= counts FDS_W_ACTIVE (m_flags sys') <= 1)
    by (unfold counts; destruct (_ && _); lia).
  unfold counted in *. lia.
Qed.

Definition sample_calls : list device_call :=
  [call_start FDS_R_ACTIVE; call_start FDS_R_ACTIVE;
   call_start_if (mkFuzzyCondition fuzzy_WasTrue fuzzy_False) FDS_W_ACTIVE;
   call_stop_if (mkFuzzyCondition fuzzy_True fuzzy_True) FDS_R_ACTIVE;
   call_start FDS_W_ACTIVE; call_remove FDS_W_ACTIVE].

Lemma m_active_counts_active_directions_witness :
  exists sys',
    apply_calls sample_calls idle_system = returns sys' /\
    m_active (loop sys') = counted (m_flags sys').
Proof.
  destruct (apply_calls sample_calls idle_system) as [sys'|] eqn:E.
  - exists sys'. split; [reflexivity|].
    apply (m_active_counts_active_directions _ _ _ E). reflexivity.
  - vm_compute in E. discriminate E.
Defined.

(** ** The last stop under a pending termination *)













(** ** Starting and stopping twice *)

Lemma with_flags_put_active_same (af : active_flag_t) (sys : system) :
  with_flags (put_active af (is_active af (m_flags sys)) (m_flags sys)) sys
  = sys.
Proof. rewrite put_active_same. apply with_flags_same. Qed.

Lemma is_active_start (af : active_flag_t) (sys : system) :
  test_disabled af (m_flags sys) = false ->
  is_active af (m_flags (start af sys)) = true.
Proof.
  intros Hd. unfold start, test_and_set_active, test_and_set_added,
    set_active.
  rewrite Hd.
  destruct (is_active af (m_flags sys)) eqn:Ea; simpl.
  - apply is_active_put.
  - assert (H : is_active af (put_added af true
                                (put_active af true (m_flags sys))) = true)
      by (rewrite is_active_put_added; apply is_active_put).
    destruct (negb (test_inferior af _));
      destruct (negb (is_added_for af _));
      destruct (negb (is_regular_file _)); exact H.
Qed.

Lemma test_disabled_start (af : active_flag_t) (sys : system) :
  test_disabled af (m_flags (start af sys)) = test_disabled af (m_flags sys).
Proof.
  unfold start, test_and_set_active, test_and_set_added, set_active.
  destruct (test_disabled af (m_flags sys)) eqn:Hd; [exact Hd|].
  assert (H1 : test_disabled af (put_active af true (m_flags sys)) = false)
    by (destruct af; exact Hd).
  assert (H2 : test_disabled af (put_added af true
                                   (put_active af true (m_flags sys)))
               = false)
    by (destruct af; exact Hd).
  destruct (is_active af (m_flags sys)); simpl; [exact H1|].
  destruct (negb (test_inferior af _));
    destruct (negb (is_added_for af _));
    destruct (negb (is_regular_file _)); exact H2.
Qed.

Lemma is_active_stop (af : active_flag_t) (sys : system) :
  is_active af (m_flags (stop af sys)) = false.
Proof.
  unfold stop, test_and_clear_active, clear_active.
  assert (H : is_active af (put_active af false (m_flags sys)) = false)
    by apply is_active_put.
  destruct (is_active af (m_flags sys)); simpl; [|exact H].
  unfold decrement_active.
  destruct (negb (test_inferior af _));
    destruct (negb (is_regular_file _)); simpl;
    try match goal with
        | |- context [Z.eqb ?a ?b] => destruct (Z.eqb a b)
        end;
    unfold bump_terminate; simpl;
    try match goal with
        | |- context [match ?t with not_yet => _ | _ => _ end] => destruct t
        end;
    exact H.
Qed.

(** Starting a started direction, and stopping a stopped one, does
    nothing: [start] after [start] and [stop] after [stop] leave the
    flags, [m_active] and the calls made as the first call left them.
    After [start] the direction is active unless it is disabled, and
    after [stop] it is not active. *)
Theorem start_and_stop_are_idempotent :
  forall (af : active_flag_t) (sys : system),
    start af (start af sys) = start af sys /\
    stop af (stop af sys) = stop af sys /\
    is_active af (m_flags (stop af sys)) = false /\
    is_active af (m_flags (start af sys))
      = (negb (test_disabled af (m_flags sys))
         || is_active af (m_flags sys)).
Proof.
  intros af sys.
  assert (Hstart : start af (start af sys) = start af sys).
  { destruct (test_disabled af (m_flags sys)) eqn:Hd.
    - unfold start at 2. rewrite Hd. unfold start. rewrite Hd. reflexivity.
    - pose proof (is_active_start af sys Hd) as Ha.
      pose proof (test_disabled_start af sys) as Hd'. rewrite Hd in Hd'.
      unfold start at 1. rewrite Hd'.
      unfold test_and_set_active, set_active. rewrite Ha. simpl.
      rewrite <- Ha at 1. apply with_flags_put_active_same. }
  assert (Hstop : stop af (stop af sys) = stop af sys).
  { pose proof (is_active_stop af sys) as Ha.
    unfold stop at 1. unfold test_and_clear_active, clear_active.
    rewrite Ha. simpl. rewrite <- Ha at 1.
    apply with_flags_put_active_same. }
  split; [exact Hstart|]. split; [exact Hstop|].
  split; [apply is_active_stop|].
  destruct (test_disabled af (m_flags sys)) eqn:Hd; simpl.
  - unfold start. rewrite Hd. reflexivity.
  - apply is_active_start. exact Hd.
Qed.

(** ** What a closure gives back *)

(** The mask after a worker has made all the calls of a closure. *)
Definition complete (c : list call) (bp : Z) : Z :=
  fold_left (fun b x => perform x b) c bp.

Lemma land_pow2 (e k : Z) :
  0 <= k -> Z.land e (2 ^ k) = if Z.testbit e k then 2 ^ k else 0.
Proof.
  intros Hk. apply Z.bits_inj'. intros n Hn.
  rewrite Z.land_spec, Z.pow2_bits_eqb by lia.
  destruct (Z.testbit e k) eqn:E.
  - rewrite Z.pow2_bits_eqb by lia.
    destruct (Z.eqb_spec k n) as [->|Hne].
    + rewrite E. reflexivity.
    + apply andb_false_r.
  - rewrite Z.bits_0. destruct (Z.eqb_spec k n) as [->|Hne].
    + rewrite E. reflexivity.
    + apply andb_false_r.
Qed.

Lemma only_in_out (events : Z) :
  Z.land events (Z.lnot (Z.lor EPOLLIN EPOLLOUT)) = 0 ->
  events = 0 \/ events = EPOLLIN \/ events = EPOLLOUT \/
  events = Z.lor EPOLLIN EPOLLOUT.
Proof.
  intros H.
  assert (He : events = Z.land events (Z.lor EPOLLIN EPOLLOUT)).
  { rewrite <- (Z.land_m1_r events) at 1.
    rewrite <- (Z.lor_lnot_diag (Z.lor EPOLLIN EPOLLOUT)).
    rewrite Z.land_lor_distr_r, H, Z.lor_0_r. reflexivity. }
  rewrite Z.land_lor_distr_r in He.
  change EPOLLIN with (2 ^ 0) in He. change EPOLLOUT with (2 ^ 2) in He.
  rewrite !land_pow2 in He by lia.
  destruct (Z.testbit events 0), (Z.testbit events 2); rewrite He; auto.
Qed.

Lemma clear_after_set (bp e : Z) :
  Z.land e bp = 0 -> Z.land (Z.lor bp e) (Z.lnot e) = bp.
Proof.
  intros H. apply Z.bits_inj'. intros n Hn.
  assert (Hb : Z.testbit e n && Z.testbit bp n = false)
    by (rewrite <- Z.land_spec, H; apply Z.bits_0).
  rewrite Z.land_spec, Z.lor_spec, Z.lnot_spec by lia.
  destruct (Z.testbit e n), (Z.testbit bp n); try reflexivity;
    discriminate.
Qed.

(** A closure gives back what the dispatch took.  When an event of
    read or write readiness, of hang-up alone or of error alone is
    dispatched while none of its bits is being processed, one closure
    is queued; it never reaches [DoutFatal], its last call is
    [allow_deletion], and once a worker has made all its calls
    [being_processed_by_pool] is what it was before the dispatch, so
    the next event of that kind is dispatched again. *)
Theorem closure_gives_back_what_dispatch_took :
  forall (events : Z) (s : pool),
    events <> 0 ->
    Z.land events (being_processed s) = 0 ->
    Z.land events (Z.lnot (Z.lor EPOLLIN EPOLLOUT)) = 0 \/
    events = EPOLLHUP \/ events = EPOLLERR ->
    in_flight (dispatch events s) = in_flight s ++ [closure events] /\
    ~ In DoutFatal (closure events) /\
    (exists before, closure events = before ++ [allow_deletion]) /\
    complete (closure events) (being_processed (dispatch events s))
      = being_processed s.
Proof.
  intros events s Hne Hfresh Hkind.
  assert (Hd : dispatch events s =
               mkPool (Z.lor (being_processed s) events)
                 (in_flight s ++ [closure events])).
  { unfold dispatch, test_and_set_being_processed_by_thread_pool.
    assert (He : Z.land events (Z.lnot (being_processed s)) = events).
    { rewrite <- Z.sub_land_same_l, Hfresh. lia. }
    rewrite He. apply Z.eqb_neq in Hne. rewrite Hne. reflexivity. }
  rewrite Hd. simpl. split; [reflexivity|].
  assert (Hcases : events = EPOLLIN \/ events = EPOLLOUT \/
                   events = Z.lor EPOLLIN EPOLLOUT \/
                   events = EPOLLHUP \/ events = EPOLLERR).
  { destruct Hkind as [H | [H | H]]; [|auto|auto].
    destruct (only_in_out _ H) as [H0 | [H1 | [H2 | H3]]];
      [contradiction|auto|auto|auto]. }
  destruct Hcases as [-> | [-> | [-> | [-> | ->]]]].
  - split; [simpl; intuition discriminate|].
    split; [exists [read_event; clear_being_processed_by_thread_pool EPOLLIN];
            reflexivity|].
    apply (clear_after_set _ EPOLLIN Hfresh).
  - split; [simpl; intuition discriminate|].
    split; [exists [write_event;
                    clear_being_processed_by_thread_pool EPOLLOUT];
            reflexivity|].
    apply (clear_after_set _ EPOLLOUT Hfresh).
  - split; [simpl; intuition discriminate|].
    split; [exists [read_event; clear_being_processed_by_thread_pool EPOLLIN;
                    write_event;
                    clear_being_processed_by_thread_pool EPOLLOUT];
            reflexivity|].
    change (complete (closure (Z.lor EPOLLIN EPOLLOUT))
              (Z.lor (being_processed s) (Z.lor EPOLLIN EPOLLOUT)))
      with (Z.land
              (Z.land (Z.lor (being_processed s) (Z.lor EPOLLIN EPOLLOUT))
                 (Z.lnot EPOLLIN)) (Z.lnot EPOLLOUT)).
    rewrite <- Z.land_assoc, <- Z.lnot_lor.
    apply (clear_after_set _ _ Hfresh).
  - split; [simpl; intuition discriminate|].
    split; [exists [hup_event; device_close;
                    clear_being_processed_by_thread_pool EPOLLHUP];
            reflexivity|].
    apply (clear_after_set _ EPOLLHUP Hfresh).
  - split; [simpl; intuition discriminate|].
    split; [exists [exceptional_event;
                    clear_being_processed_by_thread_pool EPOLLERR];
            reflexivity|].
    apply (clear_after_set _ EPOLLERR Hfresh).
Qed.

Lemma closure_gives_back_what_dispatch_took_witness :
  complete (closure (Z.lor EPOLLIN EPOLLOUT))
    (being_processed
       (dispatch (Z.lor EPOLLIN EPOLLOUT) (mkPool EPOLLHUP [])))
  = EPOLLHUP.
Proof.
  apply (closure_gives_back_what_dispatch_took (Z.lor EPOLLIN EPOLLOUT)
           (mkPool EPOLLHUP [])).
  - discriminate.
  - reflexivity.
  - left. reflexivity.
Defined.

(** ** The list of devices that need deletion *)

(** [m_needs_deletion_list], the [m_next] of every
    [FileDescriptorBase], and the objects deleted so far, in order.
    Pointers are addresses; the null pointer is 0. *)
Record needs_deletion : Type := mkNeedsDeletion {
  m_needs_deletion_list : Z;
  m_next : Z -> Z;
  deleted : list Z
}.

(** [EventLoopThread::add_needs_deletion] when no other thread changes
    the head between the load and the compare-exchange, which then
    succeeds on its first pass. *)
Definition add_needs_deletion (node : Z) (s : needs_deletion)
  : needs_deletion :=
  let head := m_needs_deletion_list s in
  let next := fun p => if p =? node then head else m_next s p in
  mkNeedsDeletion node next (deleted s).

(** The [while (head)] loop of [flush_need_deletion]. *)
Fixpoint flush_loop (fuel : nat) (head : Z) (next : Z -> Z)
    (deleted : list Z) : option (list Z) :=
  match fuel with
  | O => None
  | S fuel' =>
      if head =? 0 then Some deleted
      else
        let orphan := head in
        flush_loop fuel' (next orphan) next (deleted ++ [orphan])
  end.

(** [EventLoopThread::flush_need_deletion]. *)
Definition flush_need_deletion (fuel : nat) (s : needs_deletion)
  : option needs_deletion :=
  match flush_loop fuel (m_needs_deletion_list s) (m_next s) (deleted s) with
  | Some d => Some (mkNeedsDeletion 0 (m_next s) d)
  | None => None
  end.

Definition add_all (nodes : list Z) (s : needs_deletion) : needs_deletion :=
  fold_left (fun s node => add_needs_deletion node s) nodes s.

(** The nodes of the list from [head], when [l] lists them. *)
Fixpoint linked (next : Z -> Z) (head : Z) (l : list Z) : Prop :=
  match l with
  | [] => head = 0
  | x :: l' => head = x /\ x <> 0 /\ linked next (next x) l'
  end.

Lemma linked_ext (next next' : Z -> Z) (l : list Z) :
  forall head,
    (forall x, In x l -> next' x = next x) ->
    linked next head l -> linked next' head l.
Proof.
  induction l as [|x l IH]; intros head Hext H; simpl in *; [exact H|].
  destruct H as (-> & Hx & H). split; [reflexivity|]. split; [exact Hx|].
  rewrite Hext by auto. apply IH; [|exact H].
  intros y Hy. apply Hext. auto.
Qed.

Lemma linked_add (node : Z) (s : needs_deletion) (l : list Z) :
  node <> 0 -> ~ In node l ->
  linked (m_next s) (m_needs_deletion_list s) l ->
  linked (m_next (add_needs_deletion node s))
    (m_needs_deletion_list (add_needs_deletion node s)) (node :: l).
Proof.
  intros Hnode Hnew H. simpl. split; [reflexivity|]. split; [exact Hnode|].
  rewrite Z.eqb_refl.
  apply linked_ext with (2 := H). intros x Hx.
  destruct (Z.eqb_spec x node) as [->|Hne]; [contradiction | reflexivity].
Qed.

Lemma linked_add_all (nodes : list Z) :
  forall (s : needs_deletion) (l : list Z),
    NoDup (nodes ++ l) -> ~ In 0 nodes ->
    linked (m_next s) (m_needs_deletion_list s) l ->
    linked (m_next (add_all nodes s))
      (m_needs_deletion_list (add_all nodes s)) (rev nodes ++ l) /\
    deleted (add_all nodes s) = deleted s.
Proof.
  induction nodes as [|n nodes IH]; intros s l Hnd H0 H; [auto|].
  simpl in Hnd. apply NoDup_cons_iff in Hnd. destruct Hnd as [Hn Hnd].
  unfold add_all. simpl. fold (add_all nodes (add_needs_deletion n s)).
  rewrite <- app_assoc. simpl.
  assert (Hnd' : NoDup (nodes ++ n :: l)).
  { apply NoDup_Add with (a := n) (l := nodes ++ l);
      [apply Add_app | constructor; assumption]. }
  destruct (IH (add_needs_deletion n s) (n :: l) Hnd') as [Hl Hd].
  - intros Hin. apply H0. right. exact Hin.
  - apply linked_add; [|
      intros Hin; apply Hn; apply in_or_app; right; exact Hin | exact H].
    intros ->. apply H0. left. reflexivity.
  - split; [exact Hl | exact Hd].
Qed.

Lemma flush_loop_linked (next : Z -> Z) (l : list Z) :
  forall (fuel : nat) (head : Z) (d : list Z),
    linked next head l -> (length l < fuel)%nat ->
    flush_loop fuel head next d = Some (d ++ l).
Proof.
  induction l as [|x l IH]; intros fuel head d H Hfuel;
    (destruct fuel as [|fuel]; [simpl in Hfuel; lia|]); simpl in *.
  - rewrite H. simpl. rewrite app_nil_r. reflexivity.
  - destruct H as (-> & Hx & H). apply Z.eqb_neq in Hx. rewrite Hx.
    rewrite (IH fuel (next x) (d ++ [x]) H) by lia.
    rewrite <- app_assoc. reflexivity.
Qed.

(** Every orphan is deleted once, newest first.  When distinct devices
    are added to an empty list, [flush_need_deletion] ends, deletes
    each of them exactly once, in the reverse of the order in which
    they were added, and leaves the list empty. *)
Theorem flush_deletes_each_orphan_once :
  forall (nodes : list Z) (s : needs_deletion) (fuel : nat),
    m_needs_deletion_list s = 0 ->
    NoDup nodes -> ~ In 0 nodes ->
    (length nodes < fuel)%nat ->
    exists s',
      flush_need_deletion fuel (add_all nodes s) = Some s' /\
      deleted s' = deleted s ++ rev nodes /\
      m_needs_deletion_list s' = 0 /\
      flush_need_deletion fuel s' = Some s'.
Proof.
  intros nodes s fuel Hempty Hnd H0 Hfuel.
  destruct (linked_add_all nodes s []) as [Hl Hd].
  - rewrite app_nil_r. exact Hnd.
  - exact H0.
  - exact Hempty.
  - rewrite app_nil_r in Hl. unfold flush_need_deletion.
    rewrite (flush_loop_linked _ (rev nodes) fuel _ _ Hl)
      by (rewrite length_rev; exact Hfuel).
    eexists. split; [reflexivity|]. simpl. rewrite Hd.
    split; [reflexivity|]. split; [reflexivity|].
    destruct fuel as [|fuel]; [lia|]. reflexivity.
Qed.

Lemma flush_deletes_each_orphan_once_witness :
  exists s',
    flush_need_deletion 4
      (add_all [11; 22; 33] (mkNeedsDeletion 0 (fun _ => 0) [])) = Some s' /\
    deleted s' = [33; 22; 11].
Proof.
  destruct (flush_deletes_each_orphan_once [11; 22; 33]
              (mkNeedsDeletion 0 (fun _ => 0) []) 4)
    as (s' & Hflush & Hdeleted & _).
  - reflexivity.
  - repeat constructor; simpl; intuition discriminate.
  - simpl. intuition discriminate.
  - simpl. lia.
  - exists s'. split; [exact Hflush | exact Hdeleted].
Defined.

End EventLoop.

(* ================================================================== *)
(** * StreamBuf *)

Module Buf.

(** The sources hold StreamBuf.cxx in the revision whose transfer
    variables are [m_next_egptr] and [m_next_egptr2] ([nullptr] in
    [m_next_egptr] is the reset signal), and StreamBuf.h in a later
    revision ([m_last_pptr], [m_resetting]).  The embedding follows
    StreamBuf.cxx: [m_next_egptr] is the published put pointer that the
    specification calls [last_pptr].

    Pointers, [std::streamsize] counters and lengths are integers of
    [Z]: overflowing them is undefined in the source.  [size_t]
    arithmetic wraps and is reduced modulo 2^64 where the code computes
    in [size_t].  [pbump], [setp_pbump] and [gbump] take an [int]: what
    they are called with is converted to 32 bits.  Memory is a function
    from addresses to bytes. *)

Definition nullptr : Z := 0.
Definition EOF : Z := -1.

(** Conversion to [size_t]. *)
Definition to_size_t (z : Z) : Z := z mod 2 ^ 64.

(** Conversion to [int], of a [std::streamsize] or a [ptrdiff_t] that
    is passed where an [int] is taken. *)
Definition to_int (z : Z) : Z := (z + 2 ^ 31) mod 2 ^ 32 - 2 ^ 31.
Arguments to_int : simpl never.

(** Conversion of an [int_type] to [char]. *)
Definition to_char (c : Z) : ascii := ascii_of_N (Z.to_N (c mod 256)).

(** A [MemoryBlock*]: the address of the object that heads the
    allocation, and its [m_block_size].  [m_next] is kept by the chain
    the block stands in. *)
Record MemoryBlock : Type := mkMemoryBlock {
  block_addr : Z;
  m_block_size : Z
}.

Definition get_size (b : MemoryBlock) : Z := m_block_size b.

(** A [StreamBuf].  The singly linked list of blocks from
    [m_get_area_block_node] on is the list [m_next_chain]: the [m_next]
    of a block is the block after it in the list, [nullptr] at its end,
    and [m_put_area_block_node] is the last block of the list. *)
Record StreamBuf : Type := mkStreamBuf {
  mem : Z -> ascii;   (* bytes of the address space *)
  eback : Z;   (* std::streambuf get area *)
  gptr : Z;
  egptr : Z;
  pbase : Z;   (* std::streambuf put area *)
  pptr : Z;
  epptr : Z;
  m_next_egptr : Z;   (* StreamBufCommon *)
  m_next_egptr2 : Z;
  m_last_gptr : Z;
  m_total_freed : Z;
  m_total_read : Z;
  m_buffer_was_full : bool;
  m_minimum_block_size : Z;   (* StreamBufProducer *)
  m_buffer_full_watermark : Z;
  m_max_allocated_block_size : Z;
  m_total_allocated : Z;
  m_total_reset : Z;
  m_get_area_block_node : MemoryBlock;   (* StreamBufConsumer *)
  m_next_chain : list MemoryBlock   (* the blocks after it, through m_next *)
}.

Definition set_mem (v : Z -> ascii) (sb : StreamBuf) : StreamBuf :=
  mkStreamBuf v (eback sb) (gptr sb) (egptr sb) (pbase sb) (pptr sb)
    (epptr sb) (m_next_egptr sb) (m_next_egptr2 sb) (m_last_gptr sb)
    (m_total_freed sb) (m_total_read sb) (m_buffer_was_full sb)
    (m_minimum_block_size sb)
    (m_buffer_full_watermark sb) (m_max_allocated_block_size sb)
    (m_total_allocated sb) (m_total_reset sb) (m_get_area_block_node sb)
    (m_next_chain sb).

Definition set_gptr (v : Z) (sb : StreamBuf) : StreamBuf :=
  mkStreamBuf (mem sb) (eback sb) v (egptr sb) (pbase sb) (pptr sb)
    (epptr sb) (m_next_egptr sb) (m_next_egptr2 sb) (m_last_gptr sb)
    (m_total_freed sb) (m_total_read sb) (m_buffer_was_full sb)
    (m_minimum_block_size sb)
    (m_buffer_full_watermark sb) (m_max_allocated_block_size sb)
    (m_total_allocated sb) (m_total_reset sb) (m_get_area_block_node sb)
    (m_next_chain sb).

Definition set_pptr (v : Z) (sb : StreamBuf) : StreamBuf :=
  mkStreamBuf (mem sb) (eback sb) (gptr sb) (egptr sb) (pbase sb) v
    (epptr sb) (m_next_egptr sb) (m_next_egptr2 sb) (m_last_gptr sb)
    (m_total_freed sb) (m_total_read sb) (m_buffer_was_full sb)
    (m_minimum_block_size sb)
    (m_buffer_full_watermark sb) (m_max_allocated_block_size sb)
    (m_total_allocated sb) (m_total_reset sb) (m_get_area_block_node sb)
    (m_next_chain sb).

Definition set_m_next_egptr (v : Z) (sb : StreamBuf) : StreamBuf :=
  mkStreamBuf (mem sb) (eback sb) (gptr sb) (egptr sb) (pbase sb) (pptr sb)
    (epptr sb) v (m_next_egptr2 sb) (m_last_gptr sb) (m_total_freed sb)
    (m_total_read sb) (m_buffer_was_full sb)
    (m_minimum_block_size sb) (m_buffer_full_watermark sb)
    (m_max_allocated_block_size sb) (m_total_allocated sb)
    (m_total_reset sb) (m_get_area_block_node sb) (m_next_chain sb).

Definition set_m_next_egptr2 (v : Z) (sb : StreamBuf) : StreamBuf :=
  mkStreamBuf (mem sb) (eback sb) (gptr sb) (egptr sb) (pbase sb) (pptr sb)
    (epptr sb) (m_next_egptr sb) v (m_last_gptr sb) (m_total_freed sb)
    (m_total_read sb) (m_buffer_was_full sb)
    (m_minimum_block_size sb) (m_buffer_full_watermark sb)
    (m_max_allocated_block_size sb) (m_total_allocated sb)
    (m_total_reset sb) (m_get_area_block_node sb) (m_next_chain sb).

Definition set_m_last_gptr (v : Z) (sb : StreamBuf) : StreamBuf :=
  mkStreamBuf (mem sb) (eback sb) (gptr sb) (egptr sb) (pbase sb) (pptr sb)
    (epptr sb) (m_next_egptr sb) (m_next_egptr2 sb) v (m_total_freed sb)
    (m_total_read sb) (m_buffer_was_full sb)
    (m_minimum_block_size sb) (m_buffer_full_watermark sb)
    (m_max_allocated_block_size sb) (m_total_allocated sb)
    (m_total_reset sb) (m_get_area_block_node sb) (m_next_chain sb).

Definition set_m_total_freed (v : Z) (sb : StreamBuf) : StreamBuf :=
  mkStreamBuf (mem sb) (eback sb) (gptr sb) (egptr sb) (pbase sb) (pptr sb)
    (epptr sb) (m_next_egptr sb) (m_next_egptr2 sb) (m_last_gptr sb) v
    (m_total_read sb) (m_buffer_was_full sb)
    (m_minimum_block_size sb) (m_buffer_full_watermark sb)
    (m_max_allocated_block_size sb) (m_total_allocated sb)
    (m_total_reset sb) (m_get_area_block_node sb) (m_next_chain sb).

Definition set_m_total_read (v : Z) (sb : StreamBuf) : StreamBuf :=
  mkStreamBuf (mem sb) (eback sb) (gptr sb) (egptr sb) (pbase sb) (pptr sb)
    (epptr sb) (m_next_egptr sb) (m_next_egptr2 sb) (m_last_gptr sb)
    (m_total_freed sb) v (m_buffer_was_full sb)
    (m_minimum_block_size sb)
    (m_buffer_full_watermark sb) (m_max_allocated_block_size sb)
    (m_total_allocated sb) (m_total_reset sb) (m_get_area_block_node sb)
    (m_next_chain sb).

Definition set_m_buffer_was_full (v : bool) (sb : StreamBuf) : StreamBuf :=
  mkStreamBuf (mem sb) (eback sb) (gptr sb) (egptr sb) (pbase sb) (pptr sb)
    (epptr sb) (m_next_egptr sb) (m_next_egptr2 sb) (m_last_gptr sb)
    (m_total_freed sb) (m_total_read sb) v (m_minimum_block_size sb)
    (m_buffer_full_watermark sb) (m_max_allocated_block_size sb)
    (m_total_allocated sb) (m_total_reset sb) (m_get_area_block_node sb)
    (m_next_chain sb).

Definition set_m_total_allocated (v : Z) (sb : StreamBuf) : StreamBuf :=
  mkStreamBuf (mem sb) (eback sb) (gptr sb) (egptr sb) (pbase sb) (pptr sb)
    (epptr sb) (m_next_egptr sb) (m_next_egptr2 sb) (m_last_gptr sb)
    (m_total_freed sb) (m_total_read sb) (m_buffer_was_full sb)
    (m_minimum_block_size sb)
    (m_buffer_full_watermark sb) (m_max_allocated_block_size sb) v
    (m_total_reset sb) (m_get_area_block_node sb) (m_next_chain sb).

Definition set_m_total_reset (v : Z) (sb : StreamBuf) : StreamBuf :=
  mkStreamBuf (mem sb) (eback sb) (gptr sb) (egptr sb) (pbase sb) (pptr sb)
    (epptr sb) (m_next_egptr sb) (m_next_egptr2 sb) (m_last_gptr sb)
    (m_total_freed sb) (m_total_read sb) (m_buffer_was_full sb)
    (m_minimum_block_size sb)
    (m_buffer_full_watermark sb) (m_max_allocated_block_size sb)
    (m_total_allocated sb) v (m_get_area_block_node sb) (m_next_chain sb).

Definition set_m_next_chain (v : list MemoryBlock) (sb : StreamBuf) : StreamBuf :=
  mkStreamBuf (mem sb) (eback sb) (gptr sb) (egptr sb) (pbase sb) (pptr sb)
    (epptr sb) (m_next_egptr sb) (m_next_egptr2 sb) (m_last_gptr sb)
    (m_total_freed sb) (m_total_read sb) (m_buffer_was_full sb)
    (m_minimum_block_size sb)
    (m_buffer_full_watermark sb) (m_max_allocated_block_size sb)
    (m_total_allocated sb) (m_total_reset sb) (m_get_area_block_node sb) v.

(** [std::streambuf::setp], [setg] and the switch of the get area to the
    next block. *)
Definition std_setp (p ep : Z) (sb : StreamBuf) : StreamBuf :=
  mkStreamBuf (mem sb) (eback sb) (gptr sb) (egptr sb) p p ep
    (m_next_egptr sb) (m_next_egptr2 sb) (m_last_gptr sb)
    (m_total_freed sb) (m_total_read sb) (m_buffer_was_full sb)
    (m_minimum_block_size sb)
    (m_buffer_full_watermark sb) (m_max_allocated_block_size sb)
    (m_total_allocated sb) (m_total_reset sb) (m_get_area_block_node sb)
    (m_next_chain sb).

Definition setg (eb g eg : Z) (sb : StreamBuf) : StreamBuf :=
  mkStreamBuf (mem sb) eb g eg (pbase sb) (pptr sb) (epptr sb)
    (m_next_egptr sb) (m_next_egptr2 sb) (m_last_gptr sb)
    (m_total_freed sb) (m_total_read sb) (m_buffer_was_full sb)
    (m_minimum_block_size sb)
    (m_buffer_full_watermark sb) (m_max_allocated_block_size sb)
    (m_total_allocated sb) (m_total_reset sb) (m_get_area_block_node sb)
    (m_next_chain sb).

Definition set_get_area_block_node (node : MemoryBlock)
    (next : list MemoryBlock) (sb : StreamBuf) : StreamBuf :=
  mkStreamBuf (mem sb) (eback sb) (gptr sb) (egptr sb) (pbase sb) (pptr sb)
    (epptr sb) (m_next_egptr sb) (m_next_egptr2 sb) (m_last_gptr sb)
    (m_total_freed sb) (m_total_read sb) (m_buffer_was_full sb)
    (m_minimum_block_size sb)
    (m_buffer_full_watermark sb) (m_max_allocated_block_size sb)
    (m_total_allocated sb) (m_total_reset sb) node next.

(** The blocks of the buffer, first to last. *)
Definition chain (sb : StreamBuf) : list MemoryBlock :=
  m_get_area_block_node sb :: m_next_chain sb.

Definition m_put_area_block_node (sb : StreamBuf) : MemoryBlock :=
  last (m_next_chain sb) (m_get_area_block_node sb).

(** A call returns, stops at a failed [ASSERT] or a fatal error, or the
    model runs out of the steps it was given. *)
Inductive result (A : Type) : Type :=
| Ok (a : A)
| Fatal
| OutOfFuel.
Arguments Ok {A} a.
Arguments Fatal {A}.
Arguments OutOfFuel {A}.

(** ** Memory *)

(** [std::memcpy(dst, src, len)] into the address space, [src] being the
    [len] bytes copied. *)
Definition memcpy_in (dst : Z) (src : list ascii) (m : Z -> ascii)
  : Z -> ascii :=
  fun a =>
    if (dst <=? a) && (a <? dst + Z.of_nat (length src))
    then nth (Z.to_nat (a - dst)) src zero
    else m a.

(** The [n] bytes at [p]. *)
Fixpoint read_bytes (m : Z -> ascii) (p : Z) (n : nat) : list ascii :=
  match n with
  | O => []
  | S n' => m p :: read_bytes m (p + 1) n'
  end.

(** [std::memcpy(s, src, len)] out of the address space: the bytes that
    arrive in [s]. *)
Definition memcpy_out (m : Z -> ascii) (src len : Z) : list ascii :=
  read_bytes m src (Z.to_nat len).

Section Model.

(** [sizeof(MemoryBlock)]; the address of the static
    [s_next_egptr_init]; [malloc_overhead_c], [utils::is_power_of_two],
    [utils::malloc_size] and [utils::max_malloc_size] (the headers of
    utils are not among the sources); and [malloc], which is given the
    blocks in use and the number of bytes wanted and returns the address
    of the allocation.  Allocation does not fail in the model. *)
Variable sizeof_MemoryBlock : Z.
Variable s_next_egptr_init : Z.
Variable malloc_overhead_c : Z.
Variable is_power_of_two : Z -> bool.
Variable malloc_size : Z -> Z.
Variable max_malloc_size : Z -> Z.
Variable malloc : list MemoryBlock -> Z -> Z.

(** [MemoryBlock::block_start()] and the end of the data. *)
Definition block_start (b : MemoryBlock) : Z :=
  block_addr b + sizeof_MemoryBlock.

Definition block_end (b : MemoryBlock) : Z := block_start b + get_size b.

(** ** Producer *)

(** Modelled from the spec: [sync_egptr] of the revision of
    StreamBuf.cxx (the header among the sources has the later one).
    The newest put pointer always goes to [m_next_egptr2]; it is
    published in [m_next_egptr] unless that holds [nullptr], the reset
    signal the consumer has not yet taken. *)
Definition sync_egptr (cur_pptr : Z) (sb : StreamBuf) : StreamBuf :=
  let sb := set_m_next_egptr2 cur_pptr sb in
  if m_next_egptr sb =? nullptr then sb else set_m_next_egptr cur_pptr sb.

(** [std::streambuf::pbump(int n)]. *)
Definition std_pbump (n : Z) (sb : StreamBuf) : StreamBuf :=
  let n := to_int n in
  set_pptr (pptr sb + n) sb.

(** [StreamBufProducer::pbump(int n)], [setp] and
    [setp_pbump(char* p, char* ep, int n)]. *)
Definition pbump (n : Z) (sb : StreamBuf) : StreamBuf :=
  let n := to_int n in
  let sb := std_pbump n sb in
  sync_egptr (pptr sb) sb.

Definition setp (p ep : Z) (sb : StreamBuf) : StreamBuf :=
  std_setp p ep (sync_egptr p sb).

Definition setp_pbump (p ep n : Z) (sb : StreamBuf) : StreamBuf :=
  let n := to_int n in
  std_pbump n (std_setp p ep (sync_egptr (p + n) sb)).

Definition unused_in_last_block (sb : StreamBuf) : Z := epptr sb - pptr sb.

Definition get_allocated_upper_bound (sb : StreamBuf) : Z :=
  to_size_t (m_total_allocated sb - m_total_freed sb).

Definition get_data_size_upper_bound (sb : StreamBuf) : Z :=
  to_size_t (m_total_allocated sb - unused_in_last_block sb
             + m_total_reset sb - m_total_read sb).

(** [StreamBufProducer::new_block_size]. *)
Definition new_block_size (sb : StreamBuf) : Z :=
  let data_size_upper_bound := get_data_size_upper_bound sb in
  to_size_t
    (malloc_size
       (to_size_t (Z.max data_size_upper_bound (m_minimum_block_size sb)
                   + sizeof_MemoryBlock))
     - sizeof_MemoryBlock).

(** The [ASSERT] of [MemoryBlock::create]: the heap space that the
    block takes is a power of two or a multiple of 4096. *)
Definition create_ASSERT (block_size : Z) : bool :=
  let heap_size :=
    to_size_t (sizeof_MemoryBlock + block_size + malloc_overhead_c) in
  is_power_of_two heap_size || (heap_size mod 4096 =? 0).

(** [MemoryBlock::create(block_size)], given the blocks of the buffer:
    [Fatal] where the [ASSERT] fails.  The number of bytes asked of
    [malloc] is computed in [size_t]. *)
Definition MemoryBlock_create (block_size : Z) (live : list MemoryBlock)
  : result MemoryBlock :=
  if create_ASSERT block_size then
    Ok (mkMemoryBlock
          (malloc live (to_size_t (sizeof_MemoryBlock + block_size)))
          block_size)
  else Fatal.

(** [StreamBufProducer::create_memory_block]. *)
Definition create_memory_block (block_size : Z) (sb : StreamBuf)
  : result (MemoryBlock * StreamBuf) :=
  match MemoryBlock_create block_size (chain sb) with
  | Ok new_block =>
      Ok (new_block,
          set_m_total_allocated (m_total_allocated sb + block_size) sb)
  | Fatal => Fatal
  | OutOfFuel => OutOfFuel
  end.

(** What [update_put_area] stores when it resets the put area, in
    program order. *)
Inductive store : Type :=
| store_next_egptr2 (v : Z)
| store_next_egptr (v : Z)
| add_total_reset (d : Z)
| streambuf_pbump (n : Z).

Definition do_store (sb : StreamBuf) (s : store) : StreamBuf :=
  match s with
  | store_next_egptr2 v => set_m_next_egptr2 v sb
  | store_next_egptr v => set_m_next_egptr v sb
  | add_total_reset d => set_m_total_reset (m_total_reset sb + d) sb
  | streambuf_pbump n => std_pbump n sb
  end.

(** The test that starts a reset cycle. *)
Definition put_area_must_reset (sb : StreamBuf) : bool :=
  negb (pptr sb =? pbase sb)
  && negb (m_next_egptr sb =? nullptr)
  && (pptr sb =? m_last_gptr sb).

Definition update_put_area_stores (sb : StreamBuf) : list store :=
  let block_start := pbase sb in
  let cur_pptr := pptr sb in
  if put_area_must_reset sb then
    [store_next_egptr2 block_start;
     store_next_egptr nullptr;
     add_total_reset (cur_pptr - block_start);
     streambuf_pbump (block_start - cur_pptr)]
  else [].

(** [StreamBufProducer::update_put_area]: the returned [cur_pptr], the
    [available] it sets, and the buffer. *)
Definition update_put_area (sb : StreamBuf) : result (Z * Z * StreamBuf) :=
  if m_next_egptr sb =? s_next_egptr_init then Fatal
  else
    let block_start := pbase sb in
    let cur_pptr := if put_area_must_reset sb then block_start else pptr sb in
    let sb := fold_left do_store (update_put_area_stores sb) sb in
    Ok (cur_pptr, epptr sb - cur_pptr, sb).

(** The size of the block that [overflow_a] and [xsputn_a] allocate, or
    [None] where they return [EOF]. *)
Definition choose_block_size (sb : StreamBuf) : option Z :=
  let block_size := new_block_size sb in
  if to_size_t (get_allocated_upper_bound sb + block_size)
     >? m_max_allocated_block_size sb
  then
    let block_size :=
      to_size_t
        (max_malloc_size
           (to_size_t (m_max_allocated_block_size sb
                       - get_allocated_upper_bound sb + sizeof_MemoryBlock))
         - sizeof_MemoryBlock) in
    if block_size <? m_minimum_block_size sb then None else Some block_size
  else Some block_size.

Arguments create_ASSERT : simpl never.
Arguments MemoryBlock_create : simpl never.
Arguments create_memory_block : simpl never.

(** [m_put_area_block_node->m_next = new_block], after which
    [m_put_area_block_node = new_block] names the same block. *)
Definition link_block (new_block : MemoryBlock) (sb : StreamBuf) : StreamBuf :=
  set_m_next_chain (m_next_chain sb ++ [new_block]) sb.

(** [StreamBufProducer::overflow_a]. *)
Definition overflow_a (c : Z) (sb : StreamBuf) : result (Z * StreamBuf) :=
  if c =? EOF then Ok (0, sb)
  else
    match update_put_area sb with
    | Ok (cur_pptr, available, sb) =>
        if available =? 0 then
          match choose_block_size sb with
          | None => Ok (EOF, sb)
          | Some block_size =>
              match create_memory_block block_size sb with
              | Ok (new_block, sb) =>
                  let start := block_start new_block in
                  let sb :=
                    set_mem (memcpy_in start [to_char c] (mem sb)) sb in
                  let sb := link_block new_block sb in
                  let sb := setp_pbump start (start + block_size) 1 sb in
                  Ok (0, sb)
              | Fatal => Fatal
              | OutOfFuel => OutOfFuel
              end
          end
        else
          let sb := set_mem (memcpy_in cur_pptr [to_char c] (mem sb)) sb in
          Ok (0, pbump 1 sb)
    | Fatal => Fatal
    | OutOfFuel => OutOfFuel
    end.

(** The [while (remaining > 0)] loop of [xsputn_a]; [s] is what is left
    to write.  The result tells whether the loop was left by
    [return EOF], what was not written, and the buffer. *)
Fixpoint xsputn_a_loop (fuel : nat) (s : list ascii) (sb : StreamBuf)
  : result (bool * list ascii * StreamBuf) :=
  match fuel with
  | O => OutOfFuel
  | S fuel' =>
      if Z.of_nat (length s) >? 0 then
        match update_put_area sb with
        | Ok (cur_pptr, available, sb) =>
            let '(s, sb) :=
              if available >? 0 then
                let len := Z.min available (Z.of_nat (length s)) in
                let sb :=
                  set_mem (memcpy_in cur_pptr (firstn (Z.to_nat len) s)
                             (mem sb)) sb in
                (skipn (Z.to_nat len) s, pbump len sb)
              else (s, sb) in
            if Z.of_nat (length s) >? 0 then
              match choose_block_size sb with
              | None => Ok (true, s, sb)
              | Some block_size =>
                  match create_memory_block block_size sb with
                  | Ok (new_block, sb) =>
                      let start := block_start new_block in
                      let sb := link_block new_block sb in
                      let sb := setp start (start + block_size) sb in
                      xsputn_a_loop fuel' s sb
                  | Fatal => Fatal
                  | OutOfFuel => OutOfFuel
                  end
              end
            else xsputn_a_loop fuel' s sb
        | Fatal => Fatal
        | OutOfFuel => OutOfFuel
        end
      else Ok (false, s, sb)
  end.

(** The number of passes the loop is given: one per byte, one for a
    first pass that finds the block full, one to leave. *)
Definition xsputn_a_fuel (s : list ascii) : nat := S (S (length s)).

(** [StreamBufProducer::xsputn_a(s, n)], [s] being the [n] bytes. *)
Definition xsputn_a (s : list ascii) (sb : StreamBuf)
  : result (Z * StreamBuf) :=
  let n := Z.of_nat (length s) in
  match xsputn_a_loop (xsputn_a_fuel s) s sb with
  | Ok (true, _, sb) => Ok (EOF, sb)
  | Ok (false, rest, sb) => Ok (n - Z.of_nat (length rest), sb)
  | Fatal => Fatal
  | OutOfFuel => OutOfFuel
  end.

(** The bytes of [s] that a call of [xsputn_a] copied into the buffer:
    the first [n - remaining] at the time it returned. *)
Definition xsputn_a_copied (s : list ascii) (sb : StreamBuf) : list ascii :=
  match xsputn_a_loop (xsputn_a_fuel s) s sb with
  | Ok (_, rest, _) => firstn (length s - length rest) s
  | _ => []
  end.

(** [StreamBufProducer::pbackfail]. *)
Definition pbackfail (c : Z) (sb : StreamBuf) : result (Z * StreamBuf) :=
  if c =? EOF then Ok (0, sb) else Fatal.

(** ** Consumer *)

Definition store_last_gptr (p : Z) (sb : StreamBuf) : StreamBuf :=
  set_m_last_gptr p sb.

(** [StreamBufConsumer::gbump(int n)]. *)
Definition gbump (n : Z) (sb : StreamBuf) : StreamBuf :=
  let n := to_int n in
  set_gptr (gptr sb + n) sb.


(** The [for (;;)] loop of [update_get_area].  [node] and [next] are
    [get_area_block_node] and the blocks after it. *)
Fixpoint update_get_area_loop (next : list MemoryBlock) (node : MemoryBlock)
    (next_egptr cur_gptr : Z) (sb : StreamBuf)
  : result (bool * Z * Z * StreamBuf) :=
  let start := block_start node in
  let end_ := start + get_size node in
  let case1 := (start <=? next_egptr) && (next_egptr <=? end_) in
  let cur_egptr := if case1 then next_egptr else end_ in
  let available := cur_egptr - cur_gptr in
  if negb (available =? 0) then
    let sb := setg start cur_gptr cur_egptr sb in
    if case1 || negb (match next with [] => true | _ => false end)
    then Ok ((cur_egptr =? end_) && negb case1, cur_gptr, available, sb)
    else Fatal
  else if case1 then
    Ok (false, cur_gptr, available, setg start cur_gptr cur_egptr sb)
  else
    match next with
    | [] => Fatal
    | next_node :: rest =>
        let prev_get_area_block_node := node in
        let sb := set_get_area_block_node next_node rest sb in
        let cur_gptr := block_start next_node in
        let sb := store_last_gptr cur_gptr sb in
        let sb :=
          set_m_total_freed
            (m_total_freed sb + get_size prev_get_area_block_node) sb in
        update_get_area_loop rest next_node next_egptr cur_gptr sb
    end.

(** [StreamBufConsumer::update_get_area] on [m_get_area_block_node]: the
    returned flag, [cur_gptr], [available], and the buffer.  The
    compare-exchange of the reset finds [m_next_egptr] as it was just
    stored and succeeds on its first pass. *)
Definition update_get_area (sb : StreamBuf)
  : result (bool * Z * Z * StreamBuf) :=
  let next_egptr := m_next_egptr sb in
  let start := block_start (m_get_area_block_node sb) in
  let cur_gptr := gptr sb in
  let '(next_egptr, cur_gptr, sb) :=
    if next_egptr =? nullptr then
      let sb := set_m_last_gptr start sb in
      let sb := set_m_next_egptr start sb in
      let next_egptr := m_next_egptr2 sb in
      let sb := set_m_next_egptr next_egptr sb in
      (next_egptr, start, sb)
    else (next_egptr, cur_gptr, sb) in
  update_get_area_loop (m_next_chain sb) (m_get_area_block_node sb)
    next_egptr cur_gptr sb.

(** [StreamBufConsumer::underflow_a]. *)
Definition underflow_a (sb : StreamBuf) : result (Z * StreamBuf) :=
  match update_get_area sb with
  | Ok (_, cur_gptr, available, sb) =>
      if available =? 0 then Ok (EOF, store_last_gptr cur_gptr sb)
      else Ok (0, sb)
  | Fatal => Fatal
  | OutOfFuel => OutOfFuel
  end.

(** The [while (remaining > 0)] loop of [xsgetn_a]; [out] is what was
    copied to [s] so far. *)
Fixpoint xsgetn_a_loop (fuel : nat) (remaining : Z) (out : list ascii)
    (sb : StreamBuf) : result (Z * list ascii * StreamBuf) :=
  match fuel with
  | O => OutOfFuel
  | S fuel' =>
      if remaining >? 0 then
        match update_get_area sb with
        | Ok (at_end_and_has_next_block, cur_gptr, available, sb) =>
            if available <? 0 then Fatal
            else
              let '(len, out, available, remaining, sb) :=
                if negb (available =? 0) then
                  let len := Z.min available remaining in
                  (len, out ++ memcpy_out (mem sb) cur_gptr len,
                   available - len, remaining - len, gbump len sb)
                else (0, out, available, remaining, sb) in
              if negb at_end_and_has_next_block then
                Ok (remaining, out,
                    if available =? 0
                    then store_last_gptr (cur_gptr + len) sb
                    else sb)
              else if available =? 0 then
                match m_next_chain sb with
                | [] => Fatal
                | next_node :: rest =>
                    let get_area_block_node := m_get_area_block_node sb in
                    let sb := set_get_area_block_node next_node rest sb in
                    let start := block_start next_node in
                    let sb := setg start start start sb in
                    let sb := store_last_gptr start sb in
                    let sb :=
                      set_m_total_freed
                        (m_total_freed sb + get_size get_area_block_node)
                        sb in
                    xsgetn_a_loop fuel' remaining out sb
                end
              else xsgetn_a_loop fuel' remaining out sb
        | Fatal => Fatal
        | OutOfFuel => OutOfFuel
        end
      else Ok (remaining, out, sb)
  end.

(** One pass per block of the chain, one to take what the last block
    holds, one to leave. *)
Definition xsgetn_a_fuel (sb : StreamBuf) : nat :=
  S (S (S (length (m_next_chain sb)))).

(** [StreamBufConsumer::xsgetn_a(s, n)]: the returned count, the bytes
    copied to [s], and the buffer. *)
Definition xsgetn_a (n : Z) (sb : StreamBuf)
  : result (Z * list ascii * StreamBuf) :=
  match xsgetn_a_loop (xsgetn_a_fuel sb) n [] sb with
  | Ok (remaining, out, sb) =>
      let new_total_read := m_total_read sb + n - remaining in
      Ok (n - remaining, out, set_m_total_read new_total_read sb)
  | Fatal => Fatal
  | OutOfFuel => OutOfFuel
  end.

(** [StreamBufConsumer::bump_total_read(int n)]. *)
Definition bump_total_read (n : Z) (sb : StreamBuf) : StreamBuf :=
  let n := to_int n in
  let new_total_read := m_total_read sb in
  let new_total_read := new_total_read + n in
  set_m_total_read new_total_read sb.

(** [InputBuffer::raw_gbump(int n)], which is also
    [Buf2Dev::buf2dev_bump(int n)]. *)
Definition raw_gbump (n : Z) (sb : StreamBuf) : StreamBuf :=
  bump_total_read n (gbump n sb).

(** [StreamBufConsumer::force_next_contiguous_number_of_bytes], which is
    [Buf2Dev::buf2dev_contiguous_forced]: the returned size and the
    buffer.  [Fatal] is the [DoutFatal] of the debugging build. *)
Definition force_next_contiguous_number_of_bytes (sb : StreamBuf)
  : result (Z * StreamBuf) :=
  let contiguous_size := to_size_t (egptr sb - gptr sb) in
  if contiguous_size =? 0 then
    match underflow_a sb with
    | Ok (ret, sb) =>
        if negb (ret =? EOF) then
          let contiguous_size := to_size_t (egptr sb - gptr sb) in
          if contiguous_size =? 0 then Fatal else Ok (contiguous_size, sb)
        else Ok (contiguous_size, sb)
    | Fatal => Fatal
    | OutOfFuel => OutOfFuel
    end
  else Ok (contiguous_size, sb).

(** ** Raw access of the producer *)

(** [StreamBufProducer::force_available_contiguous_number_of_bytes],
    which is [Dev2Buf::dev2buf_contiguous_forced]: the returned size and
    the buffer. *)
Definition force_available_contiguous_number_of_bytes (sb : StreamBuf)
  : result (Z * StreamBuf) :=
  let contiguous_size := to_size_t (epptr sb - pptr sb) in
  if contiguous_size =? 0 then
    match overflow_a 0 sb with
    | Ok (ret, sb) =>
        if ret =? EOF then
          Ok (contiguous_size, set_m_buffer_was_full true sb)
        else
          let sb := pbump (-1) sb in
          Ok (to_size_t (epptr sb - pptr sb), sb)
    | Fatal => Fatal
    | OutOfFuel => OutOfFuel
    end
  else Ok (contiguous_size, sb).

(** [Dev2Buf::dev2buf_ptr()], and [Dev2Buf::dev2buf_bump(int n)],
    which is also [OutputBuffer::raw_pbump(int n)]. *)
Definition dev2buf_ptr (sb : StreamBuf) : Z := pptr sb.

Definition dev2buf_bump (n : Z) (sb : StreamBuf) : StreamBuf := pbump n sb.

(** How a device fills the buffer (InputDevice.cxx, [read_from_fd]):
    [read] stores the bytes it got at [dev2buf_ptr()], and
    [dev2buf_bump(rlen)] publishes them. *)
Definition read_from_fd_stores (bytes : list ascii) (sb : StreamBuf)
  : StreamBuf :=
  let new_data := dev2buf_ptr sb in
  let rlen := Z.of_nat (length bytes) in
  let sb := set_mem (memcpy_in new_data bytes (mem sb)) sb in
  dev2buf_bump rlen sb.

(** ** Giving memory back *)

(** The part of [StreamBuf::reduce_buffer] that replaces the first and
    only [MemoryBlock], where it is larger than
    [m_minimum_block_size]. *)
Definition replace_first_and_only_MemoryBlock (sb : StreamBuf)
  : result StreamBuf :=
  if get_size (m_get_area_block_node sb) >? m_minimum_block_size sb then
    let get_area_block_node := m_get_area_block_node sb in
    match MemoryBlock_create (m_minimum_block_size sb) (chain sb) with
    | Ok new_node =>
        let sb := set_get_area_block_node new_node [] sb in
        let sb :=
          set_m_total_allocated
            (m_total_allocated sb + m_minimum_block_size sb) sb in
        Ok (set_m_total_freed
              (m_total_freed sb + get_size get_area_block_node) sb)
    | Fatal => Fatal
    | OutOfFuel => OutOfFuel
    end
  else Ok sb.

(** The part of [StreamBuf::reduce_buffer] that resets the empty
    buffer. *)
Definition reset_the_empty_buffer (sb : StreamBuf) : StreamBuf :=
  let start := block_start (m_get_area_block_node sb) in
  let sb := setg start start start sb in
  let sb :=
    set_m_total_reset
      (m_total_reset sb
       + (m_minimum_block_size sb - unused_in_last_block sb)) sb in
  let sb := setp start (start + m_minimum_block_size sb) sb in
  store_last_gptr start sb.

(** [StreamBuf::reduce_buffer]. *)
Definition reduce_buffer (sb : StreamBuf) : result StreamBuf :=
  match replace_first_and_only_MemoryBlock sb with
  | Ok sb => Ok (reset_the_empty_buffer sb)
  | Fatal => Fatal
  | OutOfFuel => OutOfFuel
  end.

(** [StreamBuf::buffer_empty] and [StreamBuf::reduce_buffer_if_empty],
    which is [InputBuffer::raw_reduce_buffer_if_empty]. *)
Definition buffer_empty (sb : StreamBuf) : bool := gptr sb =? pptr sb.

Definition reduce_buffer_if_empty (sb : StreamBuf) : result StreamBuf :=
  if buffer_empty sb then reduce_buffer sb else Ok sb.

(** ** Construction *)

(** [StreamBuf::StreamBuf(minimum_block_size, buffer_full_watermark,
    max_allocated_block_size)] in the address space [m]. *)
Definition StreamBuf_new (m : Z -> ascii)
    (minimum_block_size buffer_full_watermark max_allocated_block_size : Z)
  : result StreamBuf :=
  let block_size :=
    to_size_t (malloc_size (to_size_t (minimum_block_size
                                       + sizeof_MemoryBlock))
               - sizeof_MemoryBlock) in
  match MemoryBlock_create block_size [] with
  | Ok first =>
      let start := block_start first in
      let sb :=
        mkStreamBuf m nullptr nullptr nullptr nullptr nullptr nullptr
          s_next_egptr_init nullptr nullptr 0 0 false
          minimum_block_size buffer_full_watermark max_allocated_block_size
          (0 + block_size) 0 first [] in
      let sb := setp start (start + block_size) sb in
      Ok (setg start start start sb)
  | Fatal => Fatal
  | OutOfFuel => OutOfFuel
  end.

(** ** Runs *)

(** The calls of a run, the producer's and the consumer's in the order
    in which they happen. *)
Inductive op : Type :=
| Xsputn (s : list ascii)
| Overflow (c : Z)
| Xsgetn (n : Z)
| Underflow.

(** A buffer with the bytes written to it and the bytes read from it so
    far. *)
Record run_state : Type := mkRun {
  buf : StreamBuf;
  written : list ascii;
  readout : list ascii
}.

Definition exec (o : op) (r : run_state) : result run_state :=
  match o with
  | Xsputn s =>
      match xsputn_a s (buf r) with
      | Ok (_, sb) =>
          Ok (mkRun sb (written r ++ xsputn_a_copied s (buf r)) (readout r))
      | Fatal => Fatal
      | OutOfFuel => OutOfFuel
      end
  | Overflow c =>
      match overflow_a c (buf r) with
      | Ok (ret, sb) =>
          Ok (mkRun sb
                (written r ++
                   (if (c =? EOF) || (ret =? EOF) then [] else [to_char c]))
                (readout r))
      | Fatal => Fatal
      | OutOfFuel => OutOfFuel
      end
  | Xsgetn n =>
      match xsgetn_a n (buf r) with
      | Ok (_, out, sb) => Ok (mkRun sb (written r) (readout r ++ out))
      | Fatal => Fatal
      | OutOfFuel => OutOfFuel
      end
  | Underflow =>
      match underflow_a (buf r) with
      | Ok (_, sb) => Ok (mkRun sb (written r) (readout r))
      | Fatal => Fatal
      | OutOfFuel => OutOfFuel
      end
  end.

Fixpoint run (ops : list op) (r : run_state) : result run_state :=
  match ops with
  | [] => Ok r
  | o :: ops' =>
      match exec o r with
      | Ok r' => run ops' r'
      | Fatal => Fatal
      | OutOfFuel => OutOfFuel
      end
  end.

(** The calls that streams and devices make on a buffer: the four
    stream calls; of a device that fills the buffer ([Dev2Buf])
    [dev2buf_contiguous_forced] and [dev2buf_bump] over the bytes that
    the device has stored at [dev2buf_ptr()]; of a device or decoder
    that empties it ([Buf2Dev], [InputBuffer])
    [buf2dev_contiguous_forced] and [raw_gbump], which is
    [buf2dev_bump]; and [raw_reduce_buffer_if_empty]. *)
Inductive call : Type :=
| Stream (o : op)
| Dev2buf_contiguous_forced
| Dev2buf_bump (bytes : list ascii)
| Buf2dev_contiguous_forced
| Raw_gbump (n : Z)
| Raw_reduce_buffer_if_empty.

Definition exec_call (c : call) (sb : StreamBuf) : result StreamBuf :=
  match c with
  | Stream o =>
      match exec o (mkRun sb [] []) with
      | Ok r => Ok (buf r)
      | Fatal => Fatal
      | OutOfFuel => OutOfFuel
      end
  | Dev2buf_contiguous_forced =>
      match force_available_contiguous_number_of_bytes sb with
      | Ok (_, sb) => Ok sb
      | Fatal => Fatal
      | OutOfFuel => OutOfFuel
      end
  | Dev2buf_bump bytes => Ok (read_from_fd_stores bytes sb)
  | Buf2dev_contiguous_forced =>
      match force_next_contiguous_number_of_bytes sb with
      | Ok (_, sb) => Ok sb
      | Fatal => Fatal
      | OutOfFuel => OutOfFuel
      end
  | Raw_gbump n => Ok (raw_gbump n sb)
  | Raw_reduce_buffer_if_empty => reduce_buffer_if_empty sb
  end.
(** ** Memory lemmas *)

Lemma read_bytes_length (m : Z -> ascii) (n : nat) :
  forall p, length (read_bytes m p n) = n.
Proof. induction n as [|n IH]; intros p; simpl; [|rewrite IH]; reflexivity. Qed.

Lemma read_bytes_app (m : Z -> ascii) (a b : nat) :
  forall p,
    read_bytes m p (a + b) =
    read_bytes m p a ++ read_bytes m (p + Z.of_nat a) b.
Proof.
  induction a as [|a IH]; intros p.
  - simpl. rewrite Z.add_0_r. reflexivity.
  - simpl. rewrite IH. do 3 f_equal. lia.
Qed.

Lemma read_bytes_ext (m1 m2 : Z -> ascii) (n : nat) :
  forall p,
    (forall a, p <= a < p + Z.of_nat n -> m1 a = m2 a) ->
    read_bytes m1 p n = read_bytes m2 p n.
Proof.
  induction n as [|n IH]; intros p H; [reflexivity|].
  simpl. rewrite (H p) by lia. f_equal. apply IH.
  intros a Ha. apply H. lia.
Qed.

Lemma read_memcpy_in_frame (m : Z -> ascii) (p : Z) (s : list ascii)
    (q : Z) (n : nat) :
  q + Z.of_nat n <= p \/ p + Z.of_nat (length s) <= q ->
  read_bytes (memcpy_in p s m) q n = read_bytes m q n.
Proof.
  intros H. apply read_bytes_ext. intros a Ha. unfold memcpy_in.
  destruct (p <=? a) eqn:E1; [|reflexivity].
  destruct (a <? p + Z.of_nat (length s)) eqn:E2; [|reflexivity].
  apply Z.leb_le in E1. apply Z.ltb_lt in E2. lia.
Qed.

Lemma read_memcpy_in_same (m : Z -> ascii) (s : list ascii) :
  forall p, read_bytes (memcpy_in p s m) p (length s) = s.
Proof.
  induction s as [|x s IH]; intros p; [reflexivity|].
  simpl. f_equal.
  - unfold memcpy_in. rewrite Z.leb_refl. simpl length.
    replace (p <? p + Z.of_nat (S (length s))) with true
      by (symmetry; apply Z.ltb_lt; lia).
    rewrite Z.sub_diag. reflexivity.
  - transitivity (read_bytes (memcpy_in (p + 1) s m) (p + 1) (length s));
      [|apply IH].
    apply read_bytes_ext.
    intros a Ha. unfold memcpy_in. simpl length.
    replace (p <=? a) with true by (symmetry; apply Z.leb_le; lia).
    replace (p + 1 <=? a) with true by (symmetry; apply Z.leb_le; lia).
    replace (a <? p + Z.of_nat (S (length s))) with true
      by (symmetry; apply Z.ltb_lt; lia).
    replace (a <? p + 1 + Z.of_nat (length s)) with true
      by (symmetry; apply Z.ltb_lt; lia).
    simpl. replace (Z.to_nat (a - p)) with (S (Z.to_nat (a - (p + 1))))
      by lia.
    reflexivity.
Qed.

(** Reading on across a copy that starts where the read ends. *)
Lemma read_memcpy_in_extend (m : Z -> ascii) (s : list ascii) (q p : Z) :
  q <= p ->
  read_bytes (memcpy_in p s m) q (Z.to_nat (p + Z.of_nat (length s) - q)) =
  read_bytes m q (Z.to_nat (p - q)) ++ s.
Proof.
  intros Hqp.
  replace (Z.to_nat (p + Z.of_nat (length s) - q))
    with (Z.to_nat (p - q) + length s)%nat by lia.
  rewrite read_bytes_app. f_equal.
  - apply read_memcpy_in_frame. left. lia.
  - replace (q + Z.of_nat (Z.to_nat (p - q))) with p by lia.
    apply read_memcpy_in_same.
Qed.

(** ** The invariant of the buffer *)

(** The allocation of [a] lies beside the allocation of [b]. *)
Definition beside (a b : MemoryBlock) : Prop :=
  block_end a <= block_addr b \/ block_end b <= block_addr a.

(** The blocks are allocated, of a size that is not negative, keep
    clear of [s_next_egptr_init], and lie beside each other. *)
Fixpoint chain_ok (l : list MemoryBlock) : Prop :=
  match l with
  | [] => True
  | b :: l' =>
      0 < block_addr b /\ 0 <= get_size b /\
      (s_next_egptr_init < block_addr b \/ block_end b < s_next_egptr_init) /\
      Forall (beside b) l' /\
      chain_ok l'
  end.

Definition total_size (l : list MemoryBlock) : Z :=
  fold_right (fun b acc => get_size b + acc) 0 l.

(** The bytes from [lo] in [node] to [hi] in the last block. *)
Fixpoint chain_data (m : Z -> ascii) (lo : Z) (node : MemoryBlock)
    (next : list MemoryBlock) (hi : Z) : list ascii :=
  match next with
  | [] => read_bytes m lo (Z.to_nat (hi - lo))
  | b :: next' =>
      read_bytes m lo (Z.to_nat (block_end node - lo)) ++
      chain_data m (block_start b) b next' hi
  end.

(** The producer has reset the put area and the consumer has not yet
    reset the get area. *)
Definition resetting (sb : StreamBuf) : bool := m_next_egptr sb =? nullptr.

(** Where the next byte to read is. *)
Definition read_position (sb : StreamBuf) : Z :=
  if resetting sb then block_start (m_get_area_block_node sb) else gptr sb.

(** The bytes written and not yet read. *)
Definition pending (sb : StreamBuf) : list ascii :=
  chain_data (mem sb) (read_position sb) (m_get_area_block_node sb)
    (m_next_chain sb) (pptr sb).

(** The invariant between calls: [W] are the bytes written so far, [R]
    the bytes read so far, and [k] the number of bytes read that
    [m_total_read] does not count yet.  The bytes written stay below
    2^31, so that no length passed as an [int] wraps, and the blocks in
    use stay within [m_max_allocated_block_size].  The get pointer
    stays in the block of the get area, also while it waits for the
    reset that the producer has asked for. *)
Record Inv (sb : StreamBuf) (W R : list ascii) (k : Z) : Prop := mkInv {
  inv_chain : chain_ok (chain sb);
  inv_pbase : pbase sb = block_start (m_put_area_block_node sb);
  inv_epptr : epptr sb = block_end (m_put_area_block_node sb);
  inv_pptr : pbase sb <= pptr sb <= epptr sb;
  inv_sync :
    m_next_egptr sb = pptr sb \/
    (m_next_egptr sb = nullptr /\ m_next_egptr2 sb = pptr sb);
  inv_gptr :
    resetting sb = false ->
    block_start (m_get_area_block_node sb) <= gptr sb
      <= block_end (m_get_area_block_node sb) /\
    (m_next_chain sb = [] -> gptr sb <= pptr sb) /\
    (m_last_gptr sb = nullptr \/
     block_start (m_get_area_block_node sb) <= m_last_gptr sb <= gptr sb);
  inv_data : W = R ++ pending sb;
  inv_written :
    m_total_allocated sb - (epptr sb - pptr sb) + m_total_reset sb
    = Z.of_nat (length W);
  inv_read : m_total_read sb + k = Z.of_nat (length R);
  inv_k : 0 <= k;
  inv_alloc :
    m_total_allocated sb - m_total_freed sb = total_size (chain sb);
  inv_reset : 0 <= m_total_reset sb + m_total_freed sb;
  inv_min :
    0 < m_minimum_block_size sb /\
    m_minimum_block_size sb + sizeof_MemoryBlock <= 2 ^ 61;
  inv_span :
    pptr sb - pbase sb <= Z.of_nat (length W) /\
    Z.of_nat (length W) + sizeof_MemoryBlock <= 2 ^ 31;
  inv_max :
    m_total_allocated sb - m_total_freed sb
      <= m_max_allocated_block_size sb /\
    m_max_allocated_block_size sb < 2 ^ 64;
  inv_nonneg : 0 <= m_total_freed sb /\ 0 <= m_total_read sb;
  inv_block : epptr sb - pbase sb <= 2 ^ 62;
  inv_sizes :
    Forall (fun b => m_minimum_block_size sb <= get_size b) (chain sb);
  inv_garea :
    block_start (m_get_area_block_node sb) <= gptr sb
      <= block_end (m_get_area_block_node sb)
}.

(** ** Conversions that do not wrap *)

Lemma to_int_small (z : Z) : - 2 ^ 31 <= z < 2 ^ 31 -> to_int z = z.
Proof.
  intros H. unfold to_int. rewrite Z.mod_small by lia. lia.
Qed.

Lemma to_int_1 : to_int 1 = 1.
Proof. reflexivity. Qed.

Lemma std_pbump_small (n : Z) (sb : StreamBuf) :
  - 2 ^ 31 <= n < 2 ^ 31 -> std_pbump n sb = set_pptr (pptr sb + n) sb.
Proof. intros H. unfold std_pbump. rewrite to_int_small by exact H. reflexivity. Qed.

Lemma pbump_small (n : Z) (sb : StreamBuf) :
  - 2 ^ 31 <= n < 2 ^ 31 ->
  pbump n sb = sync_egptr (pptr sb + n) (set_pptr (pptr sb + n) sb).
Proof.
  intros H. unfold pbump, std_pbump. cbv zeta.
  rewrite !(to_int_small n) by exact H. reflexivity.
Qed.


Lemma gbump_small (n : Z) (sb : StreamBuf) :
  - 2 ^ 31 <= n < 2 ^ 31 -> gbump n sb = set_gptr (gptr sb + n) sb.
Proof. intros H. unfold gbump. rewrite to_int_small by exact H. reflexivity. Qed.

(** ** What is assumed of the environment *)

(** [MemoryBlock] has a size; [s_next_egptr_init] has an address;
    [malloc] returns a fresh allocation that lies beside the blocks in
    use and keeps clear of [s_next_egptr_init].  [utils::malloc_size]
    rounds a request up, to at most 2^62 for requests up to 2^61;
    [utils::max_malloc_size] rounds it down, not below the size of the
    header; and the sizes that both return pass the [ASSERT] of
    [MemoryBlock::create] once the header is taken off. *)
Hypothesis sizeof_MemoryBlock_pos : 0 < sizeof_MemoryBlock.
Hypothesis s_next_egptr_init_not_null : s_next_egptr_init <> nullptr.
Hypothesis malloc_fresh :
  forall (live : list MemoryBlock) (n : Z),
    sizeof_MemoryBlock <= n ->
    0 < malloc live n /\
    (s_next_egptr_init < malloc live n \/
     malloc live n + n < s_next_egptr_init) /\
    Forall (fun b => block_end b <= malloc live n \/
                     malloc live n + n <= block_addr b) live.
Hypothesis malloc_size_rounds_up :
  forall x, sizeof_MemoryBlock <= x <= 2 ^ 61 ->
            x <= malloc_size x <= 2 ^ 62.
Hypothesis max_malloc_size_fits :
  forall x, sizeof_MemoryBlock <= x < 2 ^ 64 ->
            sizeof_MemoryBlock <= max_malloc_size x <= x.
Hypothesis malloc_size_ASSERT :
  forall x, sizeof_MemoryBlock <= x <= 2 ^ 61 ->
            create_ASSERT (malloc_size x - sizeof_MemoryBlock) = true.
Hypothesis max_malloc_size_ASSERT :
  forall x, sizeof_MemoryBlock <= x < 2 ^ 64 ->
            create_ASSERT (max_malloc_size x - sizeof_MemoryBlock) = true.

(** The block that [MemoryBlock::create] returns. *)
Definition new_MemoryBlock (block_size : Z) (live : list MemoryBlock)
  : MemoryBlock :=
  mkMemoryBlock (malloc live (sizeof_MemoryBlock + block_size)) block_size.

Lemma MemoryBlock_create_ok (block_size : Z) (live : list MemoryBlock) :
  create_ASSERT block_size = true ->
  0 <= block_size -> sizeof_MemoryBlock + block_size < 2 ^ 64 ->
  MemoryBlock_create block_size live = Ok (new_MemoryBlock block_size live).
Proof.
  intros Ha H0 H1. unfold MemoryBlock_create, new_MemoryBlock.
  rewrite Ha. unfold to_size_t. rewrite Z.mod_small by lia. reflexivity.
Qed.

Lemma create_memory_block_Ok (block_size : Z) (sb sb' : StreamBuf)
    (new_block : MemoryBlock) :
  create_memory_block block_size sb = Ok (new_block, sb') ->
  sb' = set_m_total_allocated (m_total_allocated sb + block_size) sb /\
  get_size new_block = block_size /\
  create_ASSERT block_size = true.
Proof.
  unfold create_memory_block, MemoryBlock_create.
  destruct (create_ASSERT block_size); [|discriminate].
  intros E. injection E as <- <-. repeat split; reflexivity.
Qed.

Lemma create_memory_block_ok (block_size : Z) (sb : StreamBuf) :
  create_ASSERT block_size = true ->
  0 <= block_size -> sizeof_MemoryBlock + block_size < 2 ^ 64 ->
  create_memory_block block_size sb =
  Ok (new_MemoryBlock block_size (chain sb),
      set_m_total_allocated (m_total_allocated sb + block_size) sb).
Proof.
  intros Ha H0 H1. unfold create_memory_block.
  rewrite MemoryBlock_create_ok by assumption. reflexivity.
Qed.

(** ** Chains *)

Lemma last_cons (b d : MemoryBlock) (l : list MemoryBlock) :
  last (b :: l) d = last l b.
Proof.
  revert b d. induction l as [|c l IH]; intros b d; [reflexivity|].
  change (last (b :: c :: l) d) with (last (c :: l) d).
  rewrite (IH c d), (IH c b). reflexivity.
Qed.

Lemma last_in (l : list MemoryBlock) (d : MemoryBlock) :
  l <> [] -> In (last l d) l.
Proof.
  induction l as [|b l IH]; intros H; [congruence|].
  destruct l as [|c l]; [left; reflexivity|].
  right. apply IH. discriminate.
Qed.

Lemma beside_sym (a b : MemoryBlock) : beside a b -> beside b a.
Proof. unfold beside. tauto. Qed.

Lemma chain_ok_app (l : list MemoryBlock) (nb : MemoryBlock) :
  chain_ok l -> chain_ok [nb] -> Forall (fun b => beside b nb) l ->
  chain_ok (l ++ [nb]).
Proof.
  induction l as [|b l IH]; intros Hl Hnb Hbes; [exact Hnb|].
  simpl in Hl. destruct Hl as (Ha & Hs & Hi & Hf & Hl).
  inversion Hbes as [|? ? Hb Hbes']; subst.
  simpl. repeat split; try assumption.
  - apply Forall_app. split; [exact Hf|]. constructor; [exact Hb|constructor].
  - apply IH; assumption.
Qed.

Lemma chain_ok_create (l : list MemoryBlock) (block_size : Z) :
  chain_ok l -> 0 <= block_size ->
  chain_ok (l ++ [new_MemoryBlock block_size l]).
Proof.
  intros Hl Hbs.
  destruct (malloc_fresh l (sizeof_MemoryBlock + block_size) ltac:(lia))
    as (Hpos & Hinit & Hfresh).
  apply chain_ok_app; [exact Hl| |].
  - unfold new_MemoryBlock. simpl.
    unfold block_end, block_start, get_size. simpl.
    split; [exact Hpos|]. split; [exact Hbs|].
    split; [destruct Hinit as [H|H]; [left; exact H | right; lia]|].
    split; constructor.
  - eapply Forall_impl; [|exact Hfresh].
    intros b Hb. unfold beside, new_MemoryBlock, block_end, block_start,
      get_size in *. simpl. lia.
Qed.

Lemma chain_ok_tail (b : MemoryBlock) (l : list MemoryBlock) :
  chain_ok (b :: l) -> chain_ok l.
Proof. simpl. tauto. Qed.

Lemma chain_ok_last_size (node : MemoryBlock) (next : list MemoryBlock) :
  chain_ok (node :: next) ->
  0 < block_addr (last next node) /\ 0 <= get_size (last next node) /\
  (s_next_egptr_init < block_addr (last next node) \/
   block_end (last next node) < s_next_egptr_init).
Proof.
  revert node. induction next as [|c next IH]; intros node Hok.
  - simpl in *. tauto.
  - rewrite last_cons. apply IH. eapply chain_ok_tail. exact Hok.
Qed.

(** A pointer into the last block of a chain of several blocks is not a
    pointer into its first block. *)
Lemma first_block_misses_last (node : MemoryBlock) (next : list MemoryBlock)
    (p : Z) :
  chain_ok (node :: next) -> next <> [] ->
  block_start (last next node) <= p <= block_end (last next node) ->
  ~ (block_start node <= p <= block_end node).
Proof.
  intros Hok Hne Hp Hq.
  destruct (chain_ok_last_size node next Hok) as (_ & Hsl & _).
  simpl in Hok. destruct Hok as (_ & Hs & _ & Hf & Hok).
  assert (Hin : In (last next node) next) by (apply last_in; exact Hne).
  rewrite Forall_forall in Hf. specialize (Hf _ Hin).
  unfold beside, block_end, block_start in *. lia.
Qed.

Lemma total_size_app (l1 l2 : list MemoryBlock) :
  total_size (l1 ++ l2) = total_size l1 + total_size l2.
Proof.
  induction l1 as [|b l1 IH]; simpl; [reflexivity|].
  unfold total_size in *. simpl. rewrite IH. lia.
Qed.

Lemma total_size_nonneg (l : list MemoryBlock) :
  chain_ok l -> 0 <= total_size l.
Proof.
  induction l as [|b l IH]; intros H; [simpl; unfold total_size; simpl; lia|].
  simpl in H. unfold total_size in *. simpl. 
  assert (0 <= fold_right (fun b acc => get_size b + acc) 0 l)
    by (apply IH; tauto).
  lia.
Qed.

(** ** Data of a chain *)

(** Bytes copied into the last block after [p] extend the data up to
    [p]. *)
Lemma chain_data_write (m : Z -> ascii) (s : list ascii) (p : Z) :
  forall (next : list MemoryBlock) (node : MemoryBlock) (lo : Z),
    chain_ok (node :: next) ->
    block_start node <= lo ->
    (next = [] -> lo <= p) ->
    block_start (last next node) <= p ->
    p + Z.of_nat (length s) <= block_end (last next node) ->
    chain_data (memcpy_in p s m) lo node next (p + Z.of_nat (length s)) =
    chain_data m lo node next p ++ s.
Proof.
  induction next as [|b next IH]; intros node lo Hok Hlo Hsingle Hp Hend.
  - simpl. apply read_memcpy_in_extend. apply Hsingle. reflexivity.
  - simpl. rewrite last_cons in Hp, Hend.
    rewrite IH; try assumption.
    + rewrite app_assoc. do 2 f_equal.
      destruct (Z.le_gt_cases (block_end node) lo) as [Hle | Hgt].
      { replace (Z.to_nat (block_end node - lo)) with 0%nat by lia.
        reflexivity. }
      apply read_memcpy_in_frame.
      assert (Hmiss := first_block_misses_last node (b :: next) p Hok
                         ltac:(discriminate)).
      rewrite last_cons in Hmiss.
      assert (Hmiss' := first_block_misses_last node (b :: next)
                          (p + Z.of_nat (length s)) Hok
                          ltac:(discriminate)).
      rewrite last_cons in Hmiss'.
      simpl in Hok. destruct Hok as (_ & Hs & _ & Hf & Hok).
      assert (Hin : In (last next b) (b :: next)).
      { rewrite <- last_cons with (d := node).
        apply last_in. discriminate. }
      rewrite Forall_forall in Hf. specialize (Hf _ Hin).
      unfold beside, block_end, block_start in *. lia.
    + eapply chain_ok_tail. exact Hok.
    + lia.
    + intros ->. simpl in Hp. exact Hp.
Qed.

(** A new empty block at the end adds no data. *)
Lemma chain_data_snoc (m : Z -> ascii) (nb : MemoryBlock) :
  forall (next : list MemoryBlock) (node : MemoryBlock) (lo : Z),
    chain_data m lo node (next ++ [nb]) (block_start nb) =
    chain_data m lo node next (block_end (last next node)).
Proof.
  induction next as [|b next IH]; intros node lo.
  - simpl. rewrite Z.sub_diag. simpl. apply app_nil_r.
  - rewrite last_cons. simpl. rewrite IH. reflexivity.
Qed.

Lemma chain_data_ext (m1 m2 : Z -> ascii) (hi : Z) :
  forall (next : list MemoryBlock) (node : MemoryBlock) (lo : Z),
    (forall a, m1 a = m2 a) ->
    chain_data m1 lo node next hi = chain_data m2 lo node next hi.
Proof.
  induction next as [|b next IH]; intros node lo H; simpl.
  - apply read_bytes_ext. intros a _. apply H.
  - f_equal; [apply read_bytes_ext; intros a _; apply H | apply IH; exact H].
Qed.

(** ** The producer keeps the invariant *)

Lemma Inv_put_block (sb : StreamBuf) (W R : list ascii) (k : Z) :
  Inv sb W R k ->
  0 < pbase sb /\ pbase sb <= epptr sb /\
  (s_next_egptr_init < pbase sb \/ epptr sb < s_next_egptr_init).
Proof.
  intros H. destruct (chain_ok_last_size _ _ (inv_chain _ _ _ _ H))
    as (Ha & Hs & Hi).
  rewrite (inv_pbase _ _ _ _ H), (inv_epptr _ _ _ _ H).
  fold (m_put_area_block_node sb) in Ha, Hs, Hi.
  unfold block_end, block_start in *. lia.
Qed.

Lemma Inv_next_egptr_not_init (sb : StreamBuf) (W R : list ascii) (k : Z) :
  Inv sb W R k -> m_next_egptr sb <> s_next_egptr_init.
Proof.
  intros H. destruct (Inv_put_block _ _ _ _ H) as (Hp & Hpe & Hi).
  pose proof (inv_pptr _ _ _ _ H) as Hpp.
  destruct (inv_sync _ _ _ _ H) as [E | [E _]]; rewrite E.
  - lia.
  - intros E'. apply s_next_egptr_init_not_null. congruence.
Qed.

Lemma Inv_pending_length (sb : StreamBuf) (W R : list ascii) (k : Z) :
  Inv sb W R k ->
  Z.of_nat (length W) = Z.of_nat (length R) + Z.of_nat (length (pending sb)).
Proof.
  intros H. rewrite (inv_data _ _ _ _ H) at 1. rewrite length_app. lia.
Qed.

(** A reset only happens on an empty buffer of one block. *)
Lemma reset_only_when_empty (sb : StreamBuf) (W R : list ascii) (k : Z) :
  Inv sb W R k -> put_area_must_reset sb = true ->
  m_next_chain sb = [] /\ gptr sb = pptr sb /\ resetting sb = false.
Proof.
  intros H E. unfold put_area_must_reset in E.
  apply andb_true_iff in E. destruct E as [E E3].
  apply andb_true_iff in E. destruct E as [E1 E2].
  apply negb_true_iff in E1, E2. apply Z.eqb_neq in E1. apply Z.eqb_eq in E3.
  assert (Hres : resetting sb = false) by exact E2.
  destruct (inv_gptr _ _ _ _ H Hres) as (Hg & Hsingle & Hlast).
  destruct (Inv_put_block _ _ _ _ H) as (Hp & _ & _).
  pose proof (inv_pptr _ _ _ _ H) as Hpp.
  destruct Hlast as [Hlast | Hlast]; [unfold nullptr in *; lia|].
  assert (Hnext : m_next_chain sb = []).
  { destruct (m_next_chain sb) as [|b l] eqn:En; [reflexivity|exfalso].
    apply (first_block_misses_last (m_get_area_block_node sb) (b :: l)
             (pptr sb)).
    - rewrite <- En. exact (inv_chain _ _ _ _ H).
    - discriminate.
    - rewrite <- En. fold (m_put_area_block_node sb).
      rewrite <- (inv_pbase _ _ _ _ H), <- (inv_epptr _ _ _ _ H). exact Hpp.
    - lia. }
  repeat split; try assumption. specialize (Hsingle Hnext). lia.
Qed.

Lemma update_put_area_inv (sb : StreamBuf) (W R : list ascii) (k : Z) :
  Inv sb W R k ->
  exists cur_pptr available sb',
    update_put_area sb = Ok (cur_pptr, available, sb') /\
    cur_pptr = pptr sb' /\
    available = epptr sb' - pptr sb' /\
    Inv sb' W R k /\
    (pptr sb = pbase sb -> sb' = sb) /\
    pbase sb' = pbase sb /\ epptr sb' = epptr sb.
Proof.
  intros H. unfold update_put_area.
  destruct (m_next_egptr sb =? s_next_egptr_init) eqn:Ei.
  { apply Z.eqb_eq in Ei. exfalso.
    exact (Inv_next_egptr_not_init _ _ _ _ H Ei). }
  unfold update_put_area_stores.
  destruct (put_area_must_reset sb) eqn:E.
  - destruct (reset_only_when_empty _ _ _ _ H E) as (Hnext & Hg & Hres).
    pose proof (inv_pptr _ _ _ _ H) as Hpp.
    pose proof (inv_span _ _ _ _ H) as Hspan.
    cbn [fold_left do_store].
    rewrite std_pbump_small by (simpl; lia).
    do 3 eexists. split; [reflexivity|].
    simpl. split; [lia|]. split; [lia|].
    assert (Hput : m_put_area_block_node sb = m_get_area_block_node sb)
      by (unfold m_put_area_block_node; rewrite Hnext; reflexivity).
    split; [|split; [|split; reflexivity]].
    + constructor; simpl; try exact (inv_chain _ _ _ _ H).
      * exact (inv_pbase _ _ _ _ H).
      * exact (inv_epptr _ _ _ _ H).
      * lia.
      * right. split; [reflexivity | lia].
      * unfold resetting. simpl. discriminate.
      * rewrite (inv_data _ _ _ _ H). f_equal.
        unfold pending, read_position, resetting in *. simpl.
        rewrite Hres, Hnext. simpl.
        rewrite (inv_pbase _ _ _ _ H), Hput, Hg.
        replace (Z.to_nat (pptr sb - pptr sb)) with 0%nat by lia.
        replace (Z.to_nat _) with 0%nat by lia. reflexivity.
      * pose proof (inv_written _ _ _ _ H). lia.
      * exact (inv_read _ _ _ _ H).
      * exact (inv_k _ _ _ _ H).
      * exact (inv_alloc _ _ _ _ H).
      * pose proof (inv_reset _ _ _ _ H). lia.
      * exact (inv_min _ _ _ _ H).
      * lia.
      * exact (inv_max _ _ _ _ H).
      * exact (inv_nonneg _ _ _ _ H).
      * exact (inv_block _ _ _ _ H).
      * exact (inv_sizes _ _ _ _ H).
      * exact (inv_garea _ _ _ _ H).
    + intros Hfresh. unfold put_area_must_reset in E.
      rewrite Hfresh, Z.eqb_refl in E. discriminate.
  - do 3 eexists. split; [reflexivity|]. simpl.
    split; [reflexivity|]. split; [reflexivity|]. split; [exact H|].
    split; [reflexivity|]. split; reflexivity.
Qed.

Lemma resetting_sync_egptr (p : Z) (sb : StreamBuf) :
  p <> nullptr -> resetting (sync_egptr p sb) = resetting sb.
Proof.
  intros Hp. unfold sync_egptr, resetting. simpl.
  destruct (m_next_egptr sb =? nullptr) eqn:E; simpl; [exact E|].
  apply Z.eqb_neq. exact Hp.
Qed.

(** Bytes copied to the put pointer and published are written. *)
Lemma write_inv (sb : StreamBuf) (W R : list ascii) (k : Z)
    (bytes : list ascii) :
  Inv sb W R k ->
  pptr sb + Z.of_nat (length bytes) <= epptr sb ->
  Z.of_nat (length W) + Z.of_nat (length bytes) + sizeof_MemoryBlock
    <= 2 ^ 31 ->
  Inv (pbump (Z.of_nat (length bytes))
         (set_mem (memcpy_in (pptr sb) bytes (mem sb)) sb))
      (W ++ bytes) R k.
Proof.
  intros H Hfit Hlen.
  destruct (Inv_put_block _ _ _ _ H) as (Hp & _ & _).
  pose proof (inv_pptr _ _ _ _ H) as Hpp.
  pose proof (inv_span _ _ _ _ H) as Hspan.
  rewrite pbump_small by lia.
  assert (Hdata :
    chain_data (memcpy_in (pptr sb) bytes (mem sb)) (read_position sb)
      (m_get_area_block_node sb) (m_next_chain sb)
      (pptr sb + Z.of_nat (length bytes)) = pending sb ++ bytes).
  { apply chain_data_write.
    - exact (inv_chain _ _ _ _ H).
    - unfold read_position. destruct (resetting sb) eqn:Er; [lia|].
      destruct (inv_gptr _ _ _ _ H Er) as (Hg & _). lia.
    - intros Hnext. unfold read_position.
      destruct (resetting sb) eqn:Er.
      + rewrite (inv_pbase _ _ _ _ H) in Hpp.
        unfold m_put_area_block_node in Hpp. rewrite Hnext in Hpp.
        simpl in Hpp. lia.
      + destruct (inv_gptr _ _ _ _ H Er) as (_ & Hs & _). auto.
    - fold (m_put_area_block_node sb). rewrite <- (inv_pbase _ _ _ _ H). lia.
    - fold (m_put_area_block_node sb). rewrite <- (inv_epptr _ _ _ _ H).
      exact Hfit. }
  unfold sync_egptr in *. simpl in *.
  destruct (m_next_egptr sb =? nullptr) eqn:En.
  - apply Z.eqb_eq in En.
    constructor; simpl; try exact (inv_chain _ _ _ _ H).
    + exact (inv_pbase _ _ _ _ H).
    + exact (inv_epptr _ _ _ _ H).
    + lia.
    + right. split; [exact En | reflexivity].
    + unfold resetting. simpl. rewrite En. discriminate.
    + rewrite (inv_data _ _ _ _ H), <- app_assoc. f_equal.
      rewrite <- Hdata. unfold pending, read_position, resetting. simpl.
      rewrite En. reflexivity.
    + pose proof (inv_written _ _ _ _ H). rewrite length_app. lia.
    + exact (inv_read _ _ _ _ H).
    + exact (inv_k _ _ _ _ H).
    + exact (inv_alloc _ _ _ _ H).
    + exact (inv_reset _ _ _ _ H).
    + exact (inv_min _ _ _ _ H).
    + rewrite length_app. lia.
    + exact (inv_max _ _ _ _ H).
    + exact (inv_nonneg _ _ _ _ H).
    + exact (inv_block _ _ _ _ H).
    + exact (inv_sizes _ _ _ _ H).
    + exact (inv_garea _ _ _ _ H).
  - assert (Er : resetting sb = false) by exact En.
    destruct (inv_gptr _ _ _ _ H Er) as (Hg & Hs & Hl).
    constructor; simpl; try exact (inv_chain _ _ _ _ H).
    + exact (inv_pbase _ _ _ _ H).
    + exact (inv_epptr _ _ _ _ H).
    + lia.
    + left. reflexivity.
    + intros _. repeat split; try lia; try assumption.
      intros Hnext. specialize (Hs Hnext). lia.
    + rewrite (inv_data _ _ _ _ H), <- app_assoc. f_equal.
      rewrite <- Hdata. unfold pending, read_position, resetting. simpl.
      replace (pptr sb + Z.of_nat (length bytes) =? nullptr) with false
        by (symmetry; apply Z.eqb_neq; unfold nullptr; lia).
      rewrite En. reflexivity.
    + pose proof (inv_written _ _ _ _ H). rewrite length_app. lia.
    + exact (inv_read _ _ _ _ H).
    + exact (inv_k _ _ _ _ H).
    + exact (inv_alloc _ _ _ _ H).
    + exact (inv_reset _ _ _ _ H).
    + exact (inv_min _ _ _ _ H).
    + rewrite length_app. lia.
    + exact (inv_max _ _ _ _ H).
    + exact (inv_nonneg _ _ _ _ H).
    + exact (inv_block _ _ _ _ H).
    + exact (inv_sizes _ _ _ _ H).
    + exact (inv_garea _ _ _ _ H).
Qed.

(** A new block linked behind a full put area. *)
Lemma new_block_inv (sb : StreamBuf) (W R : list ascii) (k : Z)
    (block_size : Z) :
  Inv sb W R k -> pptr sb = epptr sb ->
  m_minimum_block_size sb <= block_size <= 2 ^ 62 ->
  m_total_allocated sb - m_total_freed sb + block_size
    <= m_max_allocated_block_size sb ->
  let new_block := new_MemoryBlock block_size (chain sb) in
  let sb1 := set_m_total_allocated (m_total_allocated sb + block_size) sb in
  let start := block_start new_block in
  Inv (setp start (start + block_size) (link_block new_block sb1)) W R k.
Proof.
  intros H Hfull [Hbsmin Hbs'] Hmax. cbv zeta.
  assert (Hbs : 0 <= block_size)
    by (pose proof (inv_min _ _ _ _ H); lia).
  remember (new_MemoryBlock block_size (chain sb)) as nb eqn:Enb.
  assert (Hok : chain_ok (chain sb ++ [nb])).
  { rewrite Enb. apply chain_ok_create;
      [exact (inv_chain _ _ _ _ H) | exact Hbs]. }
  assert (Hnb : 0 < block_start nb).
  { destruct (malloc_fresh (chain sb) (sizeof_MemoryBlock + block_size)
                ltac:(lia)) as (Hpos & _).
    rewrite Enb. unfold block_start, new_MemoryBlock. simpl. lia. }
  assert (Hlast : last (m_next_chain sb ++ [nb]) (m_get_area_block_node sb)
                  = nb) by apply last_last.
  assert (Hsize : get_size nb = block_size) by (rewrite Enb; reflexivity).
  clear Enb.
  unfold setp, link_block, sync_egptr, std_setp. simpl.
  destruct (m_next_egptr sb =? nullptr) eqn:En.
  - apply Z.eqb_eq in En.
    constructor; unfold m_put_area_block_node, chain, resetting in *; simpl.
    + exact Hok.
    + rewrite Hlast. reflexivity.
    + rewrite Hlast. unfold block_end. rewrite Hsize. reflexivity.
    + lia.
    + right. split; [exact En | reflexivity].
    + rewrite En. discriminate.
    + rewrite (inv_data _ _ _ _ H). f_equal.
      unfold pending, read_position, resetting. simpl. rewrite En.
      rewrite chain_data_snoc.
      fold (m_put_area_block_node sb).
      rewrite <- (inv_epptr _ _ _ _ H), Hfull. reflexivity.
    + pose proof (inv_written _ _ _ _ H). lia.
    + exact (inv_read _ _ _ _ H).
    + exact (inv_k _ _ _ _ H).
    + pose proof (inv_alloc _ _ _ _ H) as Ha. unfold chain in Ha.
      change (total_size (m_get_area_block_node sb :: m_next_chain sb))
        with (get_size (m_get_area_block_node sb)
              + total_size (m_next_chain sb)) in Ha.
      try rewrite total_size_app.
      change (total_size [nb]) with (get_size nb + 0).
      rewrite ?Hsize. lia.
    + exact (inv_reset _ _ _ _ H).
    + exact (inv_min _ _ _ _ H).
    + pose proof (inv_span _ _ _ _ H). lia.
    + pose proof (inv_max _ _ _ _ H). lia.
    + exact (inv_nonneg _ _ _ _ H).
    + lia.
    + change (m_get_area_block_node sb :: m_next_chain sb ++ [nb])
        with (chain sb ++ [nb]).
      apply Forall_app. split; [exact (inv_sizes _ _ _ _ H)|].
      constructor; [rewrite Hsize; exact Hbsmin | constructor].
    + exact (inv_garea _ _ _ _ H).
  - assert (Er : resetting sb = false) by exact En.
    destruct (inv_gptr _ _ _ _ H Er) as (Hg & Hs & Hl).
    constructor; unfold m_put_area_block_node, chain, resetting in *; simpl.
    + exact Hok.
    + rewrite Hlast. reflexivity.
    + rewrite Hlast. unfold block_end. rewrite Hsize. reflexivity.
    + lia.
    + left. reflexivity.
    + intros _. split; [exact Hg|]. split; [|exact Hl].
      intros Hnil. apply app_eq_nil in Hnil. destruct Hnil; discriminate.
    + rewrite (inv_data _ _ _ _ H). f_equal.
      unfold pending, read_position, resetting. simpl.
      replace (block_start nb =? nullptr) with false
        by (symmetry; apply Z.eqb_neq; unfold nullptr; lia).
      rewrite En. rewrite chain_data_snoc.
      fold (m_put_area_block_node sb).
      rewrite <- (inv_epptr _ _ _ _ H), Hfull. reflexivity.
    + pose proof (inv_written _ _ _ _ H). lia.
    + exact (inv_read _ _ _ _ H).
    + exact (inv_k _ _ _ _ H).
    + pose proof (inv_alloc _ _ _ _ H) as Ha. unfold chain in Ha.
      change (total_size (m_get_area_block_node sb :: m_next_chain sb))
        with (get_size (m_get_area_block_node sb)
              + total_size (m_next_chain sb)) in Ha.
      try rewrite total_size_app.
      change (total_size [nb]) with (get_size nb + 0).
      rewrite ?Hsize. lia.
    + exact (inv_reset _ _ _ _ H).
    + exact (inv_min _ _ _ _ H).
    + pose proof (inv_span _ _ _ _ H). lia.
    + pose proof (inv_max _ _ _ _ H). lia.
    + exact (inv_nonneg _ _ _ _ H).
    + lia.
    + change (m_get_area_block_node sb :: m_next_chain sb ++ [nb])
        with (chain sb ++ [nb]).
      apply Forall_app. split; [exact (inv_sizes _ _ _ _ H)|].
      constructor; [rewrite Hsize; exact Hbsmin | constructor].
    + exact (inv_garea _ _ _ _ H).
Qed.

Lemma to_size_t_small (z : Z) : 0 <= z < 2 ^ 64 -> to_size_t z = z.
Proof. intros H. unfold to_size_t. apply Z.mod_small. exact H. Qed.

Lemma to_size_t_range (z : Z) : 0 <= to_size_t z < 2 ^ 64.
Proof. unfold to_size_t. apply Z.mod_pos_bound. lia. Qed.

(** What [new_block_size] returns between calls. *)
Lemma new_block_size_ok (sb : StreamBuf) (W R : list ascii) (k : Z) :
  Inv sb W R k ->
  exists d,
    m_minimum_block_size sb <= d /\
    d + sizeof_MemoryBlock <= 2 ^ 61 /\
    new_block_size sb = malloc_size (d + sizeof_MemoryBlock)
                        - sizeof_MemoryBlock /\
    d <= new_block_size sb <= 2 ^ 62 - sizeof_MemoryBlock.
Proof.
  intros H.
  destruct (inv_min _ _ _ _ H) as (Hmin & Hmin').
  pose proof (inv_written _ _ _ _ H) as Hw.
  pose proof (inv_read _ _ _ _ H) as Hr.
  pose proof (inv_k _ _ _ _ H) as Hk.
  pose proof (Inv_pending_length _ _ _ _ H) as Hp.
  pose proof (inv_span _ _ _ _ H) as Hspan.
  pose proof (inv_nonneg _ _ _ _ H) as Hnn.
  unfold new_block_size, get_data_size_upper_bound, unused_in_last_block.
  set (data := m_total_allocated sb - (epptr sb - pptr sb)
               + m_total_reset sb - m_total_read sb).
  assert (Hdata : 0 <= data /\ data + sizeof_MemoryBlock <= 2 ^ 31)
    by (unfold data; lia).
  rewrite (to_size_t_small data) by lia.
  set (d := Z.max data (m_minimum_block_size sb)).
  assert (Hd : 1 <= d /\ m_minimum_block_size sb <= d /\
               d + sizeof_MemoryBlock <= 2 ^ 61) by (unfold d; lia).
  rewrite (to_size_t_small (d + sizeof_MemoryBlock)) by lia.
  pose proof (malloc_size_rounds_up (d + sizeof_MemoryBlock) ltac:(lia)).
  rewrite to_size_t_small by lia.
  exists d. repeat split; lia.
Qed.

(** What [get_allocated_upper_bound] returns between calls. *)
Lemma get_allocated_upper_bound_ok (sb : StreamBuf) (W R : list ascii)
    (k : Z) :
  Inv sb W R k ->
  get_allocated_upper_bound sb = m_total_allocated sb - m_total_freed sb /\
  0 <= m_total_allocated sb - m_total_freed sb <= 2 ^ 31 + 2 ^ 62.
Proof.
  intros H.
  pose proof (inv_alloc _ _ _ _ H) as Ha.
  pose proof (total_size_nonneg _ (inv_chain _ _ _ _ H)) as Hts.
  pose proof (inv_written _ _ _ _ H) as Hw.
  pose proof (inv_span _ _ _ _ H) as Hspan.
  pose proof (inv_nonneg _ _ _ _ H) as Hnn.
  pose proof (inv_reset _ _ _ _ H) as Hreset.
  pose proof (inv_block _ _ _ _ H) as Hblock.
  pose proof (inv_pptr _ _ _ _ H) as Hpp.
  assert (Hb : 0 <= m_total_allocated sb - m_total_freed sb
               <= 2 ^ 31 + 2 ^ 62) by lia.
  split; [|exact Hb]. unfold get_allocated_upper_bound.
  apply to_size_t_small. lia.
Qed.

(** The block size that [overflow_a] and [xsputn_a] settle on passes
    the [ASSERT] of [MemoryBlock::create], fits [size_t] with its
    header, and keeps the blocks in use within
    [m_max_allocated_block_size]. *)
Lemma choose_block_size_ok (sb : StreamBuf) (W R : list ascii) (k : Z)
    (block_size : Z) :
  Inv sb W R k ->
  choose_block_size sb = Some block_size ->
  1 <= block_size /\
  m_minimum_block_size sb <= block_size <= 2 ^ 62 /\
  sizeof_MemoryBlock + block_size < 2 ^ 64 /\
  create_ASSERT block_size = true /\
  m_total_allocated sb - m_total_freed sb + block_size
    <= m_max_allocated_block_size sb.
Proof.
  intros H. unfold choose_block_size.
  destruct (inv_min _ _ _ _ H) as (Hmin & Hmin').
  destruct (new_block_size_ok _ _ _ _ H) as (d & Hd1 & Hd2 & Enew & Hnew).
  destruct (get_allocated_upper_bound_ok _ _ _ _ H) as (Eub & Hub).
  destruct (inv_max _ _ _ _ H) as (Hmax & Hmax').
  pose proof (inv_span _ _ _ _ H) as Hspan.
  rewrite Eub.
  rewrite (to_size_t_small (m_total_allocated sb - m_total_freed sb
                            + new_block_size sb)) by lia.
  destruct (m_total_allocated sb - m_total_freed sb + new_block_size sb
            >? m_max_allocated_block_size sb) eqn:Etest.
  - rewrite Z.gtb_ltb in Etest. apply Z.ltb_lt in Etest.
    set (x := m_max_allocated_block_size sb
              - (m_total_allocated sb - m_total_freed sb)
              + sizeof_MemoryBlock).
    assert (Hx : sizeof_MemoryBlock <= x < 2 ^ 64) by (unfold x; lia).
    rewrite (to_size_t_small x) by lia.
    pose proof (max_malloc_size_fits x Hx) as Hfit.
    pose proof (max_malloc_size_ASSERT x Hx) as Hassert.
    rewrite (to_size_t_small (max_malloc_size x - sizeof_MemoryBlock))
      by lia.
    destruct (max_malloc_size x - sizeof_MemoryBlock
              <? m_minimum_block_size sb) eqn:E; [discriminate|].
    apply Z.ltb_ge in E.
    intros Hs. injection Hs as <-.
    repeat split; try lia. exact Hassert.
  - rewrite Z.gtb_ltb in Etest. apply Z.ltb_ge in Etest.
    intros Hs. injection Hs as <-.
    repeat split; try lia.
    rewrite Enew. apply malloc_size_ASSERT. lia.
Qed.

(** How many passes of the loop of [xsputn_a] a call needs. *)
Definition xsputn_a_need (s : list ascii) (sb : StreamBuf) : nat :=
  match s with
  | [] => 1
  | _ => length s +
         (if (pptr sb =? pbase sb) && (pptr sb <? epptr sb) then 1 else 2)
  end.

Lemma xsputn_a_loop_inv (R : list ascii) (k : Z) :
  forall (fuel : nat) (s : list ascii) (sb : StreamBuf) (W : list ascii),
    Inv sb W R k ->
    Z.of_nat (length W) + Z.of_nat (length s) + sizeof_MemoryBlock
      <= 2 ^ 31 ->
    (xsputn_a_need s sb <= fuel)%nat ->
    exists eof rest sb' pre,
      xsputn_a_loop fuel s sb = Ok (eof, rest, sb') /\
      s = pre ++ rest /\
      Inv sb' (W ++ pre) R k /\
      (eof = false -> rest = []).
Proof.
  induction fuel as [|fuel IH]; intros s sb W H HW Hfuel.
  { destruct s; simpl in Hfuel; lia. }
  simpl. destruct s as [|x s'] eqn:Es.
  { simpl. exists false, [], sb, []. rewrite (app_nil_r W).
    split; [reflexivity|]. split; [reflexivity|]. split; [exact H|].
    reflexivity. }
  rewrite <- Es in *.
  assert (Hlen : (0 < length s)%nat) by (rewrite Es; simpl; lia).
  replace (Z.of_nat (length s) >? 0) with true
    by (symmetry; apply Z.gtb_lt; lia).
  destruct (update_put_area_inv _ _ _ _ H)
    as (cp & av & sb1 & Hupa & Hcp & Hav & H1 & Hfresh & Hpb & Hep).
  rewrite Hupa. clear Hupa.
  pose proof (inv_pptr _ _ _ _ H1) as Hpp1.
  (* the copy into the current block *)
  set (len := Z.min av (Z.of_nat (length s))).
  set (bytes := firstn (Z.to_nat len) s).
  assert (Hcopy : exists s2 sb2 pre,
    (if av >? 0
     then (skipn (Z.to_nat len) s,
           pbump len (set_mem (memcpy_in cp bytes (mem sb1)) sb1))
     else (s, sb1)) = (s2, sb2) /\
    s = pre ++ s2 /\ Inv sb2 (W ++ pre) R k /\
    (s2 <> [] -> pptr sb2 = epptr sb2) /\
    (length s2 <= length s)%nat /\
    (av > 0 -> (length s2 < length s)%nat) /\
    (av <= 0 -> sb2 = sb1)).
  { destruct (av >? 0) eqn:Eav.
    - apply Z.gtb_lt in Eav.
      assert (Hlb : Z.of_nat (length bytes) = len).
      { unfold bytes. rewrite length_firstn. unfold len. lia. }
      exists (skipn (Z.to_nat len) s),
        (pbump len (set_mem (memcpy_in cp bytes (mem sb1)) sb1)), bytes.
      split; [reflexivity|]. split; [symmetry; apply firstn_skipn|].
      split; [|split; [|split; [|split]]].
      + rewrite <- Hlb, Hcp. apply write_inv; [exact H1| |].
        * rewrite Hlb. unfold len. lia.
        * rewrite Hlb. unfold len. lia.
      + intros Hne. 
        assert (Hsk : (0 < length (skipn (Z.to_nat len) s))%nat).
        { destruct (skipn (Z.to_nat len) s); [congruence | simpl; lia]. }
        rewrite length_skipn in Hsk.
        rewrite pbump_small by (unfold len; lia).
        unfold sync_egptr. simpl.
        destruct (m_next_egptr sb1 =? nullptr); simpl; unfold len in *; lia.
      + rewrite length_skipn. lia.
      + intros _. rewrite length_skipn. unfold len. lia.
      + lia.
    - rewrite Z.gtb_ltb in Eav. apply Z.ltb_ge in Eav.
      exists s, sb1, []. rewrite (app_nil_r W).
      split; [reflexivity|]. split; [reflexivity|]. split; [exact H1|].
      split; [intros _; lia|]. split; [lia|]. split; [lia|]. reflexivity. }
  destruct Hcopy as (s2 & sb2 & pre & -> & Hs & H2 & Hfull & Hle & Hlt & Hsame).
  destruct s2 as [|y s2'] eqn:Es2.
  - (* everything was written *)
    simpl. destruct fuel as [|fuel].
    { exfalso. unfold xsputn_a_need in Hfuel. rewrite Es in Hfuel.
      rewrite <- Es in Hfuel.
      destruct ((pptr sb =? pbase sb) && (pptr sb <? epptr sb)); lia. }
    simpl. exists false, [], sb2, pre.
    split; [reflexivity|]. split; [exact Hs|]. split; [exact H2|].
    reflexivity.
  - rewrite <- Es2 in *.
    assert (Hlen2 : (0 < length s2)%nat) by (rewrite Es2; simpl; lia).
    replace (Z.of_nat (length s2) >? 0) with true
      by (symmetry; apply Z.gtb_lt; lia).
    assert (HW2 : Z.of_nat (length (W ++ pre)) + Z.of_nat (length s2)
                  + sizeof_MemoryBlock <= 2 ^ 31).
    { rewrite length_app.
      assert (length s = length pre + length s2)%nat
        by (rewrite Hs at 1; apply length_app).
      lia. }
    destruct (choose_block_size sb2) as [block_size|] eqn:Ebs.
    + destruct (choose_block_size_ok _ _ _ _ _ H2 Ebs)
        as (Hbs & Hbs' & Hfit & Hassert & Hmax).
      assert (Hnew := new_block_inv sb2 (W ++ pre) R k block_size H2
                        (Hfull ltac:(rewrite Es2; discriminate))
                        ltac:(lia) Hmax).
      rewrite create_memory_block_ok by (assumption || lia).
      cbv zeta in Hnew.
      destruct (IH s2 _ (W ++ pre) Hnew HW2)
        as (eof & rest & sb' & pre' & Hloop & Hs2 & H' & Heof).
      { unfold xsputn_a_need. rewrite Es2. rewrite <- Es2.
        unfold setp, std_setp. simpl. rewrite Z.eqb_refl.
        match goal with
        | |- context [?a <? ?a + block_size] =>
            replace (a <? a + block_size) with true
              by (symmetry; apply Z.ltb_lt; lia)
        end.
        simpl. unfold xsputn_a_need in Hfuel. rewrite Es in Hfuel.
        rewrite <- Es in Hfuel.
        destruct (Z.le_gt_cases av 0) as [Hav0 | Hav0].
        - destruct ((pptr sb =? pbase sb) && (pptr sb <? epptr sb)) eqn:Ef.
          + exfalso. apply andb_true_iff in Ef. destruct Ef as [Ef1 Ef2].
            apply Z.eqb_eq in Ef1. apply Z.ltb_lt in Ef2.
            rewrite (Hfresh Ef1) in *. lia.
          + lia.
        - specialize (Hlt ltac:(lia)).
          destruct ((pptr sb =? pbase sb) && (pptr sb <? epptr sb)); lia. }
      exists eof, rest, sb', (pre ++ pre').
      split; [exact Hloop|]. split; [|split; [|exact Heof]].
      * rewrite <- app_assoc, <- Hs2. exact Hs.
      * rewrite app_assoc. exact H'.
    + exists true, s2, sb2, pre.
      split; [reflexivity|]. split; [exact Hs|]. split; [exact H2|].
      discriminate.
Qed.

Lemma overflow_a_inv (c : Z) (sb : StreamBuf) (W R : list ascii)
    (k : Z) :
  Inv sb W R k ->
  Z.of_nat (length W) + 1 + sizeof_MemoryBlock <= 2 ^ 31 ->
  exists ret sb',
    overflow_a c sb = Ok (ret, sb') /\
    Inv sb' (W ++ (if (c =? EOF) || (ret =? EOF) then [] else [to_char c]))
        R k.
Proof.
  intros H HW. unfold overflow_a.
  destruct (c =? EOF) eqn:Ec.
  { exists 0, sb. split; [reflexivity|]. simpl. rewrite app_nil_r. exact H. }
  destruct (update_put_area_inv _ _ _ _ H)
    as (cp & av & sb1 & Hupa & Hcp & Hav & H1 & _ & _ & _).
  rewrite Hupa. clear Hupa.
  pose proof (inv_pptr _ _ _ _ H1) as Hpp1.
  destruct (av =? 0) eqn:Eav.
  - apply Z.eqb_eq in Eav.
    destruct (choose_block_size sb1) as [block_size|] eqn:Ebs.
    + destruct (choose_block_size_ok _ _ _ _ _ H1 Ebs)
        as (Hbs & Hbs' & Hfit & Hassert & Hmax).
      assert (Hnew := new_block_inv sb1 W R k block_size H1 ltac:(lia)
                        ltac:(lia) Hmax).
      rewrite create_memory_block_ok by (assumption || lia).
      cbv zeta in Hnew.
      remember (new_MemoryBlock block_size (chain sb1)) as nb eqn:Enb.
      set (X := setp (block_start nb) (block_start nb + block_size)
                  (link_block nb
                     (set_m_total_allocated
                        (m_total_allocated sb1 + block_size) sb1))) in *.
      assert (Hw := write_inv X W R k [to_char c] Hnew).
      assert (HpX : pptr X = block_start nb) by reflexivity.
      assert (Hnb : block_start nb <> nullptr).
      { destruct (Inv_put_block _ _ _ _ Hnew) as (Hp & _).
        pose proof (inv_pptr _ _ _ _ Hnew). unfold nullptr. lia. }
      exists 0. eexists. split; [reflexivity|]. simpl.
      match goal with
      | |- Inv ?a _ _ _ =>
          replace a with
            (pbump (Z.of_nat (length [to_char c]))
               (set_mem (memcpy_in (pptr X) [to_char c] (mem X)) X))
      end.
      * apply Hw; [|simpl; lia].
        rewrite HpX. unfold X, setp, std_setp. simpl. lia.
      * unfold X, setp_pbump, pbump, setp, sync_egptr, std_pbump, std_setp,
          link_block. simpl. rewrite !to_int_1. simpl.
        destruct (m_next_egptr sb1 =? nullptr) eqn:En; simpl.
        -- rewrite En. reflexivity.
        -- apply Z.eqb_neq in Hnb. rewrite Hnb. reflexivity.
    + exists EOF, sb1. split; [reflexivity|]. simpl.
      rewrite app_nil_r. exact H1.
  - apply Z.eqb_neq in Eav.
    exists 0. eexists. split; [reflexivity|]. simpl.
    rewrite Hcp. apply (write_inv sb1 W R k [to_char c] H1); simpl; lia.
Qed.

(** ** The consumer keeps the invariant *)

(** What the get area can give without leaving its block. *)
Definition get_available (sb : StreamBuf) : Z :=
  match m_next_chain sb with
  | [] => pptr sb
  | _ => block_end (m_get_area_block_node sb)
  end - gptr sb.

Lemma update_get_area_loop_gptr (next_egptr : Z) :
  forall (next : list MemoryBlock) (node : MemoryBlock) (cur_gptr g : Z)
         (sb : StreamBuf),
    update_get_area_loop next node next_egptr cur_gptr (set_gptr g sb) =
    update_get_area_loop next node next_egptr cur_gptr sb.
Proof.
  induction next as [|b rest IH]; intros node cur_gptr g sb.
  - reflexivity.
  - simpl.
    destruct (negb ((if (block_start node <=? next_egptr)
                        && (next_egptr <=? block_start node + get_size node)
                     then next_egptr
                     else block_start node + get_size node)
                    - cur_gptr =? 0)); [reflexivity|].
    destruct ((block_start node <=? next_egptr)
              && (next_egptr <=? block_start node + get_size node));
      [reflexivity|].
    exact (IH b (block_start b) g
             (set_m_total_freed (m_total_freed sb + get_size node)
                (store_last_gptr (block_start b)
                   (set_get_area_block_node b rest sb)))).
Qed.

Lemma Inv_setg (sb : StreamBuf) (W R : list ascii) (k : Z) (eb eg : Z) :
  Inv sb W R k -> Inv (setg eb (gptr sb) eg sb) W R k.
Proof. intros H. destruct H. constructor; assumption. Qed.

(** The consumer takes the reset. *)
Lemma take_reset_inv (sb : StreamBuf) (W R : list ascii) (k : Z) :
  Inv sb W R k -> resetting sb = true ->
  let start := block_start (m_get_area_block_node sb) in
  let sb' := set_gptr start
               (set_m_next_egptr (m_next_egptr2 sb)
                  (set_m_last_gptr start sb)) in
  Inv sb' W R k /\ resetting sb' = false /\ m_next_egptr sb' = pptr sb'.
Proof.
  intros H Hres start sb'.
  assert (Hn : m_next_egptr sb = nullptr) by (apply Z.eqb_eq; exact Hres).
  destruct (inv_sync _ _ _ _ H) as [Hs | [_ Hs]].
  { destruct (Inv_put_block _ _ _ _ H) as (Hp & _).
    pose proof (inv_pptr _ _ _ _ H). unfold nullptr in *. lia. }
  destruct (Inv_put_block _ _ _ _ H) as (Hp & _).
  pose proof (inv_pptr _ _ _ _ H) as Hpp.
  assert (Hr' : resetting sb' = false).
  { unfold resetting, sb'. simpl. rewrite Hs. apply Z.eqb_neq.
    unfold nullptr. lia. }
  split; [|split; [exact Hr' | exact Hs]].
  pose proof (inv_chain _ _ _ _ H) as Hok. simpl in Hok.
  constructor; try exact (inv_chain _ _ _ _ H); unfold sb'; simpl.
  - exact (inv_pbase _ _ _ _ H).
  - exact (inv_epptr _ _ _ _ H).
  - exact Hpp.
  - left. exact Hs.
  - intros _. unfold block_end. fold start. split; [lia|]. split; [|right; lia].
    intros Hnil. rewrite (inv_pbase _ _ _ _ H) in Hpp.
    unfold m_put_area_block_node in Hpp. rewrite Hnil in Hpp. simpl in Hpp.
    fold start in Hpp. lia.
  - rewrite (inv_data _ _ _ _ H). f_equal.
    unfold pending, read_position. fold sb'. rewrite Hr', Hres. reflexivity.
  - exact (inv_written _ _ _ _ H).
  - exact (inv_read _ _ _ _ H).
  - exact (inv_k _ _ _ _ H).
  - exact (inv_alloc _ _ _ _ H).
  - exact (inv_reset _ _ _ _ H).
  - exact (inv_min _ _ _ _ H).
  - exact (inv_span _ _ _ _ H).
  - exact (inv_max _ _ _ _ H).
  - exact (inv_nonneg _ _ _ _ H).
  - exact (inv_block _ _ _ _ H).
  - exact (inv_sizes _ _ _ _ H).
  - unfold block_end. fold start. lia.
Qed.

(** The get area moves on to the next block when the block it is in is
    read to its end. *)
Lemma next_block_inv (sb : StreamBuf) (W R : list ascii) (k : Z)
    (b : MemoryBlock) (rest : list MemoryBlock) :
  Inv sb W R k -> resetting sb = false ->
  m_next_chain sb = b :: rest ->
  gptr sb = block_end (m_get_area_block_node sb) ->
  let sb' := set_gptr (block_start b)
               (set_m_total_freed
                  (m_total_freed sb + get_size (m_get_area_block_node sb))
                  (store_last_gptr (block_start b)
                     (set_get_area_block_node b rest sb))) in
  Inv sb' W R k /\ resetting sb' = false.
Proof.
  intros H Hres Hnext Hg sb'.
  assert (Hr' : resetting sb' = false) by exact Hres.
  split; [|exact Hr'].
  pose proof (inv_chain _ _ _ _ H) as Hok. unfold chain in Hok.
  rewrite Hnext in Hok.
  assert (Hput : m_put_area_block_node sb' = m_put_area_block_node sb).
  { unfold m_put_area_block_node, sb'. simpl. rewrite Hnext.
    symmetry. apply last_cons. }
  assert (Hokb := chain_ok_tail _ _ Hok).
  constructor; try (unfold sb'; simpl).
  - exact Hokb.
  - fold sb'. rewrite Hput. exact (inv_pbase _ _ _ _ H).
  - fold sb'. rewrite Hput. exact (inv_epptr _ _ _ _ H).
  - exact (inv_pptr _ _ _ _ H).
  - exact (inv_sync _ _ _ _ H).
  - intros _. simpl in Hokb. unfold block_end.
    split; [lia|]. split; [|right; lia].
    intros Hnil. subst rest.
    pose proof (inv_pbase _ _ _ _ H) as Hpb.
    pose proof (inv_pptr _ _ _ _ H) as Hpp.
    unfold m_put_area_block_node in Hpb. rewrite Hnext in Hpb.
    simpl in Hpb. lia.
  - rewrite (inv_data _ _ _ _ H). f_equal.
    unfold pending, read_position. fold sb'. rewrite Hr', Hres.
    rewrite Hnext, Hg. simpl.
    replace (Z.to_nat _) with 0%nat by lia. reflexivity.
  - exact (inv_written _ _ _ _ H).
  - exact (inv_read _ _ _ _ H).
  - exact (inv_k _ _ _ _ H).
  - pose proof (inv_alloc _ _ _ _ H) as Ha. unfold chain in Ha.
    rewrite Hnext in Ha.
    unfold chain, total_size in *. simpl in *. lia.
  - pose proof (inv_reset _ _ _ _ H). simpl in Hok. lia.
  - exact (inv_min _ _ _ _ H).
  - exact (inv_span _ _ _ _ H).
  - pose proof (inv_max _ _ _ _ H). simpl in Hok. lia.
  - pose proof (inv_nonneg _ _ _ _ H). simpl in Hok. lia.
  - fold sb'. pose proof (inv_block _ _ _ _ H) as Hb.
    rewrite (inv_pbase _ _ _ _ H), (inv_epptr _ _ _ _ H) in Hb.
    change (epptr sb') with (epptr sb). change (pbase sb') with (pbase sb).
    rewrite (inv_pbase _ _ _ _ H), (inv_epptr _ _ _ _ H). exact Hb.
  - pose proof (inv_sizes _ _ _ _ H) as Hsz. unfold chain in Hsz.
    rewrite Hnext in Hsz. exact (Forall_inv_tail Hsz).
  - simpl in Hokb. unfold block_end. lia.
Qed.

Definition is_nil {A : Type} (l : list A) : bool :=
  match l with [] => true | _ => false end.

Lemma update_get_area_loop_inv (W R : list ascii) (k : Z) :
  forall (next : list MemoryBlock) (sb : StreamBuf),
    Inv sb W R k -> resetting sb = false ->
    m_next_chain sb = next ->
    exists at_end av sb',
      update_get_area_loop next (m_get_area_block_node sb) (pptr sb)
        (gptr sb) sb = Ok (at_end, gptr sb', av, sb') /\
      Inv sb' W R k /\ resetting sb' = false /\
      av = get_available sb' /\ 0 <= av /\
      at_end = negb (is_nil (m_next_chain sb')) /\
      (at_end = true -> av <> 0) /\
      (length (m_next_chain sb') <= length next)%nat.
Proof.
  induction next as [|b rest IH]; intros sb H Hres Hnext.
  - destruct (inv_gptr _ _ _ _ H Hres) as (Hg & Hs & Hl).
    specialize (Hs Hnext).
    pose proof (inv_pptr _ _ _ _ H) as Hpp.
    pose proof (inv_pbase _ _ _ _ H) as Hpb.
    pose proof (inv_epptr _ _ _ _ H) as Hpe.
    unfold m_put_area_block_node in Hpb, Hpe. rewrite Hnext in Hpb, Hpe.
    simpl in Hpb, Hpe. unfold block_end in Hpe.
    simpl.
    replace ((block_start (m_get_area_block_node sb) <=? pptr sb)
             && (pptr sb <=? block_start (m_get_area_block_node sb)
                             + get_size (m_get_area_block_node sb)))
      with true
      by (symmetry; apply andb_true_iff; split; apply Z.leb_le; lia).
    simpl. rewrite andb_false_r.
    set (sb' := setg (block_start (m_get_area_block_node sb)) (gptr sb)
                  (pptr sb) sb).
    assert (H' : Inv sb' W R k) by (apply Inv_setg; exact H).
    assert (Hav : pptr sb - gptr sb = get_available sb')
      by (unfold get_available, sb'; simpl; rewrite Hnext; reflexivity).
    assert (Hn' : m_next_chain sb' = []) by exact Hnext.
    destruct (negb (pptr sb - gptr sb =? 0));
      exists false, (pptr sb - gptr sb), sb';
      (split; [reflexivity|]); (split; [exact H'|]);
      (split; [exact Hres|]); (split; [exact Hav|]);
      (split; [lia|]); rewrite Hn'; (split; [reflexivity|]);
      (split; [discriminate | simpl; lia]).
  - destruct (inv_gptr _ _ _ _ H Hres) as (Hg & Hs & Hl).
    pose proof (inv_pptr _ _ _ _ H) as Hpp.
    assert (Hmiss : ~ (block_start (m_get_area_block_node sb) <= pptr sb
                       <= block_end (m_get_area_block_node sb))).
    { apply (first_block_misses_last _ (b :: rest)).
      - rewrite <- Hnext. exact (inv_chain _ _ _ _ H).
      - discriminate.
      - rewrite <- Hnext. fold (m_put_area_block_node sb).
        rewrite <- (inv_pbase _ _ _ _ H), <- (inv_epptr _ _ _ _ H).
        exact Hpp. }
    unfold block_end in Hmiss, Hg.
    simpl.
    replace ((block_start (m_get_area_block_node sb) <=? pptr sb)
             && (pptr sb <=? block_start (m_get_area_block_node sb)
                             + get_size (m_get_area_block_node sb)))
      with false
      by (symmetry; apply andb_false_iff;
          destruct (Z.le_gt_cases (block_start (m_get_area_block_node sb))
                      (pptr sb));
          [right; apply Z.leb_gt; lia | left; apply Z.leb_gt; lia]).
    simpl.
    destruct (block_start (m_get_area_block_node sb)
              + get_size (m_get_area_block_node sb) - gptr sb =? 0) eqn:E0.
    + (* the block is read to its end *)
      apply Z.eqb_eq in E0. simpl.
      destruct (next_block_inv sb W R k b rest H Hres Hnext
                  ltac:(unfold block_end; lia)) as (H1 & Hres1).
      match type of H1 with
      | Inv ?x _ _ _ => set (sb1 := x) in *
      end.
      destruct (IH sb1 H1 Hres1 eq_refl)
        as (at_end & av & sb' & Hloop & H' & Hres' & Hav & Hav0 & Hat
            & Hat' & Hlen).
      exists at_end, av, sb'.
      split.
      { rewrite <- Hloop. unfold sb1.
        rewrite update_get_area_loop_gptr. reflexivity. }
      split; [exact H'|]. split; [exact Hres'|]. split; [exact Hav|].
      split; [exact Hav0|]. split; [exact Hat|]. split; [exact Hat'|].
      simpl. lia.
    + apply Z.eqb_neq in E0. simpl. rewrite Z.eqb_refl. simpl.
      set (sb' := setg (block_start (m_get_area_block_node sb)) (gptr sb)
                    (block_start (m_get_area_block_node sb)
                     + get_size (m_get_area_block_node sb)) sb).
      assert (H' : Inv sb' W R k) by (apply Inv_setg; exact H).
      exists true, (block_start (m_get_area_block_node sb)
                    + get_size (m_get_area_block_node sb) - gptr sb), sb'.
      split; [reflexivity|]. split; [exact H'|]. split; [exact Hres|].
      split; [unfold get_available, sb'; simpl; rewrite Hnext; reflexivity|].
      split; [lia|].
      assert (Hn' : m_next_chain sb' = b :: rest) by exact Hnext.
      rewrite Hn'. split; [reflexivity|]. split; [intros _; exact E0|].
      simpl. lia.
Qed.

Lemma update_get_area_inv (sb : StreamBuf) (W R : list ascii) (k : Z) :
  Inv sb W R k ->
  exists at_end av sb',
    update_get_area sb = Ok (at_end, gptr sb', av, sb') /\
    Inv sb' W R k /\ resetting sb' = false /\
    av = get_available sb' /\ 0 <= av /\
    at_end = negb (is_nil (m_next_chain sb')) /\
    (at_end = true -> av <> 0) /\
    (length (m_next_chain sb') <= length (m_next_chain sb))%nat.
Proof.
  intros H. unfold update_get_area.
  destruct (m_next_egptr sb =? nullptr) eqn:En.
  - destruct (take_reset_inv sb W R k H En) as (H1 & Hres1 & Hsync).
    match type of H1 with
    | Inv ?x _ _ _ => set (sb1 := x) in *
    end.
    destruct (update_get_area_loop_inv W R k (m_next_chain sb1) sb1 H1 Hres1
                eq_refl)
      as (at_end & av & sb' & Hloop & Hrest).
    exists at_end, av, sb'. split; [|exact Hrest].
    rewrite <- Hloop. unfold sb1 at 5.
    rewrite update_get_area_loop_gptr.
    destruct (inv_sync _ _ _ _ H) as [Hs | [_ Hs]].
    + exfalso. destruct (Inv_put_block _ _ _ _ H) as (Hp & _).
      pose proof (inv_pptr _ _ _ _ H). apply Z.eqb_eq in En.
      unfold nullptr in *. lia.
    + simpl. rewrite Hs. reflexivity.
  - destruct (update_get_area_loop_inv W R k (m_next_chain sb) sb H En
                eq_refl)
      as (at_end & av & sb' & Hloop & Hrest).
    exists at_end, av, sb'. split; [|exact Hrest].
    rewrite <- Hloop.
    destruct (inv_sync _ _ _ _ H) as [Hs | [Hs _]].
    + rewrite Hs. reflexivity.
    + apply Z.eqb_neq in En. contradiction.
Qed.

Lemma read_bytes_split (m : Z -> ascii) (p len n : Z) :
  0 <= len <= n ->
  read_bytes m p (Z.to_nat n) =
  read_bytes m p (Z.to_nat len) ++ read_bytes m (p + len) (Z.to_nat (n - len)).
Proof.
  intros H.
  replace (Z.to_nat n) with (Z.to_nat len + Z.to_nat (n - len))%nat by lia.
  rewrite read_bytes_app. do 2 f_equal. lia.
Qed.

(** Bytes copied from the get pointer are read. *)
Lemma advance_gptr_inv (sb : StreamBuf) (W R : list ascii) (k len : Z) :
  Inv sb W R k -> resetting sb = false ->
  0 <= len <= get_available sb ->
  let sb' := set_gptr (gptr sb + len) sb in
  Inv sb' W (R ++ memcpy_out (mem sb) (gptr sb) len) (k + len) /\
  resetting sb' = false /\
  get_available sb' = get_available sb - len.
Proof.
  intros H Hres Hlen sb'. unfold sb'.
  destruct (inv_gptr _ _ _ _ H Hres) as (Hg & Hs & Hl).
  pose proof (inv_pptr _ _ _ _ H) as Hpp.
  split; [|split; [exact Hres|]].
  - constructor; try exact (inv_chain _ _ _ _ H); simpl.
    + exact (inv_pbase _ _ _ _ H).
    + exact (inv_epptr _ _ _ _ H).
    + exact Hpp.
    + exact (inv_sync _ _ _ _ H).
    + intros _. unfold get_available in Hlen.
      destruct (m_next_chain sb) as [|b rest] eqn:En.
      * specialize (Hs eq_refl).
        pose proof (inv_epptr _ _ _ _ H) as Hpe.
        unfold m_put_area_block_node in Hpe. rewrite En in Hpe.
        simpl in Hpe.
        split; [lia|]. split; [intros _; lia|].
        destruct Hl as [Hl | Hl]; [left; exact Hl | right; lia].
      * split; [lia|]. split; [discriminate|].
        destruct Hl as [Hl | Hl]; [left; exact Hl | right; lia].
    + rewrite (inv_data _ _ _ _ H), <- app_assoc. f_equal.
      unfold pending, read_position, memcpy_out.
      change (resetting (set_gptr (gptr sb + len) sb)) with (resetting sb).
      rewrite Hres. simpl. unfold get_available in Hlen.
      destruct (m_next_chain sb) as [|b rest] eqn:En; simpl.
      * rewrite (read_bytes_split _ _ len) by lia.
        do 2 f_equal. lia.
      * rewrite app_assoc. f_equal.
        rewrite (read_bytes_split _ _ len) by lia.
        do 2 f_equal. lia.
    + exact (inv_written _ _ _ _ H).
    + pose proof (inv_read _ _ _ _ H). rewrite length_app.
      unfold memcpy_out. rewrite read_bytes_length. lia.
    + pose proof (inv_k _ _ _ _ H). lia.
    + exact (inv_alloc _ _ _ _ H).
    + exact (inv_reset _ _ _ _ H).
    + exact (inv_min _ _ _ _ H).
    + exact (inv_span _ _ _ _ H).
    + exact (inv_max _ _ _ _ H).
    + exact (inv_nonneg _ _ _ _ H).
    + exact (inv_block _ _ _ _ H).
    + exact (inv_sizes _ _ _ _ H).
    + unfold get_available in Hlen.
      destruct (m_next_chain sb) as [|b rest] eqn:En; [|lia].
      pose proof (inv_epptr _ _ _ _ H) as Hpe.
      unfold m_put_area_block_node in Hpe. rewrite En in Hpe.
      simpl in Hpe. lia.
  - unfold get_available. simpl.
    destruct (m_next_chain sb); lia.
Qed.

(** No more is in the get area than was written: a length taken from
    it fits an [int]. *)
Lemma get_available_int (sb : StreamBuf) (W R : list ascii) (k len : Z) :
  Inv sb W R k -> resetting sb = false ->
  0 <= len <= get_available sb ->
  len < 2 ^ 31.
Proof.
  intros H Hres Hlen.
  destruct (advance_gptr_inv sb W R k len H Hres Hlen) as (H' & _ & _).
  pose proof (Inv_pending_length _ _ _ _ H') as Hp.
  pose proof (inv_span _ _ _ _ H') as Hspan.
  rewrite length_app in Hp. unfold memcpy_out in Hp.
  rewrite read_bytes_length in Hp. lia.
Qed.

Lemma consume_inv (sb : StreamBuf) (W R : list ascii) (k len : Z) :
  Inv sb W R k -> resetting sb = false ->
  0 <= len <= get_available sb ->
  Inv (gbump len sb) W (R ++ memcpy_out (mem sb) (gptr sb) len) (k + len) /\
  resetting (gbump len sb) = false /\
  get_available (gbump len sb) = get_available sb - len /\
  gbump len sb = set_gptr (gptr sb + len) sb.
Proof.
  intros H Hres Hlen.
  pose proof (get_available_int sb W R k len H Hres Hlen) as Hint.
  rewrite gbump_small by lia.
  destruct (advance_gptr_inv sb W R k len H Hres Hlen) as (H' & Hr' & Ha').
  split; [exact H'|]. split; [exact Hr'|]. split; [exact Ha' | reflexivity].
Qed.

(** A get area that has caught up with the put pointer leaves nothing
    pending. *)
Lemma drained (sb : StreamBuf) (W R : list ascii) (k : Z) :
  Inv sb W R k -> resetting sb = false ->
  m_next_chain sb = [] -> get_available sb = 0 ->
  pending sb = [].
Proof.
  intros H Hres Hnext Hav. unfold pending, read_position.
  rewrite Hres, Hnext. simpl. unfold get_available in Hav.
  rewrite Hnext in Hav. replace (Z.to_nat _) with 0%nat by lia. reflexivity.
Qed.

Lemma store_last_gptr_inv (sb : StreamBuf) (W R : list ascii) (k p : Z) :
  Inv sb W R k -> resetting sb = false -> p = gptr sb ->
  Inv (store_last_gptr p sb) W R k /\
  resetting (store_last_gptr p sb) = false /\
  pending (store_last_gptr p sb) = pending sb.
Proof.
  intros H Hres ->. split; [|split; [exact Hres | reflexivity]].
  destruct (inv_gptr _ _ _ _ H Hres) as (Hg & Hs & Hl).
  destruct H. constructor; try assumption.
  intros _. unfold store_last_gptr. simpl.
  split; [exact Hg|]. split; [exact Hs|]. right. lia.
Qed.

Lemma commit_total_read (sb : StreamBuf) (W R : list ascii) (k v : Z) :
  Inv sb W R k -> v = m_total_read sb + k ->
  Inv (set_m_total_read v sb) W R 0.
Proof.
  intros H ->. pose proof (inv_read _ _ _ _ H) as Hr.
  destruct H. constructor; try assumption; simpl; lia.
Qed.

(** How many passes of the loop of [xsgetn_a] a call needs. *)
Definition xsgetn_a_need (remaining : Z) (sb : StreamBuf) : nat :=
  if remaining >? 0 then S (S (length (m_next_chain sb))) else 1.

Lemma xsgetn_a_loop_inv (W R0 : list ascii) :
  forall (fuel : nat) (remaining : Z) (out : list ascii) (sb : StreamBuf)
         (k : Z),
    Inv sb W (R0 ++ out) k ->
    (xsgetn_a_need remaining sb <= fuel)%nat ->
    exists remaining' more sb',
      xsgetn_a_loop fuel remaining out sb = Ok (remaining', out ++ more, sb')
      /\ Inv sb' W (R0 ++ out ++ more) (k + Z.of_nat (length more))
      /\ (remaining <= 0 -> remaining' = remaining /\ more = [])
      /\ (0 < remaining ->
          0 <= remaining' /\
          remaining' = remaining - Z.of_nat (length more))
      /\ (0 < remaining' -> pending sb' = []).
Proof.
  induction fuel as [|fuel IH]; intros remaining out sb k H Hfuel.
  { unfold xsgetn_a_need in Hfuel. destruct (remaining >? 0); lia. }
  simpl. unfold xsgetn_a_need in Hfuel.
  destruct (remaining >? 0) eqn:Erem.
  2:{ rewrite Z.gtb_ltb in Erem. apply Z.ltb_ge in Erem.
      exists remaining, [], sb. rewrite !app_nil_r. simpl length.
      change (Z.of_nat 0) with 0. rewrite (Z.add_0_r k).
      split; [reflexivity|]. split; [exact H|].
      split; [auto|]. split; [lia|]. lia. }
  apply Z.gtb_lt in Erem.
  destruct (update_get_area_inv _ _ _ _ H)
    as (at_end & av & sb1 & Huga & H1 & Hres1 & Hav & Hav0 & Hat & Hat'
        & Hlen1).
  rewrite Huga. clear Huga.
  replace (av <? 0) with false by (symmetry; apply Z.ltb_ge; lia).
  destruct (av =? 0) eqn:Eav; simpl.
  - (* nothing in the get area *)
    apply Z.eqb_eq in Eav.
    assert (Hat0 : at_end = false).
    { destruct at_end; [|reflexivity]. exfalso. apply Hat'; auto. }
    rewrite Hat0 in *. simpl. rewrite Eav. simpl.
    destruct (store_last_gptr_inv sb1 W (R0 ++ out) k (gptr sb1 + 0) H1 Hres1
                ltac:(lia)) as (H2 & _ & Hp2).
    exists remaining, [], (store_last_gptr (gptr sb1 + 0) sb1).
    rewrite !app_nil_r. simpl length.
      change (Z.of_nat 0) with 0. rewrite (Z.add_0_r k).
    split; [reflexivity|]. split; [exact H2|]. split; [lia|].
    split; [lia|]. intros _. rewrite Hp2.
    apply (drained sb1 W (R0 ++ out) k H1 Hres1); [|lia].
    destruct (m_next_chain sb1); [reflexivity | discriminate].
  - apply Z.eqb_neq in Eav.
    set (len := Z.min av remaining) in *.
    assert (Hlen : 1 <= len <= av /\ len <= remaining) by (unfold len; lia).
    set (bytes := memcpy_out (mem sb1) (gptr sb1) len).
    assert (Hbl : Z.of_nat (length bytes) = len)
      by (unfold bytes, memcpy_out; rewrite read_bytes_length; lia).
    destruct (consume_inv sb1 W (R0 ++ out) k len H1 Hres1 ltac:(lia))
      as (H2 & Hres2 & Hav2 & Egb).
    fold bytes in H2. rewrite <- app_assoc in H2.
    destruct at_end; simpl.
    + (* the block ends here and there is a next one *)
      destruct (av - len =? 0) eqn:E2.
      * apply Z.eqb_eq in E2.
        change (m_next_chain (gbump len sb1)) with (m_next_chain sb1).
        destruct (m_next_chain sb1) as [|b rest] eqn:En; [discriminate|].
        destruct (next_block_inv (gbump len sb1) W (R0 ++ out ++ bytes)
                    (k + len) b rest H2 Hres2 En) as (H3 & Hres3).
        { unfold get_available in Hav. rewrite En in Hav.
          rewrite Egb. simpl. lia. }
        match type of H3 with
        | Inv ?x _ _ _ => set (sb3 := x) in *
        end.
        apply (Inv_setg _ _ _ _ (block_start b) (block_start b)) in H3.
        destruct (IH (remaining - len) (out ++ bytes) _ (k + len) H3)
          as (remaining' & more & sb' & Hloop & H' & Hle & Hgt & Hpend).
        { unfold xsgetn_a_need. simpl. rewrite ?En in Hlen1. simpl in Hlen1.
          destruct (remaining - len >? 0); lia. }
        exists remaining', (bytes ++ more), sb'.
        split.
        { rewrite <- app_assoc in Hloop. rewrite <- Hloop. reflexivity. }
        split.
        { rewrite length_app, <- !app_assoc in *.
          replace (k + Z.of_nat (length bytes + length more))
            with (k + len + Z.of_nat (length more)) by lia.
          exact H'. }
        split; [lia|]. split; [|exact Hpend].
        intros _. rewrite length_app.
        destruct (Z.le_gt_cases (remaining - len) 0) as [Hz | Hz].
        -- destruct (Hle Hz) as [-> ->]. simpl. lia.
        -- destruct (Hgt ltac:(lia)) as [Hr0 Hr]. lia.
      * apply Z.eqb_neq in E2.
        assert (Hrem : remaining - len = 0) by (unfold len in *; lia).
        destruct fuel as [|fuel]; [lia|]. simpl. rewrite Hrem. simpl.
        exists 0, bytes, (gbump len sb1).
        split; [reflexivity|]. split; [rewrite Hbl; exact H2|].
        split; [lia|]. split; [lia|]. lia.
    + (* the put pointer is in this block *)
      assert (Hnil : m_next_chain sb1 = [])
        by (destruct (m_next_chain sb1); [reflexivity | discriminate]).
      destruct (store_last_gptr_inv (gbump len sb1) W (R0 ++ out ++ bytes)
                  (k + len) (gptr sb1 + len) H2 Hres2
                  ltac:(rewrite Egb; reflexivity))
        as (H3 & _ & Hp3).
      exists (remaining - len), bytes,
        (if av - len =? 0
         then store_last_gptr (gptr sb1 + len) (gbump len sb1)
         else gbump len sb1).
      split; [reflexivity|]. split.
      { rewrite Hbl. destruct (av - len =? 0); assumption. }
      split; [lia|]. split; [lia|].
      intros Hleft.
      assert (E0 : av - len = 0) by (unfold len in *; lia).
      rewrite E0. simpl. rewrite Hp3.
      apply (drained _ _ _ _ H2 Hres2); [exact Hnil | lia].
Qed.

Lemma xsgetn_a_inv (n : Z) (sb : StreamBuf) (W R : list ascii) :
  Inv sb W R 0 ->
  exists ret out sb',
    xsgetn_a n sb = Ok (ret, out, sb') /\
    Inv sb' W (R ++ out) 0 /\
    ret = Z.of_nat (length out) /\
    (Z.of_nat (length out) < n -> pending sb' = []).
Proof.
  intros H. unfold xsgetn_a.
  rewrite <- (app_nil_r R) in H.
  destruct (xsgetn_a_loop_inv W R (xsgetn_a_fuel sb) n [] sb 0 H)
    as (remaining' & more & sb' & Hloop & H' & Hle & Hgt & Hpend).
  { unfold xsgetn_a_need, xsgetn_a_fuel. destruct (n >? 0); lia. }
  rewrite Hloop. simpl in *.
  exists (n - remaining'), more, (set_m_total_read
                                    (m_total_read sb' + n - remaining') sb').
  split; [reflexivity|].
  assert (Hk : n - remaining' = Z.of_nat (length more)).
  { destruct (Z.le_gt_cases n 0) as [Hz | Hz].
    - destruct (Hle Hz) as [-> ->]. simpl. lia.
    - destruct (Hgt ltac:(lia)). lia. }
  split; [|split; [exact Hk|]].
  - apply (commit_total_read sb' W (R ++ more) (Z.of_nat (length more)));
      [exact H' | lia].
  - intros Hshort. change (pending (set_m_total_read _ sb')) with (pending sb').
    apply Hpend. lia.
Qed.

Lemma underflow_a_inv (sb : StreamBuf) (W R : list ascii) :
  Inv sb W R 0 ->
  exists ret sb', underflow_a sb = Ok (ret, sb') /\ Inv sb' W R 0.
Proof.
  intros H. unfold underflow_a.
  destruct (update_get_area_inv _ _ _ _ H)
    as (at_end & av & sb1 & Huga & H1 & Hres1 & _).
  rewrite Huga.
  destruct (av =? 0).
  - exists EOF, (store_last_gptr (gptr sb1) sb1). split; [reflexivity|].
    apply (store_last_gptr_inv sb1 W R 0 (gptr sb1) H1 Hres1 eq_refl).
  - exists 0, sb1. split; [reflexivity | exact H1].
Qed.

(** ** The constructor establishes the invariant *)

(** The buffer that the constructor returns. *)
Definition first_StreamBuf (m : Z -> ascii)
    (minimum_block_size buffer_full_watermark max_allocated_block_size : Z)
  : StreamBuf :=
  let block_size :=
    malloc_size (minimum_block_size + sizeof_MemoryBlock)
    - sizeof_MemoryBlock in
  let first := new_MemoryBlock block_size [] in
  let start := block_start first in
  let sb :=
    mkStreamBuf m nullptr nullptr nullptr nullptr nullptr nullptr
      s_next_egptr_init nullptr nullptr 0 0 false
      minimum_block_size buffer_full_watermark max_allocated_block_size
      (0 + block_size) 0 first [] in
  let sb := setp start (start + block_size) sb in
  setg start start start sb.

Lemma StreamBuf_new_ok (m : Z -> ascii)
    (minimum_block_size buffer_full_watermark max_allocated_block_size : Z) :
  0 < minimum_block_size ->
  minimum_block_size + sizeof_MemoryBlock <= 2 ^ 61 ->
  StreamBuf_new m minimum_block_size buffer_full_watermark
    max_allocated_block_size
  = Ok (first_StreamBuf m minimum_block_size buffer_full_watermark
          max_allocated_block_size).
Proof.
  intros Hmin Hmin'. unfold StreamBuf_new, first_StreamBuf.
  rewrite (to_size_t_small (minimum_block_size + sizeof_MemoryBlock)) by lia.
  pose proof (malloc_size_rounds_up (minimum_block_size + sizeof_MemoryBlock)
                ltac:(lia)) as Hms.
  rewrite to_size_t_small by lia.
  rewrite MemoryBlock_create_ok; [reflexivity| | |].
  - apply malloc_size_ASSERT. lia.
  - lia.
  - lia.
Qed.

Lemma StreamBuf_new_inv (m : Z -> ascii)
    (minimum_block_size buffer_full_watermark max_allocated_block_size : Z) :
  0 < minimum_block_size ->
  minimum_block_size + sizeof_MemoryBlock <= 2 ^ 61 ->
  sizeof_MemoryBlock <= 2 ^ 31 ->
  malloc_size (minimum_block_size + sizeof_MemoryBlock) - sizeof_MemoryBlock
    <= max_allocated_block_size < 2 ^ 64 ->
  Inv (first_StreamBuf m minimum_block_size buffer_full_watermark
         max_allocated_block_size) [] [] 0.
Proof.
  intros Hmin Hmin' Hsz31 Hmax. unfold first_StreamBuf.
  pose proof (malloc_size_rounds_up (minimum_block_size + sizeof_MemoryBlock)
                ltac:(lia)) as Hms.
  set (block_size := malloc_size (minimum_block_size + sizeof_MemoryBlock)
                     - sizeof_MemoryBlock) in *.
  assert (Hbs : 0 <= block_size) by (unfold block_size; lia).
  remember (new_MemoryBlock block_size []) as first eqn:Ef.
  assert (Hok : chain_ok [first]).
  { rewrite Ef. apply (chain_ok_create [] block_size I Hbs). }
  assert (Hsz : get_size first = block_size) by (rewrite Ef; reflexivity).
  clear Ef.
  assert (Hst : 0 < block_start first)
    by (simpl in Hok; unfold block_start; lia).
  unfold setp, sync_egptr, std_setp. simpl.
  assert (Ei : (s_next_egptr_init =? nullptr) = false)
    by (apply Z.eqb_neq; exact s_next_egptr_init_not_null).
  rewrite Ei. simpl.
  assert (En : (block_start first =? nullptr) = false)
    by (apply Z.eqb_neq; unfold nullptr; lia).
  constructor.
  - exact Hok.
  - reflexivity.
  - unfold m_put_area_block_node, block_end. simpl. rewrite Hsz. reflexivity.
  - simpl. lia.
  - left. reflexivity.
  - intros _. simpl. unfold block_end. rewrite Hsz.
    split; [lia|]. split; [lia|]. left. reflexivity.
  - unfold pending, read_position, resetting. simpl. rewrite En. simpl.
    replace (Z.to_nat _) with 0%nat by lia. reflexivity.
  - simpl. lia.
  - simpl. lia.
  - lia.
  - unfold chain, total_size. simpl. rewrite Hsz. lia.
  - simpl. lia.
  - simpl. lia.
  - simpl. lia.
  - simpl. lia.
  - simpl. lia.
  - simpl. unfold block_size. lia.
  - unfold chain. simpl. constructor; [|constructor].
    rewrite Hsz. unfold block_size. lia.
  - simpl. unfold block_end. rewrite Hsz. lia.
Qed.
(** ** Runs keep the invariant *)

(** The bytes a run offers to the buffer. *)
Definition submitted (ops : list op) : Z :=
  fold_right
    (fun o acc =>
       match o with
       | Xsputn s => Z.of_nat (length s)
       | Overflow _ => 1
       | _ => 0
       end + acc) 0 ops.

Lemma submitted_nonneg (ops : list op) : 0 <= submitted ops.
Proof.
  induction ops as [|o ops IH]; simpl; [lia|].
  destruct o; lia.
Qed.

(** A new buffer, nothing written and nothing read. *)
Definition start_run (m : Z -> ascii)
    (minimum_block_size buffer_full_watermark max_allocated_block_size : Z)
  : result run_state :=
  match StreamBuf_new m minimum_block_size buffer_full_watermark
          max_allocated_block_size with
  | Ok sb => Ok (mkRun sb [] [])
  | Fatal => Fatal
  | OutOfFuel => OutOfFuel
  end.

(** The calls [ops] on what the constructor returned. *)
Definition run_from (start : result run_state) (ops : list op)
  : result run_state :=
  match start with
  | Ok r => run ops r
  | Fatal => Fatal
  | OutOfFuel => OutOfFuel
  end.

(** The run state that [start_run] returns. *)
Definition first_run (m : Z -> ascii)
    (minimum_block_size buffer_full_watermark max_allocated_block_size : Z)
  : run_state :=
  mkRun (first_StreamBuf m minimum_block_size buffer_full_watermark
           max_allocated_block_size) [] [].

Lemma start_run_ok (m : Z -> ascii)
    (minimum_block_size buffer_full_watermark max_allocated_block_size : Z) :
  0 < minimum_block_size ->
  minimum_block_size + sizeof_MemoryBlock <= 2 ^ 61 ->
  start_run m minimum_block_size buffer_full_watermark
    max_allocated_block_size
  = Ok (first_run m minimum_block_size buffer_full_watermark
          max_allocated_block_size).
Proof.
  intros Hmin Hmin'. unfold start_run.
  rewrite StreamBuf_new_ok by assumption. reflexivity.
Qed.

Definition run_inv (r : run_state) : Prop :=
  Inv (buf r) (written r) (readout r) 0.

Lemma firstn_prefix (pre rest : list ascii) :
  firstn (length (pre ++ rest) - length rest) (pre ++ rest) = pre.
Proof.
  rewrite length_app.
  replace (length pre + length rest - length rest)%nat with (length pre)
    by lia.
  rewrite firstn_app, Nat.sub_diag, firstn_all. simpl. apply app_nil_r.
Qed.

Lemma exec_inv (o : op) (r : run_state) :
  run_inv r ->
  Z.of_nat (length (written r)) + submitted [o] + sizeof_MemoryBlock
    <= 2 ^ 31 ->
  exists r',
    exec o r = Ok r' /\ run_inv r' /\
    Z.of_nat (length (written r')) <=
      Z.of_nat (length (written r)) + submitted [o].
Proof.
  unfold run_inv. intros H HW. destruct o as [s | c | n |]; simpl in *.
  - unfold xsputn_a, xsputn_a_copied.
    destruct (xsputn_a_loop_inv (readout r) 0 (xsputn_a_fuel s) s (buf r)
                (written r) H ltac:(lia))
      as (eof & rest & sb' & pre & Hloop & Hs & H' & _).
    { unfold xsputn_a_need, xsputn_a_fuel.
      destruct s; [lia|].
      destruct ((pptr (buf r) =? pbase (buf r))
                && (pptr (buf r) <? epptr (buf r))); lia. }
    rewrite Hloop.
    assert (Hpre : firstn (length s - length rest) s = pre)
      by (rewrite Hs; apply firstn_prefix).
    assert (Hlen : (length pre <= length s)%nat)
      by (rewrite Hs, length_app; lia).
    destruct eof; eexists; (split; [reflexivity|]); simpl; rewrite Hpre;
      (split; [exact H'|]); rewrite length_app; lia.
  - destruct (overflow_a_inv c (buf r) (written r) (readout r) 0 H
                ltac:(lia))
      as (ret & sb' & Hov & H').
    rewrite Hov. eexists. split; [reflexivity|]. simpl.
    split; [exact H'|]. rewrite length_app.
    destruct ((c =? EOF) || (ret =? EOF)); simpl; lia.
  - destruct (xsgetn_a_inv n (buf r) (written r) (readout r) H)
      as (ret & out & sb' & Hget & H' & _).
    rewrite Hget. eexists. split; [reflexivity|]. simpl.
    split; [exact H'|]. lia.
  - destruct (underflow_a_inv (buf r) (written r) (readout r) H)
      as (ret & sb' & Hun & H').
    rewrite Hun. eexists. split; [reflexivity|]. simpl.
    split; [exact H'|]. lia.
Qed.

Lemma run_keeps_inv (ops : list op) :
  forall r : run_state,
    run_inv r ->
    Z.of_nat (length (written r)) + submitted ops + sizeof_MemoryBlock
      <= 2 ^ 31 ->
    exists r',
      run ops r = Ok r' /\ run_inv r' /\
      Z.of_nat (length (written r')) <=
        Z.of_nat (length (written r)) + submitted ops.
Proof.
  induction ops as [|o ops IH]; intros r H HW.
  - exists r. simpl. split; [reflexivity|]. split; [exact H | lia].
  - pose proof (submitted_nonneg ops) as Hn.
    assert (Hsub : submitted (o :: ops) = submitted [o] + submitted ops)
      by (simpl; lia).
    destruct (exec_inv o r H ltac:(lia)) as (r1 & Hexec & H1 & Hlen1).
    destruct (IH r1 H1 ltac:(lia)) as (r' & Hrun & H' & Hlen').
    exists r'. simpl run. rewrite Hexec.
    split; [exact Hrun|]. split; [exact H' | lia].
Qed.

(** ** Blocks allocated and released *)









(** ** The stream is first in, first out *)

Lemma first_run_inv (m : Z -> ascii)
    (minimum_block_size buffer_full_watermark max_allocated_block_size : Z) :
  0 < minimum_block_size ->
  minimum_block_size + sizeof_MemoryBlock <= 2 ^ 61 ->
  sizeof_MemoryBlock <= 2 ^ 31 ->
  malloc_size (minimum_block_size + sizeof_MemoryBlock) - sizeof_MemoryBlock
    <= max_allocated_block_size < 2 ^ 64 ->
  run_inv (first_run m minimum_block_size buffer_full_watermark
             max_allocated_block_size).
Proof. intros Hmin Hmin' Hsz Hmax. apply StreamBuf_new_inv; assumption. Qed.

(** The calls of a run on a new buffer all return, and the invariant
    holds after them, when the bytes offered stay below 2^31 and the
    first block is within [max_allocated_block_size]. *)
Lemma run_from_start (m : Z -> ascii)
    (minimum_block_size buffer_full_watermark max_allocated_block_size : Z)
    (ops : list op) :
  0 < minimum_block_size ->
  minimum_block_size + sizeof_MemoryBlock <= 2 ^ 61 ->
  submitted ops + sizeof_MemoryBlock <= 2 ^ 31 ->
  malloc_size (minimum_block_size + sizeof_MemoryBlock) - sizeof_MemoryBlock
    <= max_allocated_block_size < 2 ^ 64 ->
  exists r,
    run_from (start_run m minimum_block_size buffer_full_watermark
                max_allocated_block_size) ops = Ok r /\
    run ops (first_run m minimum_block_size buffer_full_watermark
               max_allocated_block_size) = Ok r /\
    run_inv r.
Proof.
  intros Hmin Hmin' Hsub Hmax.
  pose proof (submitted_nonneg ops) as Hn.
  destruct (run_keeps_inv ops _
              (first_run_inv m minimum_block_size buffer_full_watermark
                 max_allocated_block_size Hmin Hmin' ltac:(lia) Hmax))
    as (r & Hrun & H & _); [simpl; lia|].
  exists r. rewrite start_run_ok by assumption.
  split; [exact Hrun|]. split; assumption.
Qed.


(** ** Resetting the put area *)



(** ** Putting back *)

(** C8.  [pbackfail] is fatal for every character, that is for every
    argument other than [EOF]: the call ends in [DoutFatal] and no
    buffer comes back from it.  Called with [EOF], which is no
    character, it returns 0 and leaves the buffer as it was. *)
Theorem pbackfail_fatal_unless_EOF (c : Z) (sb : StreamBuf) :
  (c <> EOF -> pbackfail c sb = Fatal) /\
  (c = EOF -> pbackfail c sb = Ok (0, sb)).
Proof.
  unfold pbackfail. split; intros Hc.
  - apply Z.eqb_neq in Hc. rewrite Hc. reflexivity.
  - apply Z.eqb_eq in Hc. rewrite Hc. reflexivity.
Qed.

(** ** A refused allocation *)

(** [xsputn_a] returns [EOF] when it stops at a refused allocation,
    whatever it copied before. *)
Lemma xsputn_a_refused (s : list ascii) (sb sb' : StreamBuf)
    (rest : list ascii) :
  xsputn_a_loop (xsputn_a_fuel s) s sb = Ok (true, rest, sb') ->
  xsputn_a s sb = Ok (EOF, sb').
Proof. unfold xsputn_a. intros ->. reflexivity. Qed.

(** ** What the calls return *)

Lemma run_from_start_bounded (m : Z -> ascii)
    (minimum_block_size buffer_full_watermark max_allocated_block_size : Z)
    (ops : list op) :
  0 < minimum_block_size ->
  minimum_block_size + sizeof_MemoryBlock <= 2 ^ 61 ->
  submitted ops + sizeof_MemoryBlock <= 2 ^ 31 ->
  malloc_size (minimum_block_size + sizeof_MemoryBlock) - sizeof_MemoryBlock
    <= max_allocated_block_size < 2 ^ 64 ->
  exists r,
    run_from (start_run m minimum_block_size buffer_full_watermark
                max_allocated_block_size) ops = Ok r /\
    run ops (first_run m minimum_block_size buffer_full_watermark
               max_allocated_block_size) = Ok r /\
    run_inv r /\
    Z.of_nat (length (written r)) <= submitted ops.
Proof.
  intros Hmin Hmin' Hsub Hmax.
  pose proof (submitted_nonneg ops) as Hn.
  destruct (run_keeps_inv ops _
              (first_run_inv m minimum_block_size buffer_full_watermark
                 max_allocated_block_size Hmin Hmin' ltac:(lia) Hmax))
    as (r & Hrun & H & Hlen); [simpl; lia|].
  exists r. rewrite start_run_ok by assumption.
  split; [exact Hrun|]. split; [exact Hrun|]. split; [exact H|].
  simpl in Hlen. lia.
Qed.

(** [StreamBufProducer::buffer_full] (StreamBuf.h). *)
Definition buffer_full (sb : StreamBuf) : bool :=
  get_data_size_upper_bound sb >=? m_buffer_full_watermark sb.

(** Between stream calls the upper bound of the data size is the data
    size.  In the state that calls of [xsputn_a], [overflow_a],
    [xsgetn_a] and [underflow_a] on a new buffer lead to, fewer than
    2^31 bytes being offered in all, [get_data_size_upper_bound] is
    the number of bytes written and not yet read, [m_total_read] is
    the number of bytes read, and [buffer_full] tells whether the
    bytes not yet read have reached [m_buffer_full_watermark].
    ([reduce_buffer] is not among these calls: after it has replaced a
    block the upper bound is [m_minimum_block_size] too high.) *)
Theorem data_size_upper_bound_is_exact (m : Z -> ascii)
    (minimum_block_size buffer_full_watermark max_allocated_block_size : Z)
    (ops : list op) :
  0 < minimum_block_size ->
  minimum_block_size + sizeof_MemoryBlock <= 2 ^ 61 ->
  submitted ops + sizeof_MemoryBlock <= 2 ^ 31 ->
  malloc_size (minimum_block_size + sizeof_MemoryBlock) - sizeof_MemoryBlock
    <= max_allocated_block_size < 2 ^ 64 ->
  exists r,
    run_from (start_run m minimum_block_size buffer_full_watermark
                max_allocated_block_size) ops = Ok r /\
    get_data_size_upper_bound (buf r) =
      Z.of_nat (length (written r)) - Z.of_nat (length (readout r)) /\
    m_total_read (buf r) = Z.of_nat (length (readout r)) /\
    (buffer_full (buf r) = true <->
     m_buffer_full_watermark (buf r) <=
       Z.of_nat (length (written r)) - Z.of_nat (length (readout r))).
Proof.
  intros Hmin Hmin' Hsub Hmax.
  destruct (run_from_start_bounded m minimum_block_size buffer_full_watermark
              max_allocated_block_size ops Hmin Hmin' Hsub Hmax)
    as (r & Hrun & Hrun0 & H & Hlen).
  exists r. split; [exact Hrun|]. unfold run_inv in H.
  pose proof (inv_written _ _ _ _ H) as Hw.
  pose proof (inv_read _ _ _ _ H) as Hr.
  pose proof (Inv_pending_length _ _ _ _ H) as Hp.
  assert (Hd : get_data_size_upper_bound (buf r) =
               Z.of_nat (length (written r))
               - Z.of_nat (length (readout r))).
  { unfold get_data_size_upper_bound, unused_in_last_block.
    rewrite to_size_t_small; lia. }
  split; [exact Hd|]. split; [lia|].
  unfold buffer_full. rewrite Hd. apply Z.geb_le.
Qed.

(** The put area is reset only over data that was read.  In the state
    that calls of [xsputn_a], [overflow_a], [xsgetn_a] and
    [underflow_a] on a new buffer lead to, fewer than 2^31 bytes being
    offered in all, when [update_put_area] is about to reset
    the put area, every byte written has been read and the buffer is
    down to one block; the reset then begins a cycle in which the
    bytes written and the bytes read are still the same sequences. *)
Theorem reset_never_discards_unread_data (m : Z -> ascii)
    (minimum_block_size buffer_full_watermark max_allocated_block_size : Z)
    (ops : list op) :
  0 < minimum_block_size ->
  minimum_block_size + sizeof_MemoryBlock <= 2 ^ 61 ->
  submitted ops + sizeof_MemoryBlock <= 2 ^ 31 ->
  malloc_size (minimum_block_size + sizeof_MemoryBlock) - sizeof_MemoryBlock
    <= max_allocated_block_size < 2 ^ 64 ->
  exists r,
    run_from (start_run m minimum_block_size buffer_full_watermark
                max_allocated_block_size) ops = Ok r /\
    (put_area_must_reset (buf r) = true ->
     readout r = written r /\
     m_next_chain (buf r) = [] /\
     gptr (buf r) = pptr (buf r) /\
     exists cur_pptr available sb',
       update_put_area (buf r) = Ok (cur_pptr, available, sb') /\
       pending sb' = [] /\
       forall n, exists out sb'',
           xsgetn_a n sb' = Ok (0, out, sb'') /\ out = []).
Proof.
  intros Hmin Hmin' Hsub Hmax.
  destruct (run_from_start m minimum_block_size buffer_full_watermark
              max_allocated_block_size ops Hmin Hmin' Hsub Hmax)
    as (r & Hrun & Hrun0 & H).
  exists r. split; [exact Hrun|]. unfold run_inv in H. intros Hreset.
  destruct (reset_only_when_empty _ _ _ _ H Hreset) as (Hnext & Hg & Hres).
  assert (Hpend : pending (buf r) = []).
  { unfold pending, read_position. rewrite Hres, Hnext, Hg. simpl.
    rewrite Z.sub_diag. reflexivity. }
  assert (Heq : readout r = written r).
  { rewrite (inv_data _ _ _ _ H), Hpend, app_nil_r. reflexivity. }
  split; [exact Heq|]. split; [exact Hnext|]. split; [exact Hg|].
  destruct (update_put_area_inv _ _ _ _ H)
    as (cp & av & sb' & Hupa & _ & _ & H' & _).
  exists cp, av, sb'. split; [exact Hupa|].
  assert (Hpend' : pending sb' = []).
  { pose proof (inv_data _ _ _ _ H') as Hd. rewrite <- Heq in Hd.
    rewrite <- (app_nil_r (readout r)) in Hd at 1.
    apply app_inv_head in Hd. symmetry. exact Hd. }
  split; [exact Hpend'|].
  intros n.
  destruct (xsgetn_a_inv n sb' _ _ H') as (ret & out & sb'' & Hget & H'' & Hret & _).
  pose proof (Inv_pending_length _ _ _ _ H'') as Hl.
  rewrite length_app in Hl. rewrite Heq in Hl.
  assert (Hout : out = []) by (destruct out; [reflexivity | simpl in Hl; lia]).
  exists out, sb''. rewrite Hget, Hret, Hout. split; reflexivity.
Qed.

(** [xsgetn_a] with what it leaves to be counted afterwards. *)
Lemma xsgetn_a_exact (n : Z) (sb : StreamBuf) (W R : list ascii) :
  Inv sb W R 0 ->
  exists out sb',
    xsgetn_a n sb = Ok (Z.of_nat (length out), out, sb') /\
    Inv sb' W (R ++ out) 0 /\
    out = firstn (Z.to_nat n) (pending sb) /\
    pending sb = out ++ pending sb'.
Proof.
  intros H. unfold xsgetn_a.
  pose proof H as H0. rewrite <- (app_nil_r R) in H0.
  destruct (xsgetn_a_loop_inv W R (xsgetn_a_fuel sb) n [] sb 0 H0)
    as (remaining' & more & sb' & Hloop & H' & Hle & Hgt & Hpend).
  { unfold xsgetn_a_need, xsgetn_a_fuel. destruct (n >? 0); lia. }
  rewrite Hloop. simpl in *.
  assert (Hk : n - remaining' = Z.of_nat (length more)).
  { destruct (Z.le_gt_cases n 0) as [Hz | Hz].
    - destruct (Hle Hz) as [-> ->]. simpl. lia.
    - destruct (Hgt ltac:(lia)). lia. }
  exists more, (set_m_total_read (m_total_read sb' + n - remaining') sb').
  rewrite Hk. split; [reflexivity|].
  assert (H'' : Inv (set_m_total_read (m_total_read sb' + n - remaining') sb')
                  W (R ++ more) 0).
  { apply (commit_total_read sb' W (R ++ more) (Z.of_nat (length more)));
      [exact H' | lia]. }
  split; [exact H''|].
  assert (Hsplit : pending sb = more ++ pending sb').
  { pose proof (inv_data _ _ _ _ H) as Hd.
    pose proof (inv_data _ _ _ _ H') as Hd'.
    rewrite Hd, <- app_assoc in Hd'. apply app_inv_head in Hd'. exact Hd'. }
  change (pending (set_m_total_read (m_total_read sb' + n - remaining') sb'))
    with (pending sb').
  split; [|exact Hsplit].
  rewrite Hsplit.
  destruct (Z.le_gt_cases n 0) as [Hz | Hz].
  - destruct (Hle Hz) as [_ ->].
    replace (Z.to_nat n) with O by lia. reflexivity.
  - destruct (Hgt ltac:(lia)) as [Hr0 Hr].
    destruct (Z.eq_dec remaining' 0) as [E0 | E0].
    + replace (Z.to_nat n) with (length more) by lia.
      rewrite firstn_app, Nat.sub_diag, firstn_all. simpl.
      rewrite app_nil_r. reflexivity.
    + rewrite (Hpend ltac:(lia)), app_nil_r.
      rewrite firstn_all2 by lia. reflexivity.
Qed.

(** [xsgetn_a] takes the oldest bytes, as many as asked for or as are
    there.  In the state that calls of [xsputn_a], [overflow_a],
    [xsgetn_a] and [underflow_a] on a new buffer lead to, fewer than
    2^31 bytes being offered in all, with [rest] the bytes written and
    not yet read, [xsgetn_a(s, n)] copies the first [n]
    bytes of [rest] to [s], all of [rest] when it is shorter and
    nothing when [n] is not positive; it returns their number and adds
    it to [m_total_read]. *)
Theorem xsgetn_a_takes_the_oldest_bytes (m : Z -> ascii)
    (minimum_block_size buffer_full_watermark max_allocated_block_size : Z)
    (ops : list op) (n : Z) :
  0 < minimum_block_size ->
  minimum_block_size + sizeof_MemoryBlock <= 2 ^ 61 ->
  submitted ops + sizeof_MemoryBlock <= 2 ^ 31 ->
  malloc_size (minimum_block_size + sizeof_MemoryBlock) - sizeof_MemoryBlock
    <= max_allocated_block_size < 2 ^ 64 ->
  exists r rest out sb',
    run_from (start_run m minimum_block_size buffer_full_watermark
                max_allocated_block_size) ops = Ok r /\
    written r = readout r ++ rest /\
    out = firstn (Z.to_nat n) rest /\
    xsgetn_a n (buf r) = Ok (Z.of_nat (length out), out, sb') /\
    Z.of_nat (length out) = Z.max 0 (Z.min n (Z.of_nat (length rest))) /\
    m_total_read sb' = m_total_read (buf r) + Z.of_nat (length out).
Proof.
  intros Hmin Hmin' Hsub Hmax.
  destruct (run_from_start m minimum_block_size buffer_full_watermark
              max_allocated_block_size ops Hmin Hmin' Hsub Hmax)
    as (r & Hrun & Hrun0 & H).
  unfold run_inv in H.
  destruct (xsgetn_a_exact n _ _ _ H) as (out & sb' & Hget & H' & Hout & _).
  exists r, (pending (buf r)), out, sb'.
  split; [exact Hrun|]. split; [exact (inv_data _ _ _ _ H)|].
  split; [exact Hout|]. split; [exact Hget|].
  split.
  - rewrite Hout, length_firstn. lia.
  - pose proof (inv_read _ _ _ _ H) as Hr.
    pose proof (inv_read _ _ _ _ H') as Hr'.
    rewrite length_app in Hr'. lia.
Qed.

Lemma update_get_area_loop_get_area (next_egptr : Z) :
  forall (next : list MemoryBlock) (node : MemoryBlock) (cur_gptr : Z)
         (sb : StreamBuf) (ret : bool) (g av : Z) (sb' : StreamBuf),
    update_get_area_loop next node next_egptr cur_gptr sb
      = Ok (ret, g, av, sb') ->
    gptr sb' = g /\ egptr sb' = g + av /\ mem sb' = mem sb /\
    m_total_read sb' = m_total_read sb.
Proof.
  induction next as [|b rest IH];
    intros node cur_gptr sb ret g av sb' Hloop; simpl in Hloop.
  - destruct (negb _) in Hloop.
    + destruct (_ || _) in Hloop; [|discriminate].
      injection Hloop as _ <- <- <-. simpl. repeat split; lia.
    + destruct (_ && _) in Hloop; [|discriminate].
      injection Hloop as _ <- <- <-. simpl. repeat split; lia.
  - destruct (negb _) in Hloop.
    + destruct (_ || _) in Hloop; [|discriminate].
      injection Hloop as _ <- <- <-. simpl. repeat split; lia.
    + destruct (_ && _) in Hloop.
      * injection Hloop as _ <- <- <-. simpl. repeat split; lia.
      * apply IH in Hloop. exact Hloop.
Qed.

Lemma update_get_area_get_area (sb sb' : StreamBuf) (ret : bool) (g av : Z) :
  update_get_area sb = Ok (ret, g, av, sb') ->
  gptr sb' = g /\ egptr sb' = g + av /\ mem sb' = mem sb /\
  m_total_read sb' = m_total_read sb.
Proof.
  unfold update_get_area. intros H.
  destruct (m_next_egptr sb =? nullptr);
    apply update_get_area_loop_get_area in H; exact H.
Qed.

(** The get area holds the bytes to be read next. *)
Lemma pending_get_area (sb : StreamBuf) (W R : list ascii) (k : Z) :
  Inv sb W R k -> resetting sb = false ->
  exists later,
    pending sb =
    read_bytes (mem sb) (gptr sb) (Z.to_nat (get_available sb)) ++ later.
Proof.
  intros H Hres. unfold pending, read_position, get_available.
  rewrite Hres. destruct (m_next_chain sb) as [|b rest]; simpl.
  - exists []. rewrite app_nil_r. reflexivity.
  - eexists. reflexivity.
Qed.

(** [underflow_a] shows the next bytes and takes none.  In the state
    that calls of [xsputn_a], [overflow_a], [xsgetn_a] and
    [underflow_a] on a new buffer lead to, fewer than 2^31 bytes being
    offered in all, with [rest] the bytes written and not yet read, [underflow_a] returns [EOF] exactly when [rest] is empty;
    otherwise it returns 0 and leaves a get area that is not empty and
    holds the first bytes of [rest].  It reads nothing: [m_total_read]
    is unchanged, and an [xsgetn_a] that follows still starts with the
    first byte of [rest]. *)
Theorem underflow_a_shows_the_next_bytes (m : Z -> ascii)
    (minimum_block_size buffer_full_watermark max_allocated_block_size : Z)
    (ops : list op) :
  0 < minimum_block_size ->
  minimum_block_size + sizeof_MemoryBlock <= 2 ^ 61 ->
  submitted ops + sizeof_MemoryBlock <= 2 ^ 31 ->
  malloc_size (minimum_block_size + sizeof_MemoryBlock) - sizeof_MemoryBlock
    <= max_allocated_block_size < 2 ^ 64 ->
  exists r rest ret sb',
    run_from (start_run m minimum_block_size buffer_full_watermark
                max_allocated_block_size) ops = Ok r /\
    written r = readout r ++ rest /\
    underflow_a (buf r) = Ok (ret, sb') /\
    (ret = EOF <-> rest = []) /\
    (ret <> EOF ->
     ret = 0 /\ gptr sb' < egptr sb' /\
     read_bytes (mem sb') (gptr sb') (Z.to_nat (egptr sb' - gptr sb')) =
       firstn (Z.to_nat (egptr sb' - gptr sb')) rest) /\
    m_total_read sb' = m_total_read (buf r) /\
    (forall n, exists sb'',
        xsgetn_a n sb' =
          Ok (Z.of_nat (length (firstn (Z.to_nat n) rest)),
              firstn (Z.to_nat n) rest, sb'')).
Proof.
  intros Hmin Hmin' Hsub Hmax.
  destruct (run_from_start m minimum_block_size buffer_full_watermark
              max_allocated_block_size ops Hmin Hmin' Hsub Hmax)
    as (r & Hrun & Hrun0 & H).
  unfold run_inv in H.
  destruct (update_get_area_inv _ _ _ _ H)
    as (at_end & av & sb1 & Huga & H1 & Hres1 & Hav & Hav0 & Hend & Hne & _).
  destruct (update_get_area_get_area _ _ _ _ _ Huga)
    as (_ & Heg & Hmem & Hread).
  assert (Hrest : pending sb1 = pending (buf r)).
  { pose proof (inv_data _ _ _ _ H) as Hd.
    pose proof (inv_data _ _ _ _ H1) as Hd1.
    rewrite Hd in Hd1. apply app_inv_head in Hd1. symmetry. exact Hd1. }
  assert (Hafter : forall sb', Inv sb' (written r) (readout r) 0 ->
            forall n, exists sb'',
              xsgetn_a n sb' =
                Ok (Z.of_nat (length (firstn (Z.to_nat n) (pending (buf r)))),
                    firstn (Z.to_nat n) (pending (buf r)), sb'')).
  { intros sb' H' n.
    destruct (xsgetn_a_exact n _ _ _ H') as (out & sb'' & Hget & _ & Hout & _).
    assert (Hp : pending sb' = pending (buf r)).
    { pose proof (inv_data _ _ _ _ H) as Hd.
      pose proof (inv_data _ _ _ _ H') as Hd'.
      rewrite Hd in Hd'. apply app_inv_head in Hd'. symmetry. exact Hd'. }
    rewrite Hp in Hout. exists sb''. rewrite Hget, Hout. reflexivity. }
  exists r, (pending (buf r)).
  unfold underflow_a. rewrite Huga.
  destruct (Z.eqb_spec av 0) as [E0 | E0].
  - exists EOF, (store_last_gptr (gptr sb1) sb1).
    split; [exact Hrun|]. split; [exact (inv_data _ _ _ _ H)|].
    split; [reflexivity|].
    assert (Hempty : pending (buf r) = []).
    { rewrite <- Hrest. apply (drained sb1 _ _ _ H1 Hres1); [|lia].
      destruct at_end; [exfalso; apply (Hne eq_refl); exact E0|].
      destruct (m_next_chain sb1); [reflexivity | discriminate]. }
    split; [split; [intros _; exact Hempty | reflexivity]|].
    split; [intros Hc; contradiction|].
    split; [exact Hread|].
    apply Hafter.
    apply (store_last_gptr_inv sb1 _ _ 0 (gptr sb1) H1 Hres1 eq_refl).
  - exists 0, sb1.
    split; [exact Hrun|]. split; [exact (inv_data _ _ _ _ H)|].
    split; [reflexivity|].
    destruct (pending_get_area _ _ _ _ H1 Hres1) as (later & Hp).
    rewrite <- Hav, Hrest in Hp.
    assert (Hlen : length (read_bytes (mem sb1) (gptr sb1) (Z.to_nat av))
                   = Z.to_nat av) by apply read_bytes_length.
    split; [|split; [|split; [exact Hread | apply Hafter; exact H1]]].
    + split; [discriminate|]. intros Hnil. rewrite Hnil in Hp.
      symmetry in Hp. apply app_eq_nil in Hp. destruct Hp as [Hp _].
      rewrite Hp in Hlen. simpl in Hlen. lia.
    + intros _. split; [reflexivity|]. split; [lia|].
      replace (egptr sb1 - gptr sb1) with av by lia.
      rewrite Hp. rewrite <- Hlen at 2.
      rewrite firstn_app, Nat.sub_diag, firstn_all. simpl.
      rewrite app_nil_r. reflexivity.
Qed.

(** ** The sizes a buffer was made with *)

(** [m_minimum_block_size], [m_buffer_full_watermark] and
    [m_max_allocated_block_size]. *)
Definition specs (sb : StreamBuf) : Z * Z * Z :=
  (m_minimum_block_size sb, m_buffer_full_watermark sb,
   m_max_allocated_block_size sb).

Lemma update_put_area_specs (sb sb' : StreamBuf) (cp av : Z) :
  update_put_area sb = Ok (cp, av, sb') -> specs sb' = specs sb.
Proof.
  unfold update_put_area, update_put_area_stores.
  destruct (m_next_egptr sb =? s_next_egptr_init); [discriminate|].
  destruct (put_area_must_reset sb); intros E; injection E as _ _ <-;
    reflexivity.
Qed.

Lemma pbump_specs (n : Z) (sb : StreamBuf) : specs (pbump n sb) = specs sb.
Proof.
  unfold pbump, sync_egptr, std_pbump. simpl.
  destruct (m_next_egptr sb =? nullptr); reflexivity.
Qed.

Lemma setp_specs (p ep : Z) (sb : StreamBuf) :
  specs (setp p ep sb) = specs sb.
Proof.
  unfold setp, sync_egptr, std_setp. simpl.
  destruct (m_next_egptr sb =? nullptr); reflexivity.
Qed.

Lemma xsputn_a_loop_specs :
  forall (fuel : nat) (s : list ascii) (sb : StreamBuf) (eof : bool)
         (rest : list ascii) (sb' : StreamBuf),
    xsputn_a_loop fuel s sb = Ok (eof, rest, sb') ->
    specs sb' = specs sb /\
    (eof = true -> rest <> [] /\ choose_block_size sb' = None).
Proof.
  induction fuel as [|fuel IH]; intros s sb eof rest sb' Hloop;
    [discriminate|].
  simpl in Hloop.
  destruct (Z.of_nat (length s) >? 0).
  2:{ injection Hloop as <- _ <-. split; [reflexivity | discriminate]. }
  destruct (update_put_area sb) as [[[cp av] sb1]| |] eqn:Hupa;
    try discriminate.
  apply update_put_area_specs in Hupa.
  set (p := if av >? 0
            then (skipn (Z.to_nat (Z.min av (Z.of_nat (length s)))) s,
                  pbump (Z.min av (Z.of_nat (length s)))
                    (set_mem
                       (memcpy_in cp
                          (firstn (Z.to_nat (Z.min av (Z.of_nat (length s))))
                             s) (mem sb1)) sb1))
            else (s, sb1)) in *.
  assert (Hp : specs (snd p) = specs sb).
  { unfold p. destruct (av >? 0); simpl; [|exact Hupa].
    rewrite pbump_specs. exact Hupa. }
  destruct p as [s2 sb2]. simpl in Hp.
  destruct (Z.of_nat (length s2) >? 0) eqn:E2.
  - destruct (choose_block_size sb2) as [block_size|] eqn:Ebs.
    + destruct (create_memory_block block_size sb2) as [[nb sb3]| |] eqn:Ec;
        try discriminate.
      destruct (create_memory_block_Ok _ _ _ _ Ec) as (-> & _ & _).
      apply IH in Hloop. destruct Hloop as [Hs Hr].
      rewrite setp_specs in Hs. split; [|exact Hr].
      rewrite Hs. exact Hp.
    + injection Hloop as <- <- <-. split; [exact Hp|]. intros _.
      split; [|exact Ebs]. intros ->. discriminate.
  - apply IH in Hloop. destruct Hloop as [Hs Hr].
    split; [congruence | exact Hr].
Qed.

Lemma overflow_a_specs (c : Z) (sb sb' : StreamBuf) (ret : Z) :
  overflow_a c sb = Ok (ret, sb') ->
  specs sb' = specs sb /\
  (ret = EOF -> choose_block_size sb' = None) /\
  (ret = 0 \/ ret = EOF).
Proof.
  unfold overflow_a.
  destruct (c =? EOF).
  { intros H. injection H as <- <-.
    split; [reflexivity|]. split; [discriminate | auto]. }
  destruct (update_put_area sb) as [[[cp av] sb1]| |] eqn:Hupa;
    try discriminate.
  apply update_put_area_specs in Hupa.
  destruct (av =? 0).
  - destruct (choose_block_size sb1) as [block_size|] eqn:Ebs.
    + destruct (create_memory_block block_size sb1) as [[nb sb3]| |] eqn:Ec;
        try discriminate.
      destruct (create_memory_block_Ok _ _ _ _ Ec) as (-> & _ & _).
      intros H. injection H as <- <-.
      split; [|split; [discriminate | auto]].
      unfold setp_pbump, sync_egptr, std_setp, std_pbump, link_block.
      simpl. destruct (m_next_egptr sb1 =? nullptr); exact Hupa.
    + intros H. injection H as <- <-.
      split; [exact Hupa|]. split; [intros _; exact Ebs | auto].
  - intros H. injection H as <- <-.
    split; [|split; [discriminate | auto]].
    rewrite pbump_specs. exact Hupa.
Qed.

Lemma update_get_area_loop_specs (next_egptr : Z) :
  forall (next : list MemoryBlock) (node : MemoryBlock) (cur_gptr : Z)
         (sb : StreamBuf) (ret : bool) (g av : Z) (sb' : StreamBuf),
    update_get_area_loop next node next_egptr cur_gptr sb
      = Ok (ret, g, av, sb') ->
    specs sb' = specs sb.
Proof.
  induction next as [|b rest IH];
    intros node cur_gptr sb ret g av sb' Hloop; simpl in Hloop.
  - destruct (negb _) in Hloop.
    + destruct (_ || _) in Hloop; [|discriminate].
      injection Hloop as _ _ _ <-. reflexivity.
    + destruct (_ && _) in Hloop; [|discriminate].
      injection Hloop as _ _ _ <-. reflexivity.
  - destruct (negb _) in Hloop.
    + destruct (_ || _) in Hloop; [|discriminate].
      injection Hloop as _ _ _ <-. reflexivity.
    + destruct (_ && _) in Hloop.
      * injection Hloop as _ _ _ <-. reflexivity.
      * apply IH in Hloop. exact Hloop.
Qed.

Lemma update_get_area_specs (sb sb' : StreamBuf) (ret : bool) (g av : Z) :
  update_get_area sb = Ok (ret, g, av, sb') -> specs sb' = specs sb.
Proof.
  unfold update_get_area. intros H.
  destruct (m_next_egptr sb =? nullptr);
    apply update_get_area_loop_specs in H; exact H.
Qed.

Lemma xsgetn_a_loop_specs :
  forall (fuel : nat) (remaining : Z) (out : list ascii) (sb : StreamBuf)
         (remaining' : Z) (out' : list ascii) (sb' : StreamBuf),
    xsgetn_a_loop fuel remaining out sb = Ok (remaining', out', sb') ->
    specs sb' = specs sb.
Proof.
  induction fuel as [|fuel IH];
    intros remaining out sb remaining' out' sb' Hloop; [discriminate|].
  simpl in Hloop.
  destruct (remaining >? 0).
  2:{ injection Hloop as _ _ <-. reflexivity. }
  destruct (update_get_area sb) as [[[[at_end cg] av] sb1]| |] eqn:Huga;
    try discriminate.
  apply update_get_area_specs in Huga.
  destruct (av <? 0); [discriminate|].
  set (p := if negb (av =? 0)
            then (Z.min av remaining,
                  out ++ memcpy_out (mem sb1) cg (Z.min av remaining),
                  av - Z.min av remaining, remaining - Z.min av remaining,
                  gbump (Z.min av remaining) sb1)
            else (0, out, av, remaining, sb1)) in *.
  assert (Hp : specs (snd p) = specs sb).
  { unfold p. destruct (negb (av =? 0)); simpl; exact Huga. }
  destruct p as [[[[len out2] av2] rem2] sb2]. simpl in Hp.
  destruct (negb at_end).
  - injection Hloop as _ _ <-. destruct (av2 =? 0); exact Hp.
  - destruct (av2 =? 0).
    + destruct (m_next_chain sb2) as [|b rest]; [discriminate|].
      apply IH in Hloop. rewrite Hloop. exact Hp.
    + apply IH in Hloop. congruence.
Qed.

Lemma exec_specs (o : op) (r r' : run_state) :
  exec o r = Ok r' -> specs (buf r') = specs (buf r).
Proof.
  destruct o as [s | c | n |]; simpl; intros H.
  - unfold xsputn_a in H.
    destruct (xsputn_a_loop (xsputn_a_fuel s) s (buf r))
      as [[[eof rest] sb']| |] eqn:Hloop; try discriminate.
    apply xsputn_a_loop_specs in Hloop. destruct Hloop as [Hs _].
    destruct eof; injection H as <-; exact Hs.
  - destruct (overflow_a c (buf r)) as [[ret sb']| |] eqn:Hov;
      try discriminate.
    apply overflow_a_specs in Hov. destruct Hov as [Hs _].
    injection H as <-. exact Hs.
  - unfold xsgetn_a in H.
    destruct (xsgetn_a_loop (xsgetn_a_fuel (buf r)) n [] (buf r))
      as [[[remaining out] sb']| |] eqn:Hloop; try discriminate.
    apply xsgetn_a_loop_specs in Hloop. injection H as <-. exact Hloop.
  - unfold underflow_a in H.
    destruct (update_get_area (buf r)) as [[[[at_end cg] av] sb1]| |] eqn:Huga;
      try discriminate.
    apply update_get_area_specs in Huga.
    destruct (av =? 0); injection H as <-; exact Huga.
Qed.

Lemma run_specs (ops : list op) :
  forall r r' : run_state,
    run ops r = Ok r' -> specs (buf r') = specs (buf r).
Proof.
  induction ops as [|o ops IH]; intros r r' H; simpl in H.
  - injection H as <-. reflexivity.
  - destruct (exec o r) as [r1| |] eqn:E; try discriminate.
    rewrite (IH _ _ H). exact (exec_specs _ _ _ E).
Qed.

Lemma specs_first_StreamBuf (m : Z -> ascii)
    (minimum_block_size buffer_full_watermark max_allocated_block_size : Z) :
  specs (first_StreamBuf m minimum_block_size buffer_full_watermark
           max_allocated_block_size)
  = (minimum_block_size, buffer_full_watermark, max_allocated_block_size).
Proof.
  unfold first_StreamBuf, setp, sync_egptr, std_setp, setg. simpl.
  destruct (s_next_egptr_init =? nullptr); reflexivity.
Qed.

(** [std::numeric_limits<size_t>::max()], the [max_alloc] that
    InputDecoder.h gives a buffer by default. *)
Definition size_t_max : Z := 2 ^ 64 - 1.

Lemma choose_block_size_unlimited (sb : StreamBuf) :
  m_max_allocated_block_size sb = size_t_max ->
  choose_block_size sb = Some (new_block_size sb).
Proof.
  intros Hmax. unfold choose_block_size. rewrite Hmax.
  pose proof (to_size_t_range
                (get_allocated_upper_bound sb + new_block_size sb)) as Hr.
  replace (to_size_t (get_allocated_upper_bound sb + new_block_size sb)
           >? size_t_max) with false; [reflexivity|].
  symmetry. rewrite Z.gtb_ltb. apply Z.ltb_ge. unfold size_t_max. lia.
Qed.

(** [xsputn_a] returns [n] or [EOF], and [overflow_a] 0 or [EOF].  In
    the state that calls of [xsputn_a], [overflow_a], [xsgetn_a] and
    [underflow_a] on a new buffer lead to, fewer than 2^31 bytes being
    offered in all with this call, [xsputn_a(s, n)] returns; it
    returns [n] exactly when it has put all [n] bytes into the buffer,
    and [EOF] when it has put in fewer, a block being refused.
    [overflow_a(c)] returns 0 or [EOF].  A buffer made with the
    largest [size_t] as [max_allocated_block_size] refuses no block:
    [xsputn_a] stores every byte and [overflow_a] never returns
    [EOF]. *)
Theorem xsputn_a_returns_n_or_EOF (m : Z -> ascii)
    (minimum_block_size buffer_full_watermark max_allocated_block_size : Z)
    (ops : list op) (s : list ascii) (c : Z) :
  0 < minimum_block_size ->
  minimum_block_size + sizeof_MemoryBlock <= 2 ^ 61 ->
  submitted ops + Z.of_nat (length s) + 1 + sizeof_MemoryBlock <= 2 ^ 31 ->
  malloc_size (minimum_block_size + sizeof_MemoryBlock) - sizeof_MemoryBlock
    <= max_allocated_block_size < 2 ^ 64 ->
  exists r ret sb' rest ret1 sb1,
    run_from (start_run m minimum_block_size buffer_full_watermark
                max_allocated_block_size) ops = Ok r /\
    xsputn_a s (buf r) = Ok (ret, sb') /\
    s = xsputn_a_copied s (buf r) ++ rest /\
    (ret = Z.of_nat (length s) /\ rest = [] \/ ret = EOF /\ rest <> []) /\
    overflow_a c (buf r) = Ok (ret1, sb1) /\
    (ret1 = 0 \/ ret1 = EOF) /\
    (max_allocated_block_size = size_t_max ->
     ret = Z.of_nat (length s) /\ ret1 = 0).
Proof.
  intros Hmin Hmin' Hsub Hmax.
  destruct (run_from_start_bounded m minimum_block_size buffer_full_watermark
              max_allocated_block_size ops Hmin Hmin'
              ltac:(pose proof (submitted_nonneg ops); lia) Hmax)
    as (r & Hrun & Hrun0 & H & Hlen).
  unfold run_inv in H.
  assert (Hspecs : m_max_allocated_block_size (buf r)
                   = max_allocated_block_size).
  { pose proof (run_specs _ _ _ Hrun0) as Hs. unfold first_run in Hs.
    simpl in Hs. rewrite specs_first_StreamBuf in Hs.
    unfold specs in Hs. congruence. }
  destruct (xsputn_a_loop_inv (readout r) 0 (xsputn_a_fuel s) s (buf r)
              (written r) H ltac:(lia))
    as (eof & rest & sb' & pre & Hloop & Hs & H' & Heof).
  { unfold xsputn_a_need, xsputn_a_fuel.
    destruct s; [lia|].
    destruct ((pptr (buf r) =? pbase (buf r))
              && (pptr (buf r) <? epptr (buf r))); lia. }
  destruct (xsputn_a_loop_specs _ _ _ _ _ _ Hloop) as [Hsp Hrefused].
  destruct (overflow_a_inv c (buf r) (written r) (readout r) 0 H
              ltac:(lia))
    as (ret1 & sb1 & Hov & _).
  destruct (overflow_a_specs _ _ _ _ Hov) as (Hsp1 & Hrefused1 & Hret1).
  assert (Hcopied : xsputn_a_copied s (buf r) = pre).
  { unfold xsputn_a_copied. rewrite Hloop, Hs. apply firstn_prefix. }
  exists r,
    (if eof then EOF else Z.of_nat (length s) - Z.of_nat (length rest)),
    sb', rest, ret1, sb1.
  split; [exact Hrun|].
  split; [unfold xsputn_a; rewrite Hloop; destruct eof; reflexivity|].
  split; [rewrite Hcopied; exact Hs|].
  split.
  { destruct eof.
    - right. split; [reflexivity|]. apply Hrefused. reflexivity.
    - left. rewrite (Heof eq_refl). simpl. split; [lia | reflexivity]. }
  split; [exact Hov|]. split; [exact Hret1|].
  intros Hunl. subst max_allocated_block_size.
  split.
  - destruct eof.
    + exfalso. destruct (Hrefused eq_refl) as [_ Hnone].
      rewrite choose_block_size_unlimited in Hnone; [discriminate|].
      unfold specs in Hsp. congruence.
    + rewrite (Heof eq_refl). simpl. lia.
  - destruct Hret1 as [E | E]; [exact E|].
    exfalso. pose proof (Hrefused1 E) as Hnone.
    rewrite choose_block_size_unlimited in Hnone; [discriminate|].
    unfold specs in Hsp1. congruence.
Qed.

(** ** The blocks in use *)

Lemma run_sizes (m : Z -> ascii)
    (minimum_block_size buffer_full_watermark max_allocated_block_size : Z)
    (ops : list op) (r : run_state) :
  run ops (first_run m minimum_block_size buffer_full_watermark
             max_allocated_block_size) = Ok r ->
  m_minimum_block_size (buf r) = minimum_block_size /\
  m_max_allocated_block_size (buf r) = max_allocated_block_size.
Proof.
  intros Hrun. pose proof (run_specs _ _ _ Hrun) as Hs.
  unfold first_run in Hs. simpl in Hs.
  rewrite specs_first_StreamBuf in Hs. unfold specs in Hs.
  split; congruence.
Qed.

(** The blocks in use stay within [max_allocated_block_size].  For a
    buffer whose first block is within [max_allocated_block_size],
    after any calls of [xsputn_a], [overflow_a], [xsgetn_a] and
    [underflow_a] that offer fewer than 2^31 bytes in all, the sizes of the blocks in use add up to
    [m_total_allocated - m_total_freed], which is what
    [get_allocated_upper_bound] returns and is at most
    [max_allocated_block_size]; and every block in use holds at least
    [minimum_block_size] bytes. *)
Theorem blocks_stay_within_max_allocated (m : Z -> ascii)
    (minimum_block_size buffer_full_watermark max_allocated_block_size : Z)
    (ops : list op) :
  0 < minimum_block_size ->
  minimum_block_size + sizeof_MemoryBlock <= 2 ^ 61 ->
  submitted ops + sizeof_MemoryBlock <= 2 ^ 31 ->
  malloc_size (minimum_block_size + sizeof_MemoryBlock) - sizeof_MemoryBlock
    <= max_allocated_block_size < 2 ^ 64 ->
  exists r,
    run_from (start_run m minimum_block_size buffer_full_watermark
                max_allocated_block_size) ops = Ok r /\
    total_size (chain (buf r)) =
      m_total_allocated (buf r) - m_total_freed (buf r) /\
    get_allocated_upper_bound (buf r) = total_size (chain (buf r)) /\
    total_size (chain (buf r)) <= max_allocated_block_size /\
    Forall (fun b => minimum_block_size <= get_size b) (chain (buf r)).
Proof.
  intros Hmin Hmin' Hsub Hmax.
  destruct (run_from_start m minimum_block_size buffer_full_watermark
              max_allocated_block_size ops Hmin Hmin' Hsub Hmax)
    as (r & Hrun & Hrun0 & H).
  exists r. split; [exact Hrun|]. unfold run_inv in H.
  destruct (run_sizes _ _ _ _ _ _ Hrun0) as (Hs1 & Hs2).
  pose proof (inv_alloc _ _ _ _ H) as Halloc.
  destruct (get_allocated_upper_bound_ok _ _ _ _ H) as (Hub & _).
  destruct (inv_max _ _ _ _ H) as (Hwithin & _).
  pose proof (inv_sizes _ _ _ _ H) as Hsizes.
  rewrite Hs1 in Hsizes. rewrite Hs2 in Hwithin.
  split; [lia|]. split; [lia|]. split; [lia | exact Hsizes].
Qed.

(** ** Giving memory back *)

(** What [reset_the_empty_buffer] leaves. *)
Lemma reset_the_empty_buffer_fields (sb : StreamBuf) :
  let sb' := reset_the_empty_buffer sb in
  let start := block_start (m_get_area_block_node sb) in
  chain sb' = chain sb /\
  eback sb' = start /\ gptr sb' = start /\ egptr sb' = start /\
  pbase sb' = start /\ pptr sb' = start /\
  epptr sb' = start + m_minimum_block_size sb /\
  m_last_gptr sb' = start /\
  m_total_allocated sb' = m_total_allocated sb /\
  m_total_freed sb' = m_total_freed sb /\
  m_total_read sb' = m_total_read sb /\
  m_total_reset sb' =
    m_total_reset sb + (m_minimum_block_size sb - (epptr sb - pptr sb)).
Proof.
  unfold reset_the_empty_buffer, setp, sync_egptr, std_setp,
    store_last_gptr, setg, unused_in_last_block, chain.
  cbv zeta. simpl.
  destruct (m_next_egptr sb =? nullptr); simpl;
    repeat split; reflexivity.
Qed.

(** [reduce_buffer] leaves one block of the minimum size, rewound, or
    stops at the [ASSERT] of [MemoryBlock::create].  When every byte
    written has been read and the buffer is down to one block:
    where that block has exactly [m_minimum_block_size] bytes
    [reduce_buffer] keeps it; where it is larger, [reduce_buffer] asks
    [MemoryBlock::create] for [m_minimum_block_size] bytes, which fails
    its [ASSERT] unless that size with the header and the overhead of
    [malloc] is a power of two or a multiple of 4096, and otherwise
    puts a fresh block of that size in its place.  The buffer is then
    one block of [m_minimum_block_size] bytes with the get area and the
    put area empty at its start and [m_last_gptr] there;
    [m_total_allocated - m_total_freed] is [m_minimum_block_size] and
    [m_total_read] is unchanged; and [get_data_size_upper_bound] is 0
    when the block was kept and [m_minimum_block_size] when it was
    replaced. *)
Theorem reduce_buffer_leaves_one_minimum_block (m : Z -> ascii)
    (minimum_block_size buffer_full_watermark max_allocated_block_size : Z)
    (ops : list op) :
  0 < minimum_block_size ->
  minimum_block_size + sizeof_MemoryBlock <= 2 ^ 61 ->
  submitted ops + sizeof_MemoryBlock <= 2 ^ 31 ->
  malloc_size (minimum_block_size + sizeof_MemoryBlock) - sizeof_MemoryBlock
    <= max_allocated_block_size < 2 ^ 64 ->
  exists r,
    run_from (start_run m minimum_block_size buffer_full_watermark
                max_allocated_block_size) ops = Ok r /\
    (readout r = written r -> m_next_chain (buf r) = [] ->
     let old := m_get_area_block_node (buf r) in
     let replaced := get_size old >? minimum_block_size in
     (replaced = true -> create_ASSERT minimum_block_size = false ->
      reduce_buffer (buf r) = Fatal) /\
     (replaced = false \/ create_ASSERT minimum_block_size = true ->
      exists sb' b,
        reduce_buffer (buf r) = Ok sb' /\
        chain sb' = [b] /\
        get_size b = minimum_block_size /\
        0 < block_addr b /\
        (replaced = true ->
         block_end old <= block_addr b \/ block_end b <= block_addr old) /\
        (replaced = false -> b = old) /\
        eback sb' = block_start b /\ gptr sb' = block_start b /\
        egptr sb' = block_start b /\
        pbase sb' = block_start b /\ pptr sb' = block_start b /\
        epptr sb' = block_end b /\
        m_last_gptr sb' = block_start b /\
        m_total_allocated sb' - m_total_freed sb' = minimum_block_size /\
        m_total_read sb' = m_total_read (buf r) /\
        get_data_size_upper_bound sb' =
          (if replaced then minimum_block_size else 0))).
Proof.
  intros Hmin Hmin' Hsub Hmax.
  destruct (run_from_start m minimum_block_size buffer_full_watermark
              max_allocated_block_size ops Hmin Hmin' Hsub Hmax)
    as (r & Hrun & Hrun0 & H).
  exists r. split; [exact Hrun|]. unfold run_inv in H.
  intros Hempty Hnext.
  destruct (run_sizes _ _ _ _ _ _ Hrun0) as (Hspecs & _).
  pose proof (inv_sizes _ _ _ _ H) as Hsize.
  unfold chain in Hsize. rewrite Hnext in Hsize.
  apply Forall_inv in Hsize.
  pose proof (inv_alloc _ _ _ _ H) as Halloc.
  unfold chain, total_size in Halloc. rewrite Hnext in Halloc.
  simpl in Halloc.
  pose proof (inv_written _ _ _ _ H) as Hw.
  pose proof (inv_read _ _ _ _ H) as Hr.
  rewrite Hempty in Hr.
  pose proof (inv_chain _ _ _ _ H) as Hok. unfold chain in Hok.
  rewrite Hnext in Hok. simpl in Hok. destruct Hok as (Haddr & _).
  pose proof (inv_epptr _ _ _ _ H) as Hep.
  pose proof (inv_pbase _ _ _ _ H) as Hpb.
  unfold m_put_area_block_node in Hep, Hpb. rewrite Hnext in Hep, Hpb.
  simpl in Hep, Hpb.
  intros old replaced. subst old replaced. rewrite <- Hspecs.
  unfold reduce_buffer, replace_first_and_only_MemoryBlock.
  destruct (get_size (m_get_area_block_node (buf r))
            >? m_minimum_block_size (buf r)) eqn:Ebig.
  - (* the block is replaced *)
    rewrite Z.gtb_ltb in Ebig. apply Z.ltb_lt in Ebig.
    split.
    { intros _ Hassert. unfold MemoryBlock_create.
      rewrite Hassert. reflexivity. }
    intros [Hc | Hassert]; [discriminate|].
    rewrite MemoryBlock_create_ok by (assumption || lia).
    destruct (malloc_fresh (chain (buf r))
                (sizeof_MemoryBlock + m_minimum_block_size (buf r))
                ltac:(lia)) as (Hpos & _ & Hfresh).
    rewrite Forall_forall in Hfresh.
    specialize (Hfresh (m_get_area_block_node (buf r)) (or_introl eq_refl)).
    remember (new_MemoryBlock (m_minimum_block_size (buf r))
                (chain (buf r))) as b eqn:Eb.
    assert (Hb : block_addr b
                 = malloc (chain (buf r))
                     (sizeof_MemoryBlock + m_minimum_block_size (buf r))
                 /\ get_size b = m_minimum_block_size (buf r))
      by (rewrite Eb; split; reflexivity).
    destruct Hb as (Hb1 & Hb2). clear Eb.
    match goal with
    | |- context [reset_the_empty_buffer ?x] => remember x as sb1 eqn:Esb1
    end.
    assert (G : m_get_area_block_node sb1 = b /\ m_next_chain sb1 = [] /\
                m_minimum_block_size sb1 = m_minimum_block_size (buf r) /\
                m_total_allocated sb1 =
                  m_total_allocated (buf r) + m_minimum_block_size (buf r)
                /\
                m_total_freed sb1 =
                  m_total_freed (buf r)
                  + get_size (m_get_area_block_node (buf r)) /\
                m_total_read sb1 = m_total_read (buf r) /\
                m_total_reset sb1 = m_total_reset (buf r) /\
                epptr sb1 = epptr (buf r) /\ pptr sb1 = pptr (buf r))
      by (rewrite Esb1; repeat split; reflexivity).
    destruct G as (G1 & G2 & G3 & G4 & G5 & G6 & G7 & G8 & G9).
    clear Esb1.
    pose proof (reset_the_empty_buffer_fields sb1) as F. cbv zeta in F.
    destruct F
      as (Ec & E1 & E2 & E3 & E4 & E5 & E6 & E7 & E8 & E9 & E10 & E11).
    exists (reset_the_empty_buffer sb1), b.
    split; [reflexivity|].
    unfold get_data_size_upper_bound, unused_in_last_block.
    rewrite Ec, E1, E2, E3, E4, E5, E6, E7, E8, E9, E10, E11.
    unfold chain. rewrite G1, G2, G3, G4, G5, G6, G7, G8, G9.
    unfold block_end, block_start in *. rewrite Hb2.
    split; [reflexivity|]. split; [reflexivity|].
    split; [rewrite Hb1; exact Hpos|].
    split; [intros _; rewrite Hb1; lia|]. split; [discriminate|].
    do 7 (split; [reflexivity|]).
    split; [lia|]. split; [reflexivity|].
    rewrite to_size_t_small; lia.
  - (* the block is kept *)
    rewrite Z.gtb_ltb in Ebig. apply Z.ltb_ge in Ebig.
    split; [discriminate|]. intros _.
    pose proof (reset_the_empty_buffer_fields (buf r)) as F.
    cbv zeta in F.
    destruct F
      as (Ec & E1 & E2 & E3 & E4 & E5 & E6 & E7 & E8 & E9 & E10 & E11).
    exists (reset_the_empty_buffer (buf r)), (m_get_area_block_node (buf r)).
    split; [reflexivity|].
    unfold get_data_size_upper_bound, unused_in_last_block.
    rewrite Ec, E1, E2, E3, E4, E5, E6, E7, E8, E9, E10, E11.
    unfold chain. rewrite Hnext.
    unfold block_end, block_start in *.
    split; [reflexivity|]. split; [lia|]. split; [exact Haddr|].
    split; [discriminate|]. split; [reflexivity|].
    do 5 (split; [reflexivity|]).
    split; [lia|]. split; [reflexivity|].
    split; [lia|]. split; [reflexivity|].
    rewrite to_size_t_small; lia.
Qed.
(** ** Every call of a stream or a device *)





(** *** Raw access *)

(** The bytes at the get pointer that were written, are not read and
    lie in the block of the get area; none while the get area waits
    for the reset that the producer has asked for. *)
Definition contiguous_unread (sb : StreamBuf) : Z :=
  if resetting sb then 0 else get_available sb.










(** *** Giving memory back *)




(** *** The calls and their contracts *)

(** What was written in total to the buffer, as
    [get_data_size_upper_bound] counts it (StreamBuf.h). *)
Definition total_written (sb : StreamBuf) : Z :=
  m_total_allocated sb - unused_in_last_block sb + m_total_reset sb.

(** What a call asks of its caller.  A call that writes keeps the
    bytes written in total, and the block header, within what an [int]
    holds; [raw_reduce_buffer_if_empty] counts for
    [m_minimum_block_size] bytes there.  [dev2buf_bump] publishes no
    more than the put area holds, and [raw_gbump] skips no more than
    the bytes that are written, not read and contiguous at the get
    pointer. *)
Definition in_contract (c : call) (sb : StreamBuf) : bool :=
  match c with
  | Stream (Xsputn s) =>
      total_written sb + Z.of_nat (length s) + sizeof_MemoryBlock <=? 2 ^ 31
  | Stream (Overflow _) | Dev2buf_contiguous_forced =>
      total_written sb + 1 + sizeof_MemoryBlock <=? 2 ^ 31
  | Stream (Xsgetn _) | Stream Underflow | Buf2dev_contiguous_forced => true
  | Dev2buf_bump bytes =>
      (pptr sb + Z.of_nat (length bytes) <=? epptr sb)
      && (total_written sb + Z.of_nat (length bytes) + sizeof_MemoryBlock
          <=? 2 ^ 31)
  | Raw_gbump n => (0 <=? n) && (n <=? contiguous_unread sb)
  | Raw_reduce_buffer_if_empty =>
      total_written sb + m_minimum_block_size sb + sizeof_MemoryBlock
      <=? 2 ^ 31
  end.

(** The states of a buffer that its constructor and the calls made
    within their contracts lead to. *)
Inductive reachable (m : Z -> ascii)
    (minimum_block_size buffer_full_watermark max_allocated_block_size : Z)
  : StreamBuf -> Prop :=
| reachable_new (sb : StreamBuf) :
    StreamBuf_new m minimum_block_size buffer_full_watermark
      max_allocated_block_size = Ok sb ->
    reachable m minimum_block_size buffer_full_watermark
      max_allocated_block_size sb
| reachable_call (c : call) (sb sb' : StreamBuf) :
    reachable m minimum_block_size buffer_full_watermark
      max_allocated_block_size sb ->
    in_contract c sb = true ->
    exec_call c sb = Ok sb' ->
    reachable m minimum_block_size buffer_full_watermark
      max_allocated_block_size sb'.











(** ** The counters *)


End Model.

(** ** A small machine to run on *)

(** A block header of 24 bytes and 8 bytes of overhead of [malloc];
    [s_next_egptr_init] at address 8; a [malloc_size] that rounds the
    heap space up to a power of two and a [max_malloc_size] that rounds
    it down to one; and a [malloc] that hands out the addresses above
    everything in use. *)
Definition sample_sizeof_MemoryBlock : Z := 24.

Definition sample_s_next_egptr_init : Z := 8.

Definition sample_malloc_overhead_c : Z := 8.

Definition sample_is_power_of_two (n : Z) : bool :=
  (0 <? n) && (n =? 2 ^ Z.log2 n).

Definition sample_malloc_size (n : Z) : Z :=
  2 ^ Z.log2_up (n + sample_malloc_overhead_c) - sample_malloc_overhead_c.

Definition sample_max_malloc_size (n : Z) : Z :=
  2 ^ Z.log2 (n + sample_malloc_overhead_c) - sample_malloc_overhead_c.

Definition sample_malloc (live : list MemoryBlock) (n : Z) : Z :=
  1 + fold_right Z.max 16 (map (block_end sample_sizeof_MemoryBlock) live).

Definition sample_mem : Z -> ascii := fun _ => zero.

Definition sample_new (minimum_block_size max_allocated_block_size : Z)
  : result StreamBuf :=
  StreamBuf_new sample_sizeof_MemoryBlock sample_s_next_egptr_init
    sample_malloc_overhead_c sample_is_power_of_two
    sample_malloc_size sample_malloc sample_mem
    minimum_block_size 64 max_allocated_block_size.

Definition sample_start (minimum_block_size max_allocated_block_size : Z)
  : result run_state :=
  start_run sample_sizeof_MemoryBlock sample_s_next_egptr_init
    sample_malloc_overhead_c sample_is_power_of_two
    sample_malloc_size sample_malloc sample_mem
    minimum_block_size 64 max_allocated_block_size.

Definition sample_run (ops : list op) (start : result run_state)
  : result run_state :=
  run_from sample_sizeof_MemoryBlock sample_s_next_egptr_init
    sample_malloc_overhead_c sample_is_power_of_two
    sample_malloc_size sample_max_malloc_size sample_malloc start ops.

Definition sample_xsputn_a (s : list ascii) (sb : StreamBuf)
  : result (Z * StreamBuf) :=
  xsputn_a sample_sizeof_MemoryBlock sample_s_next_egptr_init
    sample_malloc_overhead_c sample_is_power_of_two
    sample_malloc_size sample_max_malloc_size sample_malloc s sb.

Definition hello : list ascii := ["h"; "e"; "l"; "l"; "o"]%char.

Definition digits : list ascii :=
  ["0"; "1"; "2"; "3"; "4"; "5"; "6"; "7"; "8"; "9"]%char.

Definition forty : list ascii := digits ++ digits ++ digits ++ digits.

Lemma sample_sizeof_MemoryBlock_pos : 0 < sample_sizeof_MemoryBlock.
Proof. reflexivity. Qed.

Lemma sample_s_next_egptr_init_not_null :
  sample_s_next_egptr_init <> nullptr.
Proof. discriminate. Qed.

Lemma sample_malloc_above (live : list MemoryBlock) :
  Forall
    (fun b =>
       block_end sample_sizeof_MemoryBlock b <=
         fold_right Z.max 16 (map (block_end sample_sizeof_MemoryBlock) live))
    live.
Proof.
  induction live as [|b live IH]; [constructor|].
  simpl. constructor; [lia|].
  apply Forall_impl with (2 := IH). intros a Ha. lia.
Qed.

Lemma sample_malloc_fresh (live : list MemoryBlock) (n : Z) :
  sample_sizeof_MemoryBlock <= n ->
  0 < sample_malloc live n /\
  (sample_s_next_egptr_init < sample_malloc live n \/
   sample_malloc live n + n < sample_s_next_egptr_init) /\
  Forall
    (fun b =>
       block_end sample_sizeof_MemoryBlock b <= sample_malloc live n \/
       sample_malloc live n + n <= block_addr b) live.
Proof.
  intros _. unfold sample_malloc, sample_s_next_egptr_init.
  assert (H16 : 16 <= fold_right Z.max 16
                        (map (block_end sample_sizeof_MemoryBlock) live)).
  { induction live as [|b live IH]; simpl; lia. }
  split; [lia|]. split; [left; lia|].
  apply Forall_impl with (2 := sample_malloc_above live).
  intros a Ha. left. lia.
Qed.

Lemma sample_malloc_size_rounds_up (x : Z) :
  sample_sizeof_MemoryBlock <= x <= 2 ^ 61 ->
  x <= sample_malloc_size x <= 2 ^ 62.
Proof.
  unfold sample_malloc_size, sample_sizeof_MemoryBlock,
    sample_malloc_overhead_c.
  intros Hx.
  destruct (Z.log2_up_spec (x + 8) ltac:(lia)) as [_ Hup].
  assert (Hl : Z.log2_up (x + 8) <= 62)
    by (apply Z.log2_up_le_pow2; lia).
  pose proof (Z.pow_le_mono_r 2 _ _ ltac:(lia) Hl) as Hp.
  lia.
Qed.

Lemma sample_max_malloc_size_fits (x : Z) :
  sample_sizeof_MemoryBlock <= x < 2 ^ 64 ->
  sample_sizeof_MemoryBlock <= sample_max_malloc_size x <= x.
Proof.
  unfold sample_max_malloc_size, sample_sizeof_MemoryBlock,
    sample_malloc_overhead_c.
  intros Hx.
  destruct (Z.log2_spec (x + 8) ltac:(lia)) as [Hlo _].
  pose proof (Z.log2_le_mono 32 (x + 8) ltac:(lia)) as Hl.
  change (Z.log2 32) with 5 in Hl.
  pose proof (Z.pow_le_mono_r 2 _ _ ltac:(lia) Hl) as Hp.
  lia.
Qed.

Lemma sample_is_power_of_two_pow2 (l : Z) :
  0 <= l -> sample_is_power_of_two (2 ^ l) = true.
Proof.
  intros Hl. unfold sample_is_power_of_two.
  rewrite Z.log2_pow2 by exact Hl. rewrite Z.eqb_refl.
  pose proof (Z.pow_pos_nonneg 2 l ltac:(lia) Hl) as Hp.
  replace (0 <? 2 ^ l) with true by (symmetry; apply Z.ltb_lt; exact Hp).
  reflexivity.
Qed.

Lemma sample_malloc_size_ASSERT (x : Z) :
  sample_sizeof_MemoryBlock <= x <= 2 ^ 61 ->
  create_ASSERT sample_sizeof_MemoryBlock sample_malloc_overhead_c
    sample_is_power_of_two
    (sample_malloc_size x - sample_sizeof_MemoryBlock) = true.
Proof.
  intros Hx. pose proof (sample_malloc_size_rounds_up x Hx) as Hr.
  unfold create_ASSERT, sample_malloc_size, sample_sizeof_MemoryBlock,
    sample_malloc_overhead_c in *.
  replace (24 + (2 ^ Z.log2_up (x + 8) - 8 - 24) + 8)
    with (2 ^ Z.log2_up (x + 8)) by lia.
  unfold to_size_t. rewrite Z.mod_small by lia.
  rewrite sample_is_power_of_two_pow2 by apply Z.log2_up_nonneg.
  reflexivity.
Qed.

Lemma sample_max_malloc_size_ASSERT (x : Z) :
  sample_sizeof_MemoryBlock <= x < 2 ^ 64 ->
  create_ASSERT sample_sizeof_MemoryBlock sample_malloc_overhead_c
    sample_is_power_of_two
    (sample_max_malloc_size x - sample_sizeof_MemoryBlock) = true.
Proof.
  intros Hx. pose proof (sample_max_malloc_size_fits x Hx) as Hr.
  unfold create_ASSERT, sample_max_malloc_size, sample_sizeof_MemoryBlock,
    sample_malloc_overhead_c in *.
  replace (24 + (2 ^ Z.log2 (x + 8) - 8 - 24) + 8)
    with (2 ^ Z.log2 (x + 8)) by lia.
  unfold to_size_t.
  destruct (Z_lt_le_dec (2 ^ Z.log2 (x + 8)) (2 ^ 64)) as [Hlt | Hge].
  - rewrite Z.mod_small by lia.
    rewrite sample_is_power_of_two_pow2 by apply Z.log2_nonneg.
    reflexivity.
  - assert (E : 2 ^ Z.log2 (x + 8) = 2 ^ 64).
    { assert (Hl : Z.log2 (x + 8) < 65)
        by (apply Z.log2_lt_pow2; lia).
      assert (Hl' : 64 <= Z.log2 (x + 8)).
      { destruct (Z_lt_le_dec (Z.log2 (x + 8)) 64) as [Hc | Hc];
          [|exact Hc].
        exfalso.
        pose proof (Z.pow_le_mono_r 2 (Z.log2 (x + 8)) 63 ltac:(lia)
                      ltac:(lia)).
        lia. }
      replace (Z.log2 (x + 8)) with 64 by lia. reflexivity. }
    rewrite E. rewrite Z.mod_same by lia.
    apply orb_true_r.
Qed.

(** ** The theorems on the small machine *)



(** A buffer as the constructor leaves it. *)
Definition sample_first (minimum_block_size max_allocated_block_size : Z)
  : StreamBuf :=
  first_StreamBuf sample_sizeof_MemoryBlock sample_s_next_egptr_init
    sample_malloc_size sample_malloc sample_mem
    minimum_block_size 64 max_allocated_block_size.






(** C2.  [StreamBuf(32, 64, 32)]: the constructor allocates one block
    of [malloc_size(32 + 24) - 24 = 32] bytes, and no more than 32
    bytes may be allocated.  [xsputn_a] of forty bytes copies 32 of
    them into the block and publishes them, finds that not even a block
    of the minimum size fits, and returns [EOF], that is -1, not the 32
    bytes it copied. *)
Theorem xsputn_a_buffer_full_returns_EOF :
  exists sb sb',
    sample_new 32 32 = Ok sb /\
    get_size (m_get_area_block_node sb) = 32 /\
    m_next_chain sb = [] /\
    sample_xsputn_a forty sb = Ok (EOF, sb') /\
    EOF = -1 /\
    xsputn_a_copied sample_sizeof_MemoryBlock sample_s_next_egptr_init
      sample_malloc_overhead_c sample_is_power_of_two
      sample_malloc_size sample_max_malloc_size sample_malloc
      forty sb = firstn 32 forty /\
    pptr sb' - pbase sb' = 32 /\
    m_next_egptr sb' = pptr sb' /\
    read_bytes (mem sb') (pbase sb') 32 = firstn 32 forty /\
    choose_block_size sample_sizeof_MemoryBlock sample_malloc_size
      sample_max_malloc_size sb' = None.
Proof.
  destruct (sample_new 32 32) as [sb| |] eqn:En;
    [|exfalso; vm_compute in En; discriminate En
     |exfalso; vm_compute in En; discriminate En].
  assert (Es : sb = sample_first 32 32).
  { assert (E : sample_new 32 32 = Ok (sample_first 32 32))
      by (vm_compute; reflexivity).
    rewrite En in E. injection E as E. exact E. }
  subst sb. clear En.
  destruct (sample_xsputn_a forty (sample_first 32 32))
    as [[ret sb']| |] eqn:E;
    [|exfalso; vm_compute in E; discriminate E
     |exfalso; vm_compute in E; discriminate E].
  assert (H : match sample_xsputn_a forty (sample_first 32 32) with
              | Ok (ret, sb') =>
                  ret = EOF /\
                  pptr sb' - pbase sb' = 32 /\
                  m_next_egptr sb' = pptr sb' /\
                  read_bytes (mem sb') (pbase sb') 32 = firstn 32 forty /\
                  choose_block_size sample_sizeof_MemoryBlock
                    sample_malloc_size sample_max_malloc_size sb' = None
              | _ => False
              end)
    by (vm_compute; repeat split).
  rewrite E in H. destruct H as (-> & H1 & H2 & H3 & H4).
  exists (sample_first 32 32), sb'.
  split; [vm_compute; reflexivity|]. split; [vm_compute; reflexivity|].
  split; [vm_compute; reflexivity|]. split; [exact E|].
  split; [reflexivity|]. split; [vm_compute; reflexivity|].
  split; [exact H1|]. split; [exact H2|]. split; [exact H3 | exact H4].
Qed.
(** ** Further theorems on the small machine *)

Definition sample_xsgetn_a (n : Z) (sb : StreamBuf)
  : result (Z * list ascii * StreamBuf) :=
  xsgetn_a sample_sizeof_MemoryBlock n sb.

Definition sample_underflow_a (sb : StreamBuf) : result (Z * StreamBuf) :=
  underflow_a sample_sizeof_MemoryBlock sb.

Definition sample_reduce_buffer (sb : StreamBuf) : result StreamBuf :=
  reduce_buffer sample_sizeof_MemoryBlock sample_malloc_overhead_c
    sample_is_power_of_two sample_malloc sb.

Lemma data_size_upper_bound_is_exact_witness :
  exists r,
    sample_run [Xsputn digits; Xsgetn 4] (sample_start 8 1024) = Ok r /\
    get_data_size_upper_bound (buf r) =
      Z.of_nat (length (written r)) - Z.of_nat (length (readout r)).
Proof.
  destruct (data_size_upper_bound_is_exact
              sample_sizeof_MemoryBlock sample_s_next_egptr_init
              sample_malloc_overhead_c sample_is_power_of_two
              sample_malloc_size sample_max_malloc_size sample_malloc
              sample_sizeof_MemoryBlock_pos
              sample_s_next_egptr_init_not_null
              sample_malloc_fresh sample_malloc_size_rounds_up
              sample_max_malloc_size_fits
              sample_malloc_size_ASSERT sample_max_malloc_size_ASSERT
              sample_mem 8 64 1024 [Xsputn digits; Xsgetn 4])
    as (r & Hrun & Hd & _).
  - reflexivity.
  - vm_compute. discriminate.
  - vm_compute. discriminate.
  - split; vm_compute; [discriminate | reflexivity].
  - exists r. split; [exact Hrun | exact Hd].
Defined.

Lemma reset_never_discards_unread_data_witness :
  exists r,
    sample_run [Xsputn hello; Xsgetn 5] (sample_start 8 1024) = Ok r /\
    put_area_must_reset (buf r) = true /\
    readout r = written r.
Proof.
  destruct (reset_never_discards_unread_data
              sample_sizeof_MemoryBlock sample_s_next_egptr_init
              sample_malloc_overhead_c sample_is_power_of_two
              sample_malloc_size sample_max_malloc_size sample_malloc
              sample_sizeof_MemoryBlock_pos
              sample_s_next_egptr_init_not_null
              sample_malloc_fresh sample_malloc_size_rounds_up
              sample_max_malloc_size_fits
              sample_malloc_size_ASSERT sample_max_malloc_size_ASSERT
              sample_mem 8 64 1024 [Xsputn hello; Xsgetn 5])
    as (r & Hrun & Hreset).
  - reflexivity.
  - vm_compute. discriminate.
  - vm_compute. discriminate.
  - split; vm_compute; [discriminate | reflexivity].
  - exists r. split; [exact Hrun|].
    assert (Hmust : put_area_must_reset (buf r) = true).
    { assert (E : match
                    run_from sample_sizeof_MemoryBlock sample_s_next_egptr_init
                    sample_malloc_overhead_c sample_is_power_of_two
                    sample_malloc_size sample_max_malloc_size sample_malloc
                    (start_run sample_sizeof_MemoryBlock
                       sample_s_next_egptr_init sample_malloc_overhead_c
                       sample_is_power_of_two sample_malloc_size
                       sample_malloc sample_mem 8 64 1024)
                    [Xsputn hello; Xsgetn 5]
                  with
                  | Ok r0 => put_area_must_reset (buf r0)
                  | _ => false
                  end = true) by (vm_compute; reflexivity).
      rewrite Hrun in E. exact E. }
    split; [exact Hmust|]. apply (Hreset Hmust).
Defined.

Lemma xsgetn_a_takes_the_oldest_bytes_witness :
  exists r rest out sb',
    sample_run [Xsputn digits; Xsputn hello] (sample_start 8 1024) = Ok r /\
    written r = readout r ++ rest /\
    out = firstn 12 rest /\
    sample_xsgetn_a 12 (buf r) = Ok (Z.of_nat (length out), out, sb').
Proof.
  destruct (xsgetn_a_takes_the_oldest_bytes
              sample_sizeof_MemoryBlock sample_s_next_egptr_init
              sample_malloc_overhead_c sample_is_power_of_two
              sample_malloc_size sample_max_malloc_size sample_malloc
              sample_sizeof_MemoryBlock_pos
              sample_s_next_egptr_init_not_null
              sample_malloc_fresh sample_malloc_size_rounds_up
              sample_max_malloc_size_fits
              sample_malloc_size_ASSERT sample_max_malloc_size_ASSERT
              sample_mem 8 64 1024 [Xsputn digits; Xsputn hello] 12)
    as (r & rest & out & sb' & Hrun & Hw & Hout & Hget & _).
  - reflexivity.
  - vm_compute. discriminate.
  - vm_compute. discriminate.
  - split; vm_compute; [discriminate | reflexivity].
  - exists r, rest, out, sb'.
    split; [exact Hrun|]. split; [exact Hw|]. split; [exact Hout|].
    exact Hget.
Defined.

Lemma underflow_a_shows_the_next_bytes_witness :
  exists r rest ret sb',
    sample_run [Xsputn digits; Xsgetn 9] (sample_start 8 1024) = Ok r /\
    written r = readout r ++ rest /\
    sample_underflow_a (buf r) = Ok (ret, sb') /\
    (ret = EOF <-> rest = []).
Proof.
  destruct (underflow_a_shows_the_next_bytes
              sample_sizeof_MemoryBlock sample_s_next_egptr_init
              sample_malloc_overhead_c sample_is_power_of_two
              sample_malloc_size sample_max_malloc_size sample_malloc
              sample_sizeof_MemoryBlock_pos
              sample_s_next_egptr_init_not_null
              sample_malloc_fresh sample_malloc_size_rounds_up
              sample_max_malloc_size_fits
              sample_malloc_size_ASSERT sample_max_malloc_size_ASSERT
              sample_mem 8 64 1024 [Xsputn digits; Xsgetn 9])
    as (r & rest & ret & sb' & Hrun & Hw & Hun & Hret & _).
  - reflexivity.
  - vm_compute. discriminate.
  - vm_compute. discriminate.
  - split; vm_compute; [discriminate | reflexivity].
  - exists r, rest, ret, sb'.
    split; [exact Hrun|]. split; [exact Hw|]. split; [exact Hun|].
    exact Hret.
Defined.

Lemma xsputn_a_returns_n_or_EOF_witness :
  exists r ret sb',
    sample_run [Xsputn hello] (sample_start 8 (2 ^ 64 - 1)) = Ok r /\
    sample_xsputn_a digits (buf r) = Ok (ret, sb') /\
    ret = 10.
Proof.
  destruct (xsputn_a_returns_n_or_EOF
              sample_sizeof_MemoryBlock sample_s_next_egptr_init
              sample_malloc_overhead_c sample_is_power_of_two
              sample_malloc_size sample_max_malloc_size sample_malloc
              sample_sizeof_MemoryBlock_pos
              sample_s_next_egptr_init_not_null
              sample_malloc_fresh sample_malloc_size_rounds_up
              sample_max_malloc_size_fits
              sample_malloc_size_ASSERT sample_max_malloc_size_ASSERT
              sample_mem 8 64 (2 ^ 64 - 1) [Xsputn hello] digits 65)
    as (r & ret & sb' & rest & ret1 & sb1 & Hrun & Hput & _ & _ & _ & _
        & Hmax).
  - reflexivity.
  - vm_compute. discriminate.
  - vm_compute. discriminate.
  - split; vm_compute; [discriminate | reflexivity].
  - exists r, ret, sb'. split; [exact Hrun|]. split; [exact Hput|].
    apply (Hmax eq_refl).
Defined.

Lemma reduce_buffer_leaves_one_minimum_block_witness :
  exists r,
    sample_run [Xsputn digits; Xsputn digits; Xsgetn 20]
      (sample_start 32 1024) = Ok r /\
    exists sb' b,
      sample_reduce_buffer (buf r) = Ok sb' /\
      chain sb' = [b] /\
      get_size b = 32.
Proof.
  destruct (reduce_buffer_leaves_one_minimum_block
              sample_sizeof_MemoryBlock sample_s_next_egptr_init
              sample_malloc_overhead_c sample_is_power_of_two
              sample_malloc_size sample_max_malloc_size sample_malloc
              sample_sizeof_MemoryBlock_pos
              sample_s_next_egptr_init_not_null
              sample_malloc_fresh sample_malloc_size_rounds_up
              sample_max_malloc_size_fits
              sample_malloc_size_ASSERT sample_max_malloc_size_ASSERT
              sample_mem 32 64 1024
              [Xsputn digits; Xsputn digits; Xsgetn 20])
    as (r & Hrun & Hreduce).
  - reflexivity.
  - vm_compute. discriminate.
  - vm_compute. discriminate.
  - split; vm_compute; [discriminate | reflexivity].
  - exists r. split; [exact Hrun|].
    assert (E : match
                  run_from sample_sizeof_MemoryBlock sample_s_next_egptr_init
                    sample_malloc_overhead_c sample_is_power_of_two
                    sample_malloc_size sample_max_malloc_size sample_malloc
                    (start_run sample_sizeof_MemoryBlock
                       sample_s_next_egptr_init sample_malloc_overhead_c
                       sample_is_power_of_two sample_malloc_size
                       sample_malloc sample_mem 32 64 1024)
                    [Xsputn digits; Xsputn digits; Xsgetn 20]
                with
                | Ok r0 =>
                    readout r0 = written r0 /\
                    m_next_chain (buf r0) = [] /\
                    (get_size (m_get_area_block_node (buf r0)) >? 32)
                    = false
                | _ => False
                end) by (vm_compute; repeat split; reflexivity).
    rewrite Hrun in E.
    destruct E as (Hempty & Hnext & Hkept).
    destruct (Hreduce Hempty Hnext) as (_ & Hok).
    destruct (Hok (or_introl Hkept)) as (sb' & b & Hred & Hchain & Hsize & _).
    exists sb', b. split; [exact Hred|]. split; [exact Hchain | exact Hsize].
Defined.

Lemma blocks_stay_within_max_allocated_witness :
  exists r,
    sample_run [Xsputn digits; Xsgetn 3; Xsputn digits; Xsputn hello]
      (sample_start 8 96) = Ok r /\
    total_size (chain (buf r)) <= 96.
Proof.
  destruct (blocks_stay_within_max_allocated
              sample_sizeof_MemoryBlock sample_s_next_egptr_init
              sample_malloc_overhead_c sample_is_power_of_two
              sample_malloc_size sample_max_malloc_size sample_malloc
              sample_sizeof_MemoryBlock_pos
              sample_s_next_egptr_init_not_null
              sample_malloc_fresh sample_malloc_size_rounds_up
              sample_max_malloc_size_fits
              sample_malloc_size_ASSERT sample_max_malloc_size_ASSERT
              sample_mem 8 64 96
              [Xsputn digits; Xsgetn 3; Xsputn digits; Xsputn hello])
    as (r & Hrun & _ & _ & Hmax & _).
  - reflexivity.
  - vm_compute. discriminate.
  - vm_compute. discriminate.
  - split; vm_compute; [discriminate | reflexivity].
  - exists r. split; [exact Hrun | exact Hmax].
Defined.

(** ** The devices of a buffer *)

(** What [set_input_device], [set_output_device] and [release] do
    outside the buffer: the calls on a device, and [delete this]. *)
Inductive device_effect : Type :=
| inhibit_deletion (device : Z)
| allow_deletion (device : Z)
| delete_this.

(** [m_device_counter], [m_idevice] and [m_odevice] of a [StreamBuf],
    whether the buffer still exists, and the calls made so far.
    Devices are addresses; the null pointer is 0. *)
Record devices : Type := mkDevices {
  m_device_counter : Z;
  m_idevice : Z;
  m_odevice : Z;
  alive : bool;
  made : list device_effect
}.

(** A buffer as its constructor leaves it. *)
Definition no_devices : devices := mkDevices 0 nullptr nullptr true [].

(** [StreamBuf::set_input_device]; [Fatal] at a failed [ASSERT], on a
    deleted buffer and where a null [m_odevice] would be called. *)
Definition set_input_device (device : Z) (d : devices) : result devices :=
  if negb (alive d) then Fatal
  else if negb (m_idevice d =? nullptr) then Fatal
  else
    let counter := m_device_counter d + 1 in
    if counter =? 2 then
      if m_odevice d =? nullptr then Fatal
      else
        Ok (mkDevices counter device (m_odevice d) true
              (made d ++ [inhibit_deletion (m_odevice d)]))
    else Ok (mkDevices counter device (m_odevice d) true (made d)).

(** [StreamBuf::set_output_device]. *)
Definition set_output_device (device : Z) (d : devices) : result devices :=
  if negb (alive d) then Fatal
  else if negb (m_odevice d =? nullptr) then Fatal
  else
    let counter := m_device_counter d + 1 in
    if counter =? 2 then
      if device =? nullptr then Fatal
      else
        Ok (mkDevices counter (m_idevice d) device true
              (made d ++ [inhibit_deletion device]))
    else Ok (mkDevices counter (m_idevice d) device true (made d)).

(** [StreamBuf::release]: what it returns, and the buffer. *)
Definition release (device : Z) (d : devices) : result (bool * devices) :=
  if negb (alive d) then Fatal
  else if negb (m_device_counter d >? 0) then Fatal
  else
    let counter := m_device_counter d - 1 in
    if counter =? 0 then
      Ok (true,
          mkDevices counter (m_idevice d) (m_odevice d) false
            (made d ++ [delete_this]))
    else if negb (device =? m_idevice d) then Fatal
    else if m_odevice d =? nullptr then Fatal
    else
      Ok (false,
          mkDevices counter nullptr (m_odevice d) true
            (made d ++ [allow_deletion (m_odevice d)])).

Inductive device_op : Type :=
| SetInput (device : Z)
| SetOutput (device : Z)
| Release (device : Z).

Definition apply_device_op (o : device_op) (d : devices) : result devices :=
  match o with
  | SetInput device => set_input_device device d
  | SetOutput device => set_output_device device d
  | Release device =>
      match release device d with
      | Ok (_, d') => Ok d'
      | Fatal => Fatal
      | OutOfFuel => OutOfFuel
      end
  end.

Fixpoint apply_device_ops (l : list device_op) (d : devices)
  : result devices :=
  match l with
  | [] => Ok d
  | o :: l' =>
      match apply_device_op o d with
      | Ok d' => apply_device_ops l' d'
      | Fatal => Fatal
      | OutOfFuel => OutOfFuel
      end
  end.

(** The devices the calls name are not null. *)
Definition names_device (o : device_op) : Prop :=
  match o with
  | SetInput device | SetOutput device | Release device => device <> nullptr
  end.

(** How many more times [inhibit_deletion] than [allow_deletion] was
    called on [device]. *)
Fixpoint inhibited (device : Z) (t : list device_effect) : Z :=
  match t with
  | [] => 0
  | inhibit_deletion x :: t' =>
      (if x =? device then 1 else 0) + inhibited device t'
  | allow_deletion x :: t' =>
      (if x =? device then -1 else 0) + inhibited device t'
  | delete_this :: t' => inhibited device t'
  end.

Fixpoint deletions (t : list device_effect) : Z :=
  match t with
  | [] => 0
  | delete_this :: t' => 1 + deletions t'
  | _ :: t' => deletions t'
  end.

Lemma inhibited_app (device : Z) (t u : list device_effect) :
  inhibited device (t ++ u) = inhibited device t + inhibited device u.
Proof.
  induction t as [|e t IH]; simpl; [reflexivity|].
  destruct e; rewrite IH; lia.
Qed.

Lemma deletions_app (t u : list device_effect) :
  deletions (t ++ u) = deletions t + deletions u.
Proof.
  induction t as [|e t IH]; [reflexivity|].
  destruct e; cbn [deletions app]; rewrite IH; lia.
Qed.

Definition attached (p : Z) : Z := if p =? nullptr then 0 else 1.

(** What holds of the devices of a buffer between calls. *)
Record devices_ok (d : devices) : Prop := mkDevicesOk {
  ok_counter :
    alive d = true ->
    m_device_counter d = attached (m_idevice d) + attached (m_odevice d);
  ok_gone : alive d = false -> m_device_counter d = 0;
  ok_inhibited :
    forall device,
      inhibited device (made d) =
      if alive d && (m_device_counter d =? 2) && (device =? m_odevice d)
      then 1 else 0;
  ok_deletions : deletions (made d) = if alive d then 0 else 1
}.

Lemma devices_ok_no_devices : devices_ok no_devices.
Proof. constructor; simpl; intros; try reflexivity; discriminate. Qed.

Lemma devices_ok_step (o : device_op) (d d' : devices) :
  names_device o -> devices_ok d -> apply_device_op o d = Ok d' ->
  devices_ok d'.
Proof.
  intros Hname [Hc Hg Hi Hd] Hop.
  destruct o as [device | device | device]; simpl in Hop, Hname.
  - unfold set_input_device in Hop.
    destruct (alive d) eqn:Ee; [|discriminate]. simpl in Hop.
    destruct (Z.eqb_spec (m_idevice d) nullptr) as [Ein|]; [|discriminate].
    simpl in Hop. specialize (Hc eq_refl). rewrite Ein in Hc.
    unfold attached in Hc. simpl in Hc.
    apply Z.eqb_neq in Hname.
    destruct (Z.eqb_spec (m_odevice d) nullptr) as [Eo|Eo].
    + replace (m_device_counter d + 1 =? 2) with false in Hop
        by (symmetry; apply Z.eqb_neq; lia).
      injection Hop as <-. constructor; simpl.
      * intros _. unfold attached. rewrite Hname, Eo. simpl. lia.
      * discriminate.
      * intros x. rewrite Hi.
        replace (m_device_counter d =? 2) with false
          by (symmetry; apply Z.eqb_neq; lia).
        replace (m_device_counter d + 1 =? 2) with false
          by (symmetry; apply Z.eqb_neq; lia).
        reflexivity.
      * exact Hd.
    + replace (m_device_counter d + 1 =? 2) with true in Hop
        by (symmetry; apply Z.eqb_eq; lia).
      injection Hop as <-. constructor; simpl.
      * intros _. unfold attached. rewrite Hname.
        apply Z.eqb_neq in Eo. rewrite Eo. lia.
      * discriminate.
      * intros x. rewrite inhibited_app, Hi. simpl.
        replace (m_device_counter d =? 2) with false
          by (symmetry; apply Z.eqb_neq; lia).
        replace (m_device_counter d + 1 =? 2) with true
          by (symmetry; apply Z.eqb_eq; lia).
        simpl. rewrite (Z.eqb_sym x). destruct (m_odevice d =? x); lia.
      * rewrite deletions_app, Hd. reflexivity.
  - unfold set_output_device in Hop.
    destruct (alive d) eqn:Ee; [|discriminate]. simpl in Hop.
    destruct (Z.eqb_spec (m_odevice d) nullptr) as [Eo|]; [|discriminate].
    simpl in Hop. specialize (Hc eq_refl). rewrite Eo in Hc.
    unfold attached in Hc. simpl in Hc.
    apply Z.eqb_neq in Hname. rewrite Hname in Hop.
    destruct (Z.eqb_spec (m_idevice d) nullptr) as [Ein|Ein].
    + replace (m_device_counter d + 1 =? 2) with false in Hop
        by (symmetry; apply Z.eqb_neq; lia).
      injection Hop as <-. constructor; simpl.
      * intros _. unfold attached. rewrite Hname, Ein. simpl. lia.
      * discriminate.
      * intros x. rewrite Hi.
        replace (m_device_counter d =? 2) with false
          by (symmetry; apply Z.eqb_neq; lia).
        replace (m_device_counter d + 1 =? 2) with false
          by (symmetry; apply Z.eqb_neq; lia).
        reflexivity.
      * exact Hd.
    + replace (m_device_counter d + 1 =? 2) with true in Hop
        by (symmetry; apply Z.eqb_eq; lia).
      injection Hop as <-. constructor; simpl.
      * intros _. unfold attached. rewrite Hname.
        apply Z.eqb_neq in Ein. rewrite Ein. lia.
      * discriminate.
      * intros x. rewrite inhibited_app, Hi. simpl.
        replace (m_device_counter d =? 2) with false
          by (symmetry; apply Z.eqb_neq; lia).
        replace (m_device_counter d + 1 =? 2) with true
          by (symmetry; apply Z.eqb_eq; lia).
        simpl. rewrite (Z.eqb_sym x). destruct (device =? x); lia.
      * rewrite deletions_app, Hd. reflexivity.
  - unfold release in Hop.
    destruct (alive d) eqn:Ee; [|discriminate]. simpl in Hop.
    destruct (m_device_counter d >? 0) eqn:Epos; [|discriminate].
    simpl in Hop. rewrite Z.gtb_ltb in Epos. apply Z.ltb_lt in Epos.
    specialize (Hc eq_refl).
    assert (Hcases : m_device_counter d = 1 \/ m_device_counter d = 2).
    { unfold attached in Hc.
      destruct (m_idevice d =? nullptr), (m_odevice d =? nullptr); lia. }
    destruct Hcases as [E1 | E2].
    + rewrite E1 in Hop. simpl in Hop. injection Hop as <-.
      constructor; simpl.
      * discriminate.
      * intros _. lia.
      * intros x. rewrite inhibited_app, Hi, E1. simpl. reflexivity.
      * rewrite deletions_app, Hd. reflexivity.
    + rewrite E2 in Hop. simpl in Hop.
      destruct (Z.eqb_spec device (m_idevice d)) as [Ed|]; [|discriminate].
      simpl in Hop.
      destruct (Z.eqb_spec (m_odevice d) nullptr) as [|Eo]; [discriminate|].
      injection Hop as <-. constructor; simpl.
      * intros _. unfold attached. apply Z.eqb_neq in Eo. rewrite Eo.
        reflexivity.
      * discriminate.
      * intros x. rewrite inhibited_app, Hi, E2. simpl.
        rewrite (Z.eqb_sym x). destruct (m_odevice d =? x); reflexivity.
      * rewrite deletions_app, Hd. reflexivity.
Qed.

Lemma devices_ok_run (l : list device_op) :
  forall d d' : devices,
    Forall names_device l -> devices_ok d ->
    apply_device_ops l d = Ok d' -> devices_ok d'.
Proof.
  induction l as [|o l IH]; intros d d' Hn Hok Hrun; simpl in Hrun.
  - injection Hrun as <-. exact Hok.
  - inversion Hn as [|? ? Ho Hl]; subst.
    destruct (apply_device_op o d) as [d1| |] eqn:E; try discriminate.
    exact (IH d1 d' Hl (devices_ok_step o d d1 Ho Hok E) Hrun).
Qed.

(** The output device is held exactly while both devices are
    attached.  After any calls of [set_input_device],
    [set_output_device] and [release] on a new buffer that pass their
    assertions: while the buffer exists [m_device_counter] is the
    number of devices attached; [inhibit_deletion] was called once more
    than [allow_deletion] on the output device when the counter is 2,
    and equally often on every device otherwise; and the buffer was
    deleted once when the counter came back to 0, and never before. *)
Theorem buffer_holds_output_device_while_shared :
  forall (l : list device_op) (d : devices),
    Forall names_device l ->
    apply_device_ops l no_devices = Ok d ->
    (alive d = true ->
     m_device_counter d = attached (m_idevice d) + attached (m_odevice d)) /\
    (alive d = false -> m_device_counter d = 0) /\
    (forall device,
        inhibited device (made d) =
        if alive d && (m_device_counter d =? 2) && (device =? m_odevice d)
        then 1 else 0) /\
    deletions (made d) = (if alive d then 0 else 1).
Proof.
  intros l d Hn Hrun.
  destruct (devices_ok_run l no_devices d Hn devices_ok_no_devices Hrun)
    as [Hc Hg Hi Hd].
  split; [exact Hc|]. split; [exact Hg|]. split; [exact Hi | exact Hd].
Qed.

Definition sample_device_ops : list device_op :=
  [SetOutput 200; SetInput 100; Release 100; Release 200].

Lemma buffer_holds_output_device_while_shared_witness :
  exists d,
    apply_device_ops sample_device_ops no_devices = Ok d /\
    made d = [inhibit_deletion 200; allow_deletion 200; delete_this] /\
    inhibited 200 (made d) = 0 /\
    deletions (made d) = 1.
Proof.
  destruct (apply_device_ops sample_device_ops no_devices) as [d| |] eqn:E.
  - exists d. split; [reflexivity|].
    assert (Hmade : made d
                    = [inhibit_deletion 200; allow_deletion 200; delete_this]).
    { vm_compute in E. injection E as <-. reflexivity. }
    assert (Hgone : alive d = false).
    { vm_compute in E. injection E as <-. reflexivity. }
    split; [exact Hmade|].
    destruct (buffer_holds_output_device_while_shared sample_device_ops d)
      as (_ & _ & Hi & Hd).
    + repeat constructor; discriminate.
    + exact E.
    + rewrite Hi, Hd, Hgone. split; reflexivity.
  - vm_compute in E. discriminate E.
  - vm_compute in E. discriminate E.
Defined.

End Buf.

(** * INotify.cxx: the watch descriptors of the inotify device *)

Module INotify.

(** [wd_to_inotify_map_type]: the vector of pairs of a watch descriptor
    and the [INotify] object watching it, in the order of [push_back].
    Objects are addresses. *)
Definition wd_to_inotify_map_type : Type := list (Z * Z).

(** A call returns, or stops at a failed [ASSERT]. *)
Inductive checked (A : Type) : Type :=
| done (a : A)
| assertion_failed.
Arguments done {A} a.
Arguments assertion_failed {A}.

(** [IN_NONBLOCK] of <sys/inotify.h>. *)
Definition IN_NONBLOCK : Z := 2048.

(** What [add_watch] calls outside the map, in program order. *)
Inductive made_call : Type :=
| inotify_init1 (flags : Z)
| init (fd : Z)
| start_input_device
| inotify_add_watch (fd : Z).

(** The [INotifyDevice]: whether it is open for reading
    ([is_open_r]), its file descriptor ([get_input_fd]), the calls made
    so far, and [m_wd_to_inotify_map]. *)
Record INotifyDevice : Type := mkINotifyDevice {
  is_open_r : bool;
  get_input_fd : Z;
  calls : list made_call;
  m_wd_to_inotify_map : wd_to_inotify_map_type
}.

(** [INotifyDevice::add_watch]; [init_fd] is what [inotify_init1]
    returns when it is called, [wd] what [inotify_add_watch] returns.
    A device that is not open for reading is set up first: the
    [ASSERT] on the new descriptor, then [init(fd)], which makes the
    device open on [fd], and [start_input_device()].  The returned
    descriptor and the device. *)
Definition add_watch (init_fd wd obj : Z) (dev : INotifyDevice)
  : checked (Z * INotifyDevice) :=
  let set_up :=
    if negb (is_open_r dev) then
      let fd := init_fd in
      if fd =? -1 then assertion_failed
      else
        done (mkINotifyDevice true fd
                (calls dev ++
                 [inotify_init1 IN_NONBLOCK; init fd; start_input_device])
                (m_wd_to_inotify_map dev))
    else done dev in
  match set_up with
  | assertion_failed => assertion_failed
  | done dev =>
      let fd := get_input_fd dev in
      let made := calls dev ++ [inotify_add_watch fd] in
      if wd =? -1 then assertion_failed
      else
        done (wd,
              mkINotifyDevice (is_open_r dev) fd made
                (m_wd_to_inotify_map dev ++ [(wd, obj)]))
  end.

(** [std::find_if] with [FindWatchDescriptor]: the index of the first
    pair whose descriptor is [wd], the length of the vector ([end()])
    when there is none. *)
Fixpoint find_if (m : wd_to_inotify_map_type) (wd : Z) : nat :=
  match m with
  | [] => O
  | d :: m' => if fst d =? wd then O else S (find_if m' wd)
  end.

(** [INotifyDevice::get_inotify_obj]: the iterator, as an index. *)
Definition get_inotify_obj (m : wd_to_inotify_map_type) (wd : Z)
  : checked nat :=
  let result := find_if m wd in
  if Nat.eqb result (length m) then assertion_failed else done result.

(** [vector::erase(iter)]. *)
Definition erase (iter : nat) (m : wd_to_inotify_map_type)
  : wd_to_inotify_map_type :=
  firstn iter m ++ skipn (S iter) m.

(** [INotifyDevice::rm_watch]; [result] is what [inotify_rm_watch]
    returned. *)
Definition rm_watch (result wd : Z) (m : wd_to_inotify_map_type)
  : checked wd_to_inotify_map_type :=
  match get_inotify_obj m wd with
  | done iter =>
      let m := erase iter m in
      if result =? 0 then done m else assertion_failed
  | assertion_failed => assertion_failed
  end.

(** The object that [get_inotify_obj] finds for [wd]. *)
Definition watching (m : wd_to_inotify_map_type) (wd : Z) : option Z :=
  match get_inotify_obj m wd with
  | done iter => option_map snd (nth_error m iter)
  | assertion_failed => None
  end.

Lemma find_if_le (m : wd_to_inotify_map_type) (wd : Z) :
  (find_if m wd <= length m)%nat.
Proof.
  induction m as [|d m IH]; simpl; [lia|].
  destruct (fst d =? wd); lia.
Qed.

(** The vector splits at the first pair for [wd]. *)
Lemma find_if_split (m : wd_to_inotify_map_type) (wd : Z) :
  (find_if m wd < length m)%nat ->
  exists pre obj post,
    m = pre ++ (wd, obj) :: post /\
    length pre = find_if m wd /\
    ~ In wd (map fst pre).
Proof.
  induction m as [|[w o] m IH]; simpl; [lia|].
  destruct (Z.eqb_spec w wd) as [->|Hne]; intros Hlt.
  - exists [], o, m. simpl. auto.
  - destruct IH as (pre & obj & post & Hm & Hlen & Hpre); [lia|].
    exists ((w, o) :: pre), obj, post. simpl.
    split; [rewrite Hm at 1; reflexivity|]. split; [lia|].
    intros [H | H]; [contradiction | exact (Hpre H)].
Qed.

Lemma find_if_absent (m : wd_to_inotify_map_type) (wd : Z) :
  ~ In wd (map fst m) <-> find_if m wd = length m.
Proof.
  induction m as [|[w o] m IH]; simpl; [tauto|].
  destruct (Z.eqb_spec w wd) as [->|Hne].
  - split; [intros H; exfalso; apply H; auto | discriminate].
  - split.
    + intros H. f_equal. apply IH. intros Hin. apply H. auto.
    + intros H [Hw | Hin]; [contradiction|].
      injection H as H. apply IH in H. contradiction.
Qed.

Lemma find_if_app_absent (pre m : wd_to_inotify_map_type) (wd : Z) :
  ~ In wd (map fst pre) ->
  find_if (pre ++ m) wd = (length pre + find_if m wd)%nat.
Proof.
  induction pre as [|[w o] pre IH]; simpl; [reflexivity|].
  intros H. destruct (Z.eqb_spec w wd) as [->|Hne].
  - exfalso. apply H. auto.
  - rewrite IH by (intros Hin; apply H; auto). reflexivity.
Qed.

Lemma find_if_app_present (m m' : wd_to_inotify_map_type) (wd : Z) :
  (find_if m wd < length m)%nat ->
  find_if (m ++ m') wd = find_if m wd.
Proof.
  induction m as [|[w o] m IH]; simpl; [lia|].
  destruct (w =? wd); [reflexivity|].
  intros H. rewrite IH by lia. reflexivity.
Qed.

Lemma watching_split (pre post : wd_to_inotify_map_type) (wd obj : Z) :
  ~ In wd (map fst pre) ->
  watching (pre ++ (wd, obj) :: post) wd = Some obj.
Proof.
  intros Hpre. unfold watching, get_inotify_obj.
  rewrite find_if_app_absent by exact Hpre. simpl.
  rewrite Z.eqb_refl, Nat.add_0_r, length_app. simpl.
  destruct (Nat.eqb_spec (length pre) (length pre + S (length post)));
    [lia|].
  rewrite nth_error_app2 by lia. rewrite Nat.sub_diag. reflexivity.
Qed.

Lemma watching_absent (m : wd_to_inotify_map_type) (wd : Z) :
  ~ In wd (map fst m) <-> watching m wd = None.
Proof.
  unfold watching, get_inotify_obj. split.
  - intros H. apply find_if_absent in H. rewrite H, Nat.eqb_refl.
    reflexivity.
  - destruct (Nat.eqb_spec (find_if m wd) (length m)) as [E|E].
    + intros _. apply find_if_absent. exact E.
    + pose proof (find_if_le m wd) as Hle.
      destruct (find_if_split m wd) as (pre & obj & post & Hm & Hlen & _);
        [lia|].
      rewrite Hm at 1. rewrite <- Hlen.
      rewrite nth_error_app2 by lia. rewrite Nat.sub_diag. discriminate.
Qed.

(** Looking up by another descriptor skips the pairs of [wd]. *)
Lemma watching_skip (pre post : wd_to_inotify_map_type) (wd obj wd' : Z) :
  wd' <> wd ->
  watching (pre ++ (wd, obj) :: post) wd' = watching (pre ++ post) wd'.
Proof.
  intros Hne.
  destruct (in_dec Z.eq_dec wd' (map fst pre)) as [Hin | Hout].
  - assert (Hlt : (find_if pre wd' < length pre)%nat).
    { pose proof (find_if_le pre wd') as Hle.
      destruct (Nat.eq_dec (find_if pre wd') (length pre)) as [E|E];
        [apply find_if_absent in E; contradiction | lia]. }
    destruct (find_if_split pre wd' Hlt) as (p1 & o & p2 & Hp & _ & Hp1).
    rewrite Hp, <- !app_assoc. simpl.
    rewrite !watching_split by exact Hp1. reflexivity.
  - destruct (in_dec Z.eq_dec wd' (map fst post)) as [Hin | Hout'].
    + assert (Hlt : (find_if post wd' < length post)%nat).
      { pose proof (find_if_le post wd') as Hle.
        destruct (Nat.eq_dec (find_if post wd') (length post)) as [E|E];
          [apply find_if_absent in E; contradiction | lia]. }
      destruct (find_if_split post wd' Hlt) as (p1 & o & p2 & Hp & _ & Hp1).
      rewrite Hp.
      change (pre ++ (wd, obj) :: p1 ++ (wd', o) :: p2)
        with (pre ++ ((wd, obj) :: p1) ++ (wd', o) :: p2).
      rewrite !app_assoc.
      rewrite !watching_split; [reflexivity | |].
      * rewrite map_app. intros H. apply in_app_or in H. tauto.
      * rewrite !map_app. simpl. intros H.
        apply in_app_or in H. destruct H as [H | H]; [tauto|].
        simpl in H. destruct H as [H | H]; [congruence | tauto].
    + assert (H1 : watching (pre ++ (wd, obj) :: post) wd' = None).
      { apply watching_absent. rewrite map_app. simpl. intros H.
        apply in_app_or in H. simpl in H.
        destruct H as [H | [H | H]]; [tauto | congruence | tauto]. }
      assert (H2 : watching (pre ++ post) wd' = None).
      { apply watching_absent. rewrite map_app. intros H.
        apply in_app_or in H. tauto. }
      congruence.
Qed.

Lemma erase_at (pre post : wd_to_inotify_map_type) (d : Z * Z) :
  erase (length pre) (pre ++ d :: post) = pre ++ post.
Proof.
  unfold erase. induction pre as [|x pre IH]; simpl; [reflexivity|].
  f_equal. exact IH.
Qed.

(** A watch that was added is found, unless an older pair has its
    descriptor.  On a device that is not open for reading [add_watch]
    first calls [inotify_init1(IN_NONBLOCK)] and stops at an [ASSERT]
    when that returns -1; otherwise it calls [init] on the new
    descriptor and [start_input_device()].  It then calls
    [inotify_add_watch] on the descriptor of the device and stops at an
    [ASSERT] when that returns -1; otherwise it returns the watch
    descriptor and appends one pair to the map.  Afterwards the device
    is open, and [get_inotify_obj] finds for that descriptor the object
    just added when the descriptor was not in the map, and the object
    of the oldest pair with that descriptor when it was; what it finds
    for every other descriptor is unchanged. *)
Theorem add_watch_then_lookup :
  forall (init_fd wd obj : Z) (dev : INotifyDevice),
    let m := m_wd_to_inotify_map dev in
    (is_open_r dev = false -> init_fd = -1 ->
     add_watch init_fd wd obj dev = assertion_failed) /\
    (wd = -1 -> add_watch init_fd wd obj dev = assertion_failed) /\
    (is_open_r dev = true \/ init_fd <> -1 ->
     wd <> -1 ->
     exists dev',
       add_watch init_fd wd obj dev = done (wd, dev') /\
       is_open_r dev' = true /\
       get_input_fd dev' =
         (if is_open_r dev then get_input_fd dev else init_fd) /\
       calls dev' =
         calls dev ++
         (if is_open_r dev then []
          else [inotify_init1 IN_NONBLOCK; init init_fd;
                start_input_device]) ++
         [inotify_add_watch (get_input_fd dev')] /\
       m_wd_to_inotify_map dev' = m ++ [(wd, obj)] /\
       (watching m wd = None ->
        watching (m_wd_to_inotify_map dev') wd = Some obj) /\
       (forall old,
           watching m wd = Some old ->
           watching (m_wd_to_inotify_map dev') wd = Some old) /\
       (forall wd',
           wd' <> wd ->
           watching (m_wd_to_inotify_map dev') wd' = watching m wd')).
Proof.
  intros init_fd wd obj dev m.
  assert (Hlookup :
            (watching m wd = None ->
             watching (m ++ [(wd, obj)]) wd = Some obj) /\
            (forall old,
                watching m wd = Some old ->
                watching (m ++ [(wd, obj)]) wd = Some old) /\
            (forall wd',
                wd' <> wd ->
                watching (m ++ [(wd, obj)]) wd' = watching m wd')).
  { split; [|split].
    - intros Hnone. apply watching_absent in Hnone.
      apply watching_split. exact Hnone.
    - intros old Hold.
      assert (Hlt : (find_if m wd < length m)%nat).
      { pose proof (find_if_le m wd) as Hle.
        destruct (Nat.eq_dec (find_if m wd) (length m)) as [E|E]; [|lia].
        apply find_if_absent, watching_absent in E. congruence. }
      destruct (find_if_split m wd Hlt) as (pre & o & post & Hm & _ & Hpre).
      rewrite Hm in Hold |- *. rewrite watching_split in Hold by exact Hpre.
      rewrite <- app_assoc. simpl. rewrite watching_split by exact Hpre.
      exact Hold.
    - intros wd' Hne.
      rewrite (watching_skip m [] wd obj wd' Hne), app_nil_r. reflexivity. }
  unfold add_watch. split; [|split].
  - intros Hclosed ->. rewrite Hclosed. reflexivity.
  - intros ->. destruct (is_open_r dev); simpl;
      [reflexivity | destruct (init_fd =? -1); reflexivity].
  - intros Hopen Hwd. apply Z.eqb_neq in Hwd.
    destruct (is_open_r dev) eqn:Eo; simpl.
    + rewrite Hwd. eexists. split; [reflexivity|]. simpl.
      split; [exact Eo|]. split; [reflexivity|].
      split; [reflexivity|]. split; [reflexivity|]. exact Hlookup.
    + destruct Hopen as [Hopen | Hfd]; [discriminate|].
      apply Z.eqb_neq in Hfd. rewrite Hfd, Hwd.
      eexists. split; [reflexivity|]. simpl.
      split; [reflexivity|]. split; [reflexivity|].
      split; [rewrite <- app_assoc; reflexivity|].
      split; [reflexivity|]. exact Hlookup.
Qed.

(** [rm_watch] drops the oldest pair of the descriptor and nothing
    else.  When no pair has the descriptor, or [inotify_rm_watch]
    failed, it stops at an [ASSERT].  Otherwise the map loses exactly
    the first pair with that descriptor: the pairs before and after it
    keep their order, every other descriptor is still found with the
    same object, and the descriptor itself is then found only if a
    younger pair has it.  Removing a descriptor right after adding it
    to a map that did not have it gives the map back. *)
Theorem rm_watch_removes_the_oldest :
  forall (wd : Z) (m : wd_to_inotify_map_type),
    (watching m wd = None ->
     forall result, rm_watch result wd m = assertion_failed) /\
    (forall result, result <> 0 -> rm_watch result wd m = assertion_failed) /\
    (forall obj,
        watching m wd = Some obj ->
        exists pre post,
          m = pre ++ (wd, obj) :: post /\
          ~ In wd (map fst pre) /\
          rm_watch 0 wd m = done (pre ++ post) /\
          watching (pre ++ post) wd = watching post wd /\
          (forall wd', wd' <> wd ->
                       watching (pre ++ post) wd' = watching m wd')) /\
    (forall obj,
        watching m wd = None ->
        rm_watch 0 wd (m ++ [(wd, obj)]) = done m).
Proof.
  intros wd m.
  assert (Hrm : forall pre obj post,
             ~ In wd (map fst pre) ->
             rm_watch 0 wd (pre ++ (wd, obj) :: post) = done (pre ++ post)).
  { intros pre obj post Hpre. unfold rm_watch, get_inotify_obj.
    rewrite find_if_app_absent by exact Hpre. simpl.
    rewrite Z.eqb_refl, Nat.add_0_r, length_app. simpl.
    destruct (Nat.eqb_spec (length pre) (length pre + S (length post)));
      [lia|].
    rewrite erase_at. reflexivity. }
  split; [|split; [|split]].
  - intros Hnone result. apply watching_absent, find_if_absent in Hnone.
    unfold rm_watch, get_inotify_obj. rewrite Hnone, Nat.eqb_refl.
    reflexivity.
  - intros result Hres. unfold rm_watch.
    destruct (get_inotify_obj m wd); [|reflexivity].
    apply Z.eqb_neq in Hres. rewrite Hres. reflexivity.
  - intros obj Hobj.
    assert (Hlt : (find_if m wd < length m)%nat).
    { pose proof (find_if_le m wd) as Hle.
      destruct (Nat.eq_dec (find_if m wd) (length m)) as [E|E]; [|lia].
      apply find_if_absent, watching_absent in E. congruence. }
    destruct (find_if_split m wd Hlt) as (pre & o & post & Hm & _ & Hpre).
    assert (Ho : o = obj).
    { rewrite Hm, watching_split in Hobj by exact Hpre. congruence. }
    subst o. exists pre, post.
    split; [exact Hm|]. split; [exact Hpre|].
    split; [rewrite Hm; apply Hrm; exact Hpre|].
    split.
    + destruct (watching post wd) as [o|] eqn:Epost.
      * assert (Hlt' : (find_if post wd < length post)%nat).
        { pose proof (find_if_le post wd) as Hle.
          destruct (Nat.eq_dec (find_if post wd) (length post)) as [E|E];
            [|lia].
          apply find_if_absent, watching_absent in E. congruence. }
        destruct (find_if_split post wd Hlt')
          as (p1 & o' & p2 & Hp & _ & Hp1).
        rewrite Hp in Epost |- *.
        rewrite watching_split in Epost by exact Hp1.
        rewrite app_assoc, watching_split; [exact Epost|].
        rewrite map_app. intros H. apply in_app_or in H. tauto.
      * apply watching_absent in Epost. apply watching_absent.
        rewrite map_app. intros H. apply in_app_or in H. tauto.
    + intros wd' Hne. rewrite Hm. symmetry.
      apply watching_skip. exact Hne.
  - intros obj Hnone. apply watching_absent in Hnone.
    rewrite <- (app_nil_r m) at 2. apply Hrm. exact Hnone.
Qed.

End INotify.
